(** * Floyd chess engine: move encoding and transposition table

    A shallow embedding of [Source/Board.h] (move encoding macros),
    [Source/Engine.h] (the slot declaration) and [Source/ttable.c]
    (ttSetSize, ttWrite, ttRead, ttClearFast, prio), with the properties
    of the specification stated and proved over it.

    Conventions.  C integers are modelled in [Z] with their wrap-around
    written out: [to_int] for the 32-bit [int], [to_size_t] for the 64-bit
    [size_t] and [uint64_t].  The table is a [list] of slots indexed from 0;
    an access outside of it is an error of the model ([Fault]), as are a
    failed [assert] and [xAbort]. *)

From Stdlib Require Import ZArith Lia Bool List.
From stdpp Require Import base list.

Local Open Scope Z_scope.

(** ** Machine integers *)

Definition to_int (z : Z) : Z := (z + 2 ^ 31) mod 2 ^ 32 - 2 ^ 31.
Definition to_size_t (z : Z) : Z := z mod 2 ^ 64.

(** Modelled from the spec: [maxInt] comes from cplus.h, which is not
    among the sources; it is the largest [int]. *)
Definition maxInt : Z := 2 ^ 31 - 1.

(** Modelled from the spec: the macro [ones(n)] comes from cplus.h, which
    is not among the sources; [x & ones(n)] is [x mod 2^n], a word with
    the [n] low bits set. *)
Definition ones (n : Z) : Z := Z.ones n.

(** ** Board.h: move encoding *)

Module Move.

Definition boardBits : Z := 6.

(** [#define move(from, to) (((from) << boardBits) | (to))] *)
Definition move (from to : Z) : Z :=
  Z.lor (to_int (Z.shiftl from boardBits)) to.

(** [enum moveFlags] *)
Definition specialMoveFlag : Z := to_int (Z.shiftl 1 (2 * boardBits)).
Definition promotionBits : Z := 2 * boardBits + 1.
Definition queenPromotionFlags : Z := to_int (Z.shiftl 0 promotionBits).
Definition rookPromotionFlags : Z := to_int (Z.shiftl 1 promotionBits).
Definition bishopPromotionFlags : Z := to_int (Z.shiftl 2 promotionBits).
Definition knightPromotionFlags : Z := to_int (Z.shiftl 3 promotionBits).

(** [#define specialMove(from, to) (specialMoveFlag | move(from, to))] *)
Definition specialMove (from to : Z) : Z :=
  Z.lor specialMoveFlag (move from to).

(** [#define from(move) (((move) >> boardBits) & ~(~0<<boardBits))] *)
Definition from (move : Z) : Z :=
  Z.land (Z.shiftr move boardBits)
         (Z.lnot (to_int (Z.shiftl (Z.lnot 0) boardBits))).

(** [#define to(move) ((move) & ~(~0<<boardBits))] *)
Definition to (move : Z) : Z :=
  Z.land move (Z.lnot (to_int (Z.shiftl (Z.lnot 0) boardBits))).

(** The four values the promotion bits can take. *)
Definition promotionFlags : list Z :=
  [queenPromotionFlags; rookPromotionFlags;
   bishopPromotionFlags; knightPromotionFlags].

End Move.

(** ** Engine.h: the declared slot and its size *)

Module Layout.

Inductive ctype : Set := uint64_t | short | unsigned_short.

(** What a C implementation fixes for each scalar type. *)
Record abi : Set := Abi {
  sizeof : ctype -> Z;
  alignof : ctype -> Z
}.

(** [struct ttSlot] as declared in Engine.h, member by member. *)
Inductive ttSlot_member : Set := hash | loScore | hiScore | move | prio.

Definition member_type (m : ttSlot_member) : ctype :=
  match m with
  | hash => uint64_t
  | loScore | hiScore | move => short
  | prio => unsigned_short
  end.

Definition ttSlot_decl : list ttSlot_member :=
  [hash; loScore; hiScore; move; prio].

(** Round [off] up to the next multiple of [a]. *)
Definition align_up (off a : Z) : Z := (off + a - 1) / a * a.

(** Members are laid out in order, each at the next offset aligned for
    its type; the result is the end offset and the largest alignment. *)
Fixpoint place (a : abi) (ms : list ttSlot_member) (off al : Z) : Z * Z :=
  match ms with
  | [] => (off, al)
  | m :: ms' =>
      let t := member_type m in
      place a ms' (align_up off (alignof a t) + sizeof a t)
            (Z.max al (alignof a t))
  end.

(** [sizeof(struct ...)]: the end offset padded to the struct's alignment. *)
Definition sizeof_struct (a : abi) (ms : list ttSlot_member) : Z :=
  let '(off, al) := place a ms 0 1 in align_up off al.

(** The scalar sizes of every implementation the engine targets:
    [uint64_t] is 8 bytes and [short] 2 bytes; the alignments are powers
    of two not above the size. *)
Definition abi_ok (a : abi) : Prop :=
  sizeof a uint64_t = 8 /\ sizeof a short = 2 /\ sizeof a unsigned_short = 2 /\
  (alignof a uint64_t = 1 \/ alignof a uint64_t = 2 \/
   alignof a uint64_t = 4 \/ alignof a uint64_t = 8) /\
  (alignof a short = 1 \/ alignof a short = 2) /\
  (alignof a unsigned_short = 1 \/ alignof a unsigned_short = 2).

(** The LP64 data model (natural alignment). *)
Definition lp64 : abi :=
  Abi (fun t => match t with uint64_t => 8 | _ => 2 end)
      (fun t => match t with uint64_t => 8 | _ => 2 end).

End Layout.

(** [sizeof(struct ttSlot)] and [sizeof(uint64_t)] as ttable.c sees them. *)
Definition sizeof_ttSlot : Z := Layout.sizeof_struct Layout.lp64 Layout.ttSlot_decl.
Definition sizeof_uint64_t : Z := Layout.sizeof Layout.lp64 Layout.uint64_t.

(** ** Errors and early returns *)

Inductive error : Set :=
| AssertFailed   (* a failed [assert] *)
| Aborted        (* [xAbort] *)
| Fault          (* an access outside of the table *)
| OutOfFuel.     (* a loop of the model ran out of fuel; excluded below *)

Inductive result (A : Type) : Type :=
| Ok (a : A)
| Err (e : error).
Arguments Ok {A} a.
Arguments Err {A} e.

Definition bind {A B : Type} (c : result A) (k : A -> result B) : result B :=
  match c with
  | Ok a => k a
  | Err e => Err e
  end.

Notation "x <- c1 ;; c2" := (bind c1 (fun x => c2))
  (at level 100, c1 at next level, right associativity).

Definition assert (b : bool) : result unit :=
  if b then Ok tt else Err AssertFailed.

(** A function body that can [return] before its end. *)
Inductive step (A : Type) : Type :=
| Next (a : A)
| Return (v : Z)
| Stop (e : error).
Arguments Next {A} a.
Arguments Return {A} v.
Arguments Stop {A} e.

Definition and_then {A B : Type} (c : step A) (k : A -> step B) : step B :=
  match c with
  | Next a => k a
  | Return v => Return v
  | Stop e => Stop e
  end.

(** ** Bit-fields of a 64-bit word *)

Record bitfield : Set := Bitfield {
  bf_off : Z;
  bf_width : Z;
  bf_signed : bool
}.

(** The value a field of the given width holds after [v] is assigned. *)
Definition bf_wrap (f : bitfield) (v : Z) : Z :=
  let u := Z.land v (Z.ones (bf_width f)) in
  if bf_signed f && Z.testbit u (bf_width f - 1)
  then u - 2 ^ bf_width f else u.

Definition bf_get (f : bitfield) (d : Z) : Z :=
  bf_wrap f (Z.shiftr d (bf_off f)).

Definition bf_set (f : bitfield) (d v : Z) : Z :=
  Z.lor (Z.land d (Z.lnot (Z.shiftl (Z.ones (bf_width f)) (bf_off f))))
        (Z.shiftl (Z.land v (Z.ones (bf_width f))) (bf_off f)).

(** A field lies inside the 64-bit word. *)
Definition bf_ok (f : bitfield) : Prop :=
  0 <= bf_off f /\ 0 < bf_width f /\ bf_off f + bf_width f <= 64.

(** Two fields share no bit. *)
Definition bf_disjoint (f g : bitfield) : Prop :=
  bf_off f + bf_width f <= bf_off g \/ bf_off g + bf_width g <= bf_off f.

(** ** The engine state *)

(** Modelled from the spec: the [struct ttSlot] that ttable.c works on is
    not the one of Engine.h above; it is a 64-bit [key] and 64 bits of
    [data], a union with the fields [score], [depth], [date] and the four
    flags, whose places in the word are parameters below. *)
Record ttSlot : Set := TtSlot {
  key : Z;
  data : Z
}.

Record ttable : Set := Ttable {
  tt_slots : list ttSlot;   (* [] is the null pointer *)
  tt_size : Z;
  tt_mask : Z;
  tt_now : Z;
  tt_baseHash : Z
}.

Record Board_t : Set := Board {
  hash : Z;
  halfmoveClock : Z;
  plyNumber : Z
}.

Record Engine_t : Set := Engine {
  board : Board_t;
  tt : ttable;
  rootPlyNumber : Z
}.

Definition with_slots (self : Engine_t) (l : list ttSlot) : Engine_t :=
  Engine (board self)
         (Ttable l (tt_size (tt self)) (tt_mask (tt self))
                 (tt_now (tt self)) (tt_baseHash (tt self)))
         (rootPlyNumber self).

Definition with_baseHash (self : Engine_t) (b : Z) : Engine_t :=
  Engine (board self)
         (Ttable (tt_slots (tt self)) (tt_size (tt self)) (tt_mask (tt self))
                 (tt_now (tt self)) b)
         (rootPlyNumber self).

(** [#define bucketLen 4 // must be power of 2] *)
Definition bucketLen : Z := 4.

(** Reading and writing [slots[ix]]. *)
Definition slot_get (l : list ttSlot) (ix : Z) : result ttSlot :=
  if ix <? 0 then Err Fault
  else match l !! Z.to_nat ix with
       | Some s => Ok s
       | None => Err Fault
       end.

Definition slot_put (l : list ttSlot) (ix : Z) (s : ttSlot) : result (list ttSlot) :=
  if (0 <=? ix) && (ix <? Z.of_nat (length l))
  then Ok (<[Z.to_nat ix := s]> l)
  else Err Fault.

(** ** What ttable.c takes from its headers *)

(** The evaluation bounds, the widths [ttDateBits] and [ttDepthBits], the
    bit-fields of [data] and [xorshift64star] are declared outside of
    ttable.c, in headers that are not among the sources; the functions
    below take them from this class. *)
Class Params : Type := {
  ttDateBits : Z;
  ttDepthBits : Z;
  minEval : Z;
  maxEval : Z;
  minDtz : Z;
  maxDtz : Z;
  minMate : Z;
  maxMate : Z;
  f_score : bitfield;
  f_depth : bitfield;
  f_date : bitfield;
  f_isUpperBound : bitfield;
  f_isLowerBound : bitfield;
  f_isHardBound : bitfield;
  f_isWinLossScore : bitfield;
  xorshift64star : Z -> Z
}.

(** The fields used by ttable.c lie in the word and do not overlap; the
    score is a signed field, the others are unsigned, the flags one bit. *)
Definition fields (P : Params) : list bitfield :=
  [f_score; f_depth; f_date; f_isUpperBound; f_isLowerBound;
   f_isHardBound; f_isWinLossScore].

Fixpoint pairwise_disjoint (l : list bitfield) : Prop :=
  match l with
  | [] => True
  | f :: l' => Forall (bf_disjoint f) l' /\ pairwise_disjoint l'
  end.

Record layout_ok (P : Params) : Prop := {
  fields_ok : Forall bf_ok (fields P);
  fields_disjoint : pairwise_disjoint (fields P);
  score_signed : bf_signed f_score = true;
  depth_unsigned : bf_signed f_depth = false;
  date_unsigned : bf_signed f_date = false;
  isUpperBound_bit : bf_width f_isUpperBound = 1 /\ bf_signed f_isUpperBound = false;
  isLowerBound_bit : bf_width f_isLowerBound = 1 /\ bf_signed f_isLowerBound = false;
  isHardBound_bit : bf_width f_isHardBound = 1 /\ bf_signed f_isHardBound = false;
  isWinLossScore_bit : bf_width f_isWinLossScore = 1 /\ bf_signed f_isWinLossScore = false
}.

Section TTable.

Context {P : Params}.

(** *** Field access: [slot.score], [slot.depth], ... *)

Definition slot_score (s : ttSlot) : Z := bf_get f_score (data s).
Definition slot_depth (s : ttSlot) : Z := bf_get f_depth (data s).
Definition slot_date (s : ttSlot) : Z := bf_get f_date (data s).

(** A one-bit flag read as a truth value. *)
Definition flag (f : bitfield) (s : ttSlot) : bool :=
  negb (bf_get f (data s) =? 0).

Definition slot_isUpperBound : ttSlot -> bool := flag f_isUpperBound.
Definition slot_isLowerBound : ttSlot -> bool := flag f_isLowerBound.
Definition slot_isHardBound : ttSlot -> bool := flag f_isHardBound.
Definition slot_isWinLossScore : ttSlot -> bool := flag f_isWinLossScore.

Definition set_field (f : bitfield) (s : ttSlot) (v : Z) : ttSlot :=
  TtSlot (key s) (bf_set f (data s) v).

Definition set_flag (f : bitfield) (s : ttSlot) (b : bool) : ttSlot :=
  set_field f s (if b then 1 else 0).

Definition set_key (s : ttSlot) (k : Z) : ttSlot := TtSlot k (data s).

(** The key a reader recovers: [local.key ^ local.data]. *)
Definition verified_key (s : ttSlot) : Z := Z.lxor (key s) (data s).

(** Modelled from the spec: the macro [ply(self)] is not among the
    sources; it is the distance from the root, the [rootDistance] that
    ttRead computes. *)
Definition ply (self : Engine_t) : Z :=
  to_int (plyNumber (board self) - rootPlyNumber self).

(** *** prio *)

(** The priority of a slot at date [now]: the body of [prio] once
    [slot] points into the table. *)
Definition slot_prio (now : Z) (slot : ttSlot) : Z :=
  let age := to_int (Z.land (now - slot_date slot) (ones ttDateBits)) in
  to_int (to_int (Z.shiftl (to_int (- age)) ttDepthBits) + slot_depth slot).

(** [static inline int prio(Engine_t self, int ix)] *)
Definition prio (self : Engine_t) (ix : Z) : result Z :=
  slot <- slot_get (tt_slots (tt self)) ix ;;
  Ok (slot_prio (tt_now (tt self)) slot).

(** *** ttWrite *)

(** Lines 107-110: let the older result prevail. *)
Definition older_prevails (slot : ttSlot) (score : Z) : bool :=
  slot_isHardBound slot &&
  ((slot_isLowerBound slot && (score <=? slot_score slot)) ||
   (slot_isUpperBound slot && (score >=? slot_score slot))).

(** Lines 116-122: set fields. *)
Definition set_fields (self : Engine_t) (slot : ttSlot)
    (depth score alpha beta : Z) : ttSlot :=
  let slot := set_field f_score slot score in
  let slot := set_field f_depth slot depth in
  let slot := set_field f_date slot (tt_now (tt self)) in
  let slot := set_flag f_isUpperBound slot (score <=? alpha) in
  let slot := set_flag f_isLowerBound slot (score >=? beta) in
  let slot := set_flag f_isHardBound slot false in
  set_flag f_isWinLossScore slot false.

(** Lines 128-141: the correction for [score > maxEval]. *)
Definition correct_high (self : Engine_t) (score : Z) (slot : ttSlot) : step ttSlot :=
  if maxEval <? score then
    and_then
      (if maxEval + 1 <? score then
         if (halfmoveClock (board self) =? 0) && (score <=? maxDtz) then
           Return score
         else
           let slot := set_field f_score slot (to_int (slot_score slot + ply self)) in
           let slot := set_flag f_isWinLossScore slot true in
           if slot_score slot <? maxMate then Next slot else Stop AssertFailed
       else Next slot)
      (fun slot => Next (set_flag f_isHardBound slot (slot_isLowerBound slot)))
  else Next slot.

(** Lines 143-152: the correction for [score < minEval]. *)
Definition correct_low (self : Engine_t) (score : Z) (slot : ttSlot) : step ttSlot :=
  if score <? minEval then
    and_then
      (if score <? minEval - 1 then
         if (halfmoveClock (board self) =? 0) && (score >=? minDtz) then
           Return score
         else
           let slot := set_field f_score slot (to_int (slot_score slot - ply self)) in
           let slot := set_flag f_isWinLossScore slot true in
           if slot_score slot >=? minMate then Next slot else Stop AssertFailed
       else Next slot)
      (fun slot => Next (set_flag f_isHardBound slot (slot_isUpperBound slot)))
  else Next slot.

(** Lines 107-152: everything before the table is touched. *)
Definition ttWrite_slot (self : Engine_t) (slot : ttSlot)
    (depth score alpha beta : Z) : step ttSlot :=
  if older_prevails slot score then Return (slot_score slot)
  else
    and_then (correct_high self score (set_fields self slot depth score alpha beta))
             (correct_low self score).

(** Lines 161-171: the loop over the bucket, from index [j] on, for [n]
    more rounds, with the current [i] and [iPrio]. *)
Fixpoint ttWrite_scan (self : Engine_t) (slot_key bucket : Z)
    (n : nat) (j i iPrio : Z) : result Z :=
  match n with
  | O => Ok i
  | S n' =>
      local <- slot_get (tt_slots (tt self)) (to_size_t (bucket + j)) ;;
      if Z.lxor (key local) (data local) =? slot_key then Ok j
      else
        jPrio <- prio self (to_int (to_size_t (bucket + j))) ;;
        if jPrio <? iPrio
        then ttWrite_scan self slot_key bucket n' (j + 1) j jPrio
        else ttWrite_scan self slot_key bucket n' (j + 1) i iPrio
  end.

(** [int ttWrite(Engine_t self, struct ttSlot slot, int depth, int score,
    int alpha, int beta)]: the value returned and the engine afterwards. *)
Definition ttWrite (self : Engine_t) (slot : ttSlot)
    (depth score alpha beta : Z) : result (Z * Engine_t) :=
  match ttWrite_slot self slot depth score alpha beta with
  | Return v => Ok (v, self)
  | Stop e => Err e
  | Next slot =>
      let bucket := Z.land (key slot) (tt_mask (tt self)) in
      i <- ttWrite_scan self (key slot) bucket (Z.to_nat bucketLen) 0 (-1) maxInt ;;
      _ <- assert (i >=? 0) ;;
      let slot := set_key slot (Z.lxor (key slot) (data slot)) in
      slots <- slot_put (tt_slots (tt self)) (to_size_t (bucket + i)) slot ;;
      Ok (score, with_slots self slots)
  end.

(** *** ttRead *)

(** Lines 197-201: a slot that was found, its score taken back to the
    current distance from the root. *)
Definition ttRead_found (self : Engine_t) (local : ttSlot) : ttSlot :=
  if slot_isWinLossScore local then
    let rootDistance := to_int (plyNumber (board self) - rootPlyNumber self) in
    set_field f_score local
      (to_int (slot_score local +
               (if slot_score local >=? 0 then to_int (- rootDistance) else rootDistance)))
  else local.

(** Lines 193-203: the loop over the bucket from index [i] on. *)
Fixpoint ttRead_scan (self : Engine_t) (hash bucket : Z) (n : nat) (i : Z)
    : result ttSlot :=
  match n with
  | O => Ok (TtSlot hash 0)
  | S n' =>
      local <- slot_get (tt_slots (tt self)) (to_size_t (bucket + i)) ;;
      let local := set_key local (Z.lxor (key local) (data local)) in
      if key local =? hash then Ok (ttRead_found self local)
      else ttRead_scan self hash bucket n' (i + 1)
  end.

(** [struct ttSlot ttRead(Engine_t self)] *)
Definition ttRead (self : Engine_t) : result ttSlot :=
  let hash := Z.lxor (hash (board self)) (tt_baseHash (tt self)) in
  let bucket := Z.land hash (tt_mask (tt self)) in
  ttRead_scan self hash bucket (Z.to_nat bucketLen) 0.

(** *** ttClearFast *)

(** [void ttClearFast(Engine_t self)] *)
Definition ttClearFast (self : Engine_t) : Engine_t :=
  with_baseHash self
    (to_size_t (Z.lnot (xorshift64star (to_size_t (Z.lnot (tt_baseHash (tt self))))))).

End TTable.

(** ** ttSetSize *)

(** The allocator as ttSetSize meets it: which requests (in bytes) it
    grants, and what the memory beyond the old contents holds. *)
Record allocator : Type := Allocator {
  alloc_ok : Z -> bool;
  alloc_junk : nat -> ttSlot
}.

(** The first [n] slots of [old], continued with whatever the memory holds. *)
Definition resized (junk : nat -> ttSlot) (old : list ttSlot) (n : nat) : list ttSlot :=
  take n old ++ (junk <$> seq (length old) (n - length old)).

(** [realloc(slots, newSize)]: [None] is the null pointer. *)
Definition realloc (h : allocator) (old : list ttSlot) (newSize : Z)
    : option (list ttSlot) :=
  if alloc_ok h newSize
  then Some (resized (alloc_junk h) old (Z.to_nat (newSize / sizeof_ttSlot)))
  else None.

(** [memset(newSlots, 0, bucketLen * sizeof newSlots[0])] *)
Definition memset_bucket (newSlots : list ttSlot) : result (list ttSlot) :=
  if Z.of_nat (length newSlots) <? bucketLen then Err Fault
  else Ok (replicate (Z.to_nat bucketLen) (TtSlot 0 0)
           ++ drop (Z.to_nat bucketLen) newSlots).

Section SetSize.

Context {P : Params}.

(** Lines 64-65: double [newSize] while it fits twice into [size]. *)
Fixpoint ttSetSize_fit (fuel : nat) (size newSize newMask : Z) : result (Z * Z) :=
  if newSize <=? to_size_t (size - newSize) then
    match fuel with
    | O => Err OutOfFuel
    | S fuel' =>
        ttSetSize_fit fuel' size (to_size_t (newSize + newSize))
                      (to_size_t (to_size_t (Z.shiftl newMask 1) + bucketLen))
    end
  else Ok (newSize, newMask).

(** Lines 69-71: the shrink loop from index [i] on, for [n] more rounds. *)
Fixpoint ttSetSize_shrink (n : nat) (self : Engine_t) (newMask i : Z)
    : result Engine_t :=
  match n with
  | O => Ok self
  | S n' =>
      let t := Z.land i (to_size_t (to_size_t (newMask + bucketLen) - 1)) in
      pt <- prio self (to_int t) ;;
      pi <- prio self (to_int i) ;;
      self' <- (if pt <? pi then
                  s <- slot_get (tt_slots (tt self)) i ;;
                  slots <- slot_put (tt_slots (tt self)) t s ;;
                  Ok (with_slots self slots)
                else Ok self) ;;
      ttSetSize_shrink n' self' newMask (i + 1)
  end.

(** Lines 74-81: allocate, retrying with halved sizes. *)
Fixpoint ttSetSize_realloc (fuel : nat) (h : allocator) (old : list ttSlot)
    (newSize newMask : Z) : result (list ttSlot * Z * Z) :=
  match realloc h old newSize with
  | Some newSlots => Ok (newSlots, newSize, newMask)
  | None =>
      if 0 <? newMask then
        match fuel with
        | O => Err OutOfFuel
        | S fuel' =>
            ttSetSize_realloc fuel' h old (Z.shiftr newSize 1)
              (Z.shiftr (Z.land newMask (Z.lnot bucketLen)) 1)
        end
      else Err Aborted
  end.

(** Lines 88-89: the expand loop from index [i] on, for [n] more rounds. *)
Fixpoint ttSetSize_expand (n : nat) (oldMask : Z) (newSlots : list ttSlot) (i : Z)
    : result (list ttSlot) :=
  match n with
  | O => Ok newSlots
  | S n' =>
      s <- slot_get newSlots (Z.land i (to_size_t (to_size_t (oldMask + bucketLen) - 1))) ;;
      newSlots' <- slot_put newSlots i s ;;
      ttSetSize_expand n' oldMask newSlots' (i + 1)
  end.

(** [void ttSetSize(Engine_t self, size_t size)] *)
Definition ttSetSize (h : allocator) (self : Engine_t) (size : Z) : result Engine_t :=
  _ <- assert (sizeof_ttSlot =? 2 * sizeof_uint64_t) ;;
  let newSize := to_size_t (bucketLen * sizeof_ttSlot) in
  let size := Z.max size newSize in
  fit <- ttSetSize_fit 64 size newSize 0 ;;
  let '(newSize, newMask) := fit in
  shrunk <- (if newSize <? tt_size (tt self)
             then ttSetSize_shrink (Z.to_nat (to_size_t (tt_mask (tt self) + bucketLen)))
                                   self newMask 0
             else Ok self) ;;
  got <- ttSetSize_realloc 64 h (tt_slots (tt shrunk)) newSize newMask ;;
  let '(newSlots, newSize, newMask) := got in
  newSlots <- (match tt_slots (tt shrunk) with
               | [] => memset_bucket newSlots
               | _ :: _ => Ok newSlots
               end) ;;
  newSlots <- (if tt_size (tt shrunk) <? newSize
               then ttSetSize_expand (Z.to_nat (to_size_t (newMask + bucketLen)))
                                     (tt_mask (tt shrunk)) newSlots 0
               else Ok newSlots) ;;
  Ok (Engine (board shrunk)
             (Ttable newSlots newSize newMask
                     (tt_now (tt shrunk)) (tt_baseHash (tt shrunk)))
             (rootPlyNumber shrunk)).

End SetSize.

(** ** Well-formed states and the vocabulary of the properties *)

(** A value that a field holds unchanged. *)
Definition fits (f : bitfield) (v : Z) : Prop := bf_wrap f v = v.

(** What the properties need of the declarations that are not at hand:
    the layout of [data], [int] arithmetic in [prio] that does not
    overflow, a score field not wider than [int], and evaluation bounds
    in their order. *)
Record params_ok (P : Params) : Prop := {
  layout : layout_ok P;
  dateBits_nonneg : 0 <= ttDateBits;
  depthBits_nonneg : 0 <= ttDepthBits;
  prio_fits_int : ttDateBits + ttDepthBits <= 30;
  depth_fits_int : bf_width f_depth <= 30;
  score_fits_int : bf_width f_score <= 32;
  eval_ordered : minEval <= maxEval
}.

(** The table after a successful ttSetSize: [2^k] buckets of [bucketLen]
    slots, [mask] selecting the first slot of a bucket, [size] in bytes. *)
Definition tt_wf (t : ttable) : Prop :=
  exists k : Z,
    0 <= k /\
    tt_mask t = Z.shiftl (Z.ones k) 2 /\
    Z.of_nat (length (tt_slots t)) = tt_mask t + bucketLen /\
    tt_size t = (tt_mask t + bucketLen) * sizeof_ttSlot /\
    tt_size t < 2 ^ 64.

(** The table before the first ttSetSize. *)
Definition tt_null (t : ttable) : Prop :=
  tt_slots t = [] /\ tt_size t = 0 /\ tt_mask t = 0.

(** Every bucket lies in the table. *)
Definition tt_buckets_ok (t : ttable) : Prop :=
  0 <= tt_mask t /\
  tt_mask t + bucketLen <= Z.of_nat (length (tt_slots t)) /\
  tt_mask t + bucketLen <= 2 ^ 64.

(** Every index of the table is an [int], as [prio] takes it. *)
Definition tt_int_indexed (t : ttable) : Prop :=
  tt_mask t + bucketLen <= 2 ^ 31.

(** The slot count of a table. *)
Definition tt_count (t : ttable) : Z := tt_mask t + bucketLen.

(** The mask and the size in bytes of a table of [2^k] buckets. *)
Definition mask_of (k : Z) : Z := Z.shiftl (Z.ones k) 2.
Definition size_of (k : Z) : Z := bucketLen * sizeof_ttSlot * 2 ^ k.

(** The largest size [bucketLen * sizeof(struct ttSlot) * 2^k] that does
    not exceed the request, and no less than one bucket. *)
Definition largest_fit (size : Z) : Z :=
  let bucket := bucketLen * sizeof_ttSlot in
  bucket * 2 ^ Z.log2 (Z.max size bucket / bucket).

(** *** Choosing a slot in a bucket *)

Section Choice.

Context {P : Params}.

(** The slot at place [j] of the bucket starting at [bucket]. *)
Definition bucket_slot (t : ttable) (bucket j : Z) : option ttSlot :=
  tt_slots t !! Z.to_nat (bucket + j).

(** The slot at place [j] verifies to [hash]. *)
Definition matches (t : ttable) (hash bucket j : Z) : Prop :=
  exists s, bucket_slot t bucket j = Some s /\ verified_key s = hash.

(** Place [i] is the first of the bucket that verifies to [hash]. *)
Definition first_match (t : ttable) (hash bucket i : Z) : Prop :=
  0 <= i < bucketLen /\ matches t hash bucket i /\
  forall j, 0 <= j < i -> ~ matches t hash bucket j.

(** No place of the bucket verifies to [hash]. *)
Definition no_match (t : ttable) (hash bucket : Z) : Prop :=
  forall j, 0 <= j < bucketLen -> ~ matches t hash bucket j.

(** Place [i] has the minimum [prio] of the bucket, and is the lowest
    such place. *)
Definition lowest_prio (t : ttable) (bucket i : Z) : Prop :=
  0 <= i < bucketLen /\
  exists si, bucket_slot t bucket i = Some si /\
    forall j sj, 0 <= j < bucketLen -> bucket_slot t bucket j = Some sj ->
      slot_prio (tt_now t) si <= slot_prio (tt_now t) sj /\
      (j < i -> slot_prio (tt_now t) si < slot_prio (tt_now t) sj).

(** The place ttWrite is to store into. *)
Definition chosen (t : ttable) (hash bucket i : Z) : Prop :=
  first_match t hash bucket i \/
  (no_match t hash bucket /\ lowest_prio t bucket i).

(** Place [i] with priority [p] is the lowest-index minimum of the places
    below [j]. *)
Definition best_below (t : ttable) (bucket i p j : Z) : Prop :=
  exists si, bucket_slot t bucket i = Some si /\ slot_prio (tt_now t) si = p /\
    forall j' sj, 0 <= j' < j -> bucket_slot t bucket j' = Some sj ->
      p <= slot_prio (tt_now t) sj /\ (j' < i -> p < slot_prio (tt_now t) sj).

(** In a bucket that lies in the table, whose indices are [int]s. *)
Definition bucket_ok (t : ttable) (bucket : Z) : Prop :=
  0 <= bucket /\
  bucket + bucketLen <= Z.of_nat (length (tt_slots t)) /\
  bucket + bucketLen <= 2 ^ 31.

(** The slot ttWrite puts into the table for the prepared [slot]. *)
Definition sealed (slot : ttSlot) : ttSlot :=
  TtSlot (Z.lxor (key slot) (data slot)) (data slot).

(** The key ttRead looks for and the bucket it looks in. *)
Definition probe (self : Engine_t) : Z :=
  Z.lxor (hash (board self)) (tt_baseHash (tt self)).

Definition probe_bucket (self : Engine_t) : Z :=
  Z.land (probe self) (tt_mask (tt self)).

(** Among the slots of [old] at the indices below [bound] that are [t]
    modulo [n'], [s] is one of highest [prio]. *)
Definition best_of_class (now : Z) (old : list ttSlot) (n' bound t : Z) (s : ttSlot)
    : Prop :=
  exists j, 0 <= j < bound /\ j mod n' = t /\ old !! Z.to_nat j = Some s /\
    forall j' s', 0 <= j' < bound -> j' mod n' = t ->
      old !! Z.to_nat j' = Some s' -> slot_prio now s' <= slot_prio now s.

End Choice.

(** ** An instance of the parameters *)

(** Modelled from the spec: [xorshift64star] is not among the sources;
    this is the xorshift64* generator that the name refers to.  It serves
    in the example parameters only. *)
Definition xorshift64star_ref (x : Z) : Z :=
  let x := Z.lxor x (Z.shiftr x 12) in
  let x := Z.lxor x (to_size_t (Z.shiftl x 25)) in
  let x := Z.lxor x (Z.shiftr x 27) in
  to_size_t (x * 2685821657736338717).

(** A layout with a 16-bit score, a 16-bit move, an 8-bit depth, a 12-bit
    date and the four flags, and evaluation bounds below the 16-bit range. *)
#[local] Instance example_params : Params := {|
  ttDateBits := 12;
  ttDepthBits := 8;
  minEval := -30000;
  maxEval := 30000;
  minDtz := -31000;
  maxDtz := 31000;
  minMate := -32000;
  maxMate := 32000;
  f_score := Bitfield 0 16 true;
  f_depth := Bitfield 32 8 false;
  f_date := Bitfield 40 12 false;
  f_isUpperBound := Bitfield 52 1 false;
  f_isLowerBound := Bitfield 53 1 false;
  f_isHardBound := Bitfield 54 1 false;
  f_isWinLossScore := Bitfield 55 1 false;
  xorshift64star := xorshift64star_ref
|}.

(** An allocator that grants every request and hands out zeroed memory. *)
Definition generous : allocator := Allocator (fun _ => true) (fun _ => TtSlot 0 0).

(** An allocator that refuses requests above [limit] bytes. *)
Definition limited (limit : Z) : allocator :=
  Allocator (fun n => n <=? limit) (fun _ => TtSlot 0 0).

(** An engine with a table of [n] zeroed slots under [mask]. *)
Definition blank_engine (n : nat) (mask now baseHash : Z) (b : Board_t) (root : Z)
    : Engine_t :=
  Engine b (Ttable (replicate n (TtSlot 0 0)) (Z.of_nat n * sizeof_ttSlot) mask now baseHash)
         root.

(** ** The rest of the headers and of ttable.c *)

(** *** Engine.h: the packed priority *)

(** [#define ttPrio(now, depth) ((now << 8) + depth)] *)
Definition ttPrio (now depth : Z) : Z := to_int (to_int (Z.shiftl now 8) + depth).

(** [#define ttDepth(prio) ((prio) & 0xff)] *)
Definition ttDepth (prio : Z) : Z := Z.land prio 255.

(** *** Board.h: the side to move *)

(** [enum pieceColor { white = 0, black = 1 }] *)
Definition white : Z := 0.
Definition black : Z := 1.

(** [#define sideToMove(board) ((board)->plyNumber & 1)] *)
Definition sideToMove (b : Board_t) : Z := Z.land (plyNumber b) 1.

(** *** ttable.c: ttCalcLoad and the age of a slot *)

Section Load.

Context {P : Params}.

(** Line 243: [int age = (self->tt.now - slot->date) & ones(ttDateBits)] *)
Definition slot_age (now : Z) (slot : ttSlot) : Z :=
  to_int (Z.land (now - slot_date slot) (ones ttDateBits)).

(** Lines 217-219: the loop from index [i] on, for [n] more rounds, with
    the count so far. *)
Fixpoint ttCalcLoad_count (self : Engine_t) (n : nat) (i count : Z) : result Z :=
  match n with
  | O => Ok count
  | S n' =>
      s <- slot_get (tt_slots (tt self)) i ;;
      ttCalcLoad_count self n' (to_int (i + 1))
        (if slot_date s =? tt_now (tt self) then to_int (count + 1) else count)
  end.

(** [double ttCalcLoad(Engine_t self)]: the counts [n] and [m] whose
    quotient, taken in [double], is the value returned. *)
Definition ttCalcLoad (self : Engine_t) : result (Z * Z) :=
  let m := to_int (Z.min 10000 (to_size_t (tt_mask (tt self) + bucketLen))) in
  n <- ttCalcLoad_count self (Z.to_nat m) 0 0 ;;
  Ok (n, m).

End Load.

(** The slots of a list whose date is [now]. *)
Definition dated {P : Params} (now : Z) (l : list ttSlot) : list ttSlot :=
  filter (fun s => slot_date s = now) l.

(** No bucket holds a hash other than 0 at two places. *)
Definition no_duplicates (t : ttable) : Prop :=
  forall x hash i j,
    hash <> 0 ->
    0 <= i < bucketLen -> 0 <= j < bucketLen ->
    matches t hash (Z.land x (tt_mask t)) i ->
    matches t hash (Z.land x (tt_mask t)) j ->
    i = j.

(** Every slot of [l] that holds data was stored for one of the board
    hashes [hs] under the base hash [base]: it verifies the probe of that
    board hash. *)
Definition written_under (base : Z) (hs : list Z) (l : list ttSlot) : Prop :=
  forall i s, l !! i = Some s ->
    data s = 0 \/ exists h, In h hs /\ verified_key s = Z.lxor h base.

(** A table whose slots are all zero. *)
Definition all_zero (l : list ttSlot) : Prop :=
  forall i s, l !! i = Some s -> s = TtSlot 0 0.

(** Two engines that differ in nothing but the slots of the table. *)
Definition same_but_slots (a b : Engine_t) : Prop :=
  b = with_slots a (tt_slots (tt b)).

(** * Properties *)

(** ** Machine integers *)

Lemma to_int_small (z : Z) : - 2 ^ 31 <= z < 2 ^ 31 -> to_int z = z.
Proof.
  intros H. unfold to_int. rewrite Z.mod_small; lia.
Qed.

Lemma to_int_range (z : Z) : - 2 ^ 31 <= to_int z < 2 ^ 31.
Proof.
  unfold to_int.
  pose proof (Z.mod_pos_bound (z + 2 ^ 31) (2 ^ 32) ltac:(lia)). lia.
Qed.

Lemma to_size_t_small (z : Z) : 0 <= z < 2 ^ 64 -> to_size_t z = z.
Proof.
  intros H. unfold to_size_t. apply Z.mod_small; lia.
Qed.

(** The low [n] bits of [b] below a shifted [a] add up without carry. *)
Lemma lor_shiftl_low (a n b : Z) :
  0 <= n -> 0 <= b < 2 ^ n -> Z.lor (Z.shiftl a n) b = a * 2 ^ n + b.
Proof.
  intros Hn Hb.
  assert (Hland : Z.land (Z.shiftl a n) b = 0).
  { apply Z.bits_inj'. intros i Hi.
    rewrite Z.land_spec, Z.bits_0.
    destruct (Z.lt_ge_cases i n) as [Hlt | Hge].
    - rewrite Z.shiftl_spec_low by lia. reflexivity.
    - rewrite <- (Z.mod_small b (2 ^ n)) by lia.
      rewrite Z.mod_pow2_bits_high by lia. apply andb_false_r. }
  rewrite <- Z.lxor_lor by exact Hland.
  rewrite <- Z.add_nocarry_lxor by exact Hland.
  rewrite Z.shiftl_mul_pow2 by lia. reflexivity.
Qed.

(** ** Board.h: packing and unpacking a move *)

Module MoveFacts.
Import Move.

Lemma low_mask : Z.lnot (to_int (Z.shiftl (Z.lnot 0) boardBits)) = Z.ones 6.
Proof. reflexivity. Qed.

(** A word with flags [c] above bit 12 over the squares [f] and [t]. *)
Lemma from_to_packed (c f t : Z) :
  0 <= c -> 0 <= f <= 63 -> 0 <= t <= 63 ->
  from (c * 2 ^ 12 + (f * 2 ^ 6 + t)) = f /\ to (c * 2 ^ 12 + (f * 2 ^ 6 + t)) = t.
Proof.
  intros Hc Hf Ht. unfold from, to. rewrite low_mask.
  rewrite !Z.land_ones by lia. unfold boardBits.
  rewrite Z.shiftr_div_pow2 by lia.
  change (2 ^ 12) with 4096. change (2 ^ 6) with 64.
  split.
  - replace (c * 4096 + (f * 64 + t)) with (t + (c * 64 + f) * 64) by lia.
    rewrite Z.div_add by lia. rewrite (Z.div_small t 64) by lia.
    replace (0 + (c * 64 + f)) with (f + c * 64) by lia.
    rewrite Z.mod_add by lia. apply Z.mod_small. lia.
  - replace (c * 4096 + (f * 64 + t)) with (t + (c * 64 + f) * 64) by lia.
    rewrite Z.mod_add by lia. apply Z.mod_small. lia.
Qed.

Lemma move_packed (f t : Z) :
  0 <= f <= 63 -> 0 <= t <= 63 -> move f t = f * 2 ^ 6 + t.
Proof.
  intros Hf Ht. unfold move, boardBits.
  rewrite to_int_small.
  - apply lor_shiftl_low; [lia | change (2 ^ 6) with 64; lia].
  - rewrite Z.shiftl_mul_pow2 by lia. change (2 ^ 6) with 64. lia.
Qed.

Lemma flags_packed (c f t : Z) :
  0 <= f <= 63 -> 0 <= t <= 63 ->
  Z.lor (Z.shiftl c 12) (move f t) = c * 2 ^ 12 + (f * 2 ^ 6 + t).
Proof.
  intros Hf Ht. rewrite move_packed by assumption.
  apply lor_shiftl_low; [lia | change (2 ^ 6) with 64; change (2 ^ 12) with 4096; lia].
Qed.

End MoveFacts.

(** C9. For squares [from] and [to] in 0..63, [from] and [to] recover the
    two squares from [move(from, to)], from [specialMove(from, to)], and
    from [specialMove(from, to)] with any of the four promotion flag values
    or'd in: the special flag is bit 12 and the promotion values are
    multiples of bit 13 below bit 15, above the square bits 0-11. *)
Theorem move_from_to_roundtrip (f t : Z) :
  0 <= f <= 63 -> 0 <= t <= 63 ->
  Move.from (Move.move f t) = f /\ Move.to (Move.move f t) = t /\
  Move.from (Move.specialMove f t) = f /\ Move.to (Move.specialMove f t) = t /\
  (forall promo : Z, In promo Move.promotionFlags ->
     Move.from (Z.lor (Move.specialMove f t) promo) = f /\
     Move.to (Z.lor (Move.specialMove f t) promo) = t) /\
  Move.specialMoveFlag = 2 ^ 12 /\
  Move.promotionFlags = [0 * 2 ^ 13; 1 * 2 ^ 13; 2 * 2 ^ 13; 3 * 2 ^ 13].
Proof.
  intros Hf Ht.
  assert (Hspecial : forall c, 0 <= c ->
            Move.from (Z.lor (Z.shiftl c 12) (Move.move f t)) = f /\
            Move.to (Z.lor (Z.shiftl c 12) (Move.move f t)) = t).
  { intros c Hc. rewrite MoveFacts.flags_packed by assumption.
    apply MoveFacts.from_to_packed; assumption. }
  split; [| split; [| split; [| split; [| split; [| split]]]]].
  - rewrite MoveFacts.move_packed by assumption.
    apply (MoveFacts.from_to_packed 0); lia.
  - rewrite MoveFacts.move_packed by assumption.
    apply (MoveFacts.from_to_packed 0); lia.
  - apply (Hspecial 1). lia.
  - apply (Hspecial 1). lia.
  - intros promo Hin. unfold Move.specialMove.
    rewrite <- Z.lor_assoc, (Z.lor_comm (Move.move f t)), Z.lor_assoc.
    simpl in Hin.
    destruct Hin as [<- | [<- | [<- | [<- | []]]]].
    + apply (Hspecial 1). lia.
    + apply (Hspecial 3). lia.
    + apply (Hspecial 5). lia.
    + apply (Hspecial 7). lia.
  - reflexivity.
  - reflexivity.
Qed.

Lemma move_from_to_roundtrip_witness :
  Move.from (Z.lor (Move.specialMove 52 60) Move.knightPromotionFlags) = 52 /\
  Move.to (Z.lor (Move.specialMove 52 60) Move.knightPromotionFlags) = 60.
Proof.
  apply (move_from_to_roundtrip 52 60); [lia | lia |].
  unfold Move.promotionFlags. simpl. tauto.
Defined.

(** ** Engine.h: the size of the declared slot *)

(** C10. The slot declared in Engine.h (a [uint64_t] and four 16-bit
    members) occupies 16 bytes, twice the size of a [uint64_t], whatever
    the alignments; so the size assertion at the top of ttSetSize holds. *)
Theorem ttSlot_sizeof (a : Layout.abi) :
  Layout.abi_ok a ->
  Layout.sizeof_struct a Layout.ttSlot_decl = 16 /\
  Layout.sizeof_struct a Layout.ttSlot_decl = 2 * Layout.sizeof a Layout.uint64_t /\
  assert (sizeof_ttSlot =? 2 * sizeof_uint64_t) = Ok ().
Proof.
  intros (H64 & Hs & Hus & Ha64 & Has & Haus).
  assert (Hsize : Layout.sizeof_struct a Layout.ttSlot_decl = 16).
  { unfold Layout.sizeof_struct, Layout.ttSlot_decl. simpl.
    rewrite H64, Hs, Hus.
    destruct Ha64 as [-> | [-> | [-> | ->]]];
      destruct Has as [-> | ->]; destruct Haus as [-> | ->]; reflexivity. }
  split; [exact Hsize | split].
  - rewrite Hsize, H64. reflexivity.
  - reflexivity.
Qed.

Lemma ttSlot_sizeof_witness :
  Layout.abi_ok Layout.lp64 /\
  Layout.sizeof_struct Layout.lp64 Layout.ttSlot_decl = 16.
Proof.
  assert (H : Layout.abi_ok Layout.lp64).
  { unfold Layout.abi_ok. simpl. intuition lia. }
  split; [exact H | apply (ttSlot_sizeof Layout.lp64 H)].
Defined.

(** ** Bit-fields *)

(** Rewrite the bit at a non-negative index of a bitwise expression. *)
Ltac bitwise :=
  repeat first
    [ rewrite Z.land_spec | rewrite Z.lor_spec | rewrite Z.lxor_spec
    | rewrite Z.lnot_spec by lia
    | rewrite Z.shiftr_spec by lia
    | rewrite Z.shiftl_spec by lia
    | rewrite Z.testbit_ones by lia ].

Lemma testbit_ones_at (n i : Z) :
  0 <= n -> Z.testbit (Z.ones n) i = (0 <=? i) && (i <? n).
Proof. intros Hn. apply Z.testbit_ones. exact Hn. Qed.

(** [bf_wrap] looks at the low bits only. *)
Lemma bf_wrap_low_bits (f : bitfield) (x y : Z) :
  Z.land x (Z.ones (bf_width f)) = Z.land y (Z.ones (bf_width f)) ->
  bf_wrap f x = bf_wrap f y.
Proof.
  intros H. unfold bf_wrap. rewrite H. reflexivity.
Qed.

(** Decide the comparisons left by [bitwise] and close the goal. *)
Ltac bit_cases :=
  repeat match goal with
         | |- context [?a <=? ?b] => destruct (Z.leb_spec a b)
         | |- context [?a <? ?b] => destruct (Z.ltb_spec a b)
         end;
  simpl; try lia;
  rewrite ?andb_true_r, ?andb_false_r, ?orb_false_r, ?orb_true_r;
  try reflexivity.

Lemma bf_get_set_same (f : bitfield) (d v : Z) :
  bf_ok f -> bf_get f (bf_set f d v) = bf_wrap f v.
Proof.
  intros (Hoff & Hw & _). unfold bf_get.
  apply bf_wrap_low_bits. unfold bf_set.
  apply Z.bits_inj'. intros i Hi. bitwise.
  replace (i + bf_off f - bf_off f) with i by lia.
  bitwise. bit_cases.
Qed.

Lemma bf_get_set_other (f g : bitfield) (d v : Z) :
  bf_ok f -> bf_ok g -> bf_disjoint f g ->
  bf_get g (bf_set f d v) = bf_get g d.
Proof.
  intros (Hfo & Hfw & _) (Hgo & Hgw & _) Hdis. unfold bf_get.
  apply bf_wrap_low_bits. unfold bf_set. unfold bf_disjoint in Hdis.
  apply Z.bits_inj'. intros i Hi. bitwise. bit_cases.
Qed.

Lemma bf_disjoint_sym (f g : bitfield) : bf_disjoint f g -> bf_disjoint g f.
Proof. unfold bf_disjoint. tauto. Qed.

(** An unsigned field holds the values below [2 ^ width]. *)
Lemma fits_unsigned (f : bitfield) (v : Z) :
  bf_signed f = false -> 0 <= bf_width f -> 0 <= v < 2 ^ bf_width f -> fits f v.
Proof.
  intros Hs Hw Hv. unfold fits, bf_wrap. rewrite Hs. simpl.
  rewrite Z.land_ones by lia. apply Z.mod_small. lia.
Qed.

(** A one-bit unsigned field holds a truth value. *)
Lemma bf_wrap_bit (f : bitfield) (b : bool) :
  bf_width f = 1 -> bf_signed f = false ->
  bf_wrap f (if b then 1 else 0) = if b then 1 else 0.
Proof.
  intros Hw Hs. apply fits_unsigned; [exact Hs | lia |].
  rewrite Hw. destruct b; simpl; lia.
Qed.

(** What an unsigned field can hold. *)
Lemma bf_wrap_unsigned_range (f : bitfield) (v : Z) :
  bf_signed f = false -> 0 <= bf_width f -> 0 <= bf_wrap f v < 2 ^ bf_width f.
Proof.
  intros Hs Hw. unfold bf_wrap. rewrite Hs. simpl.
  rewrite Z.land_ones by lia. apply Z.mod_pos_bound. lia.
Qed.

(** ** Fields of a slot *)

(** Split [layout_ok] into one fact per field and per pair of fields. *)
Ltac layout_facts H :=
  let Hok := fresh "Hok" in
  let Hdis := fresh "Hdis" in
  destruct H as [Hok Hdis ? ? ? [? ?] [? ?] [? ?] [? ?]];
  unfold fields in Hok, Hdis; simpl in Hdis;
  repeat match goal with
         | H : _ /\ _ |- _ => destruct H
         | H : Forall _ (_ :: _) |- _ => apply Forall_cons in H
         | H : Forall _ [] |- _ => clear H
         end.

(** Close the side conditions of the two laws of [bf_get] over [bf_set]. *)
Ltac field_side :=
  first [ assumption | apply bf_disjoint_sym; assumption ].

(** Read fields back through the assignments made to a slot. *)
Ltac read_fields :=
  unfold set_flag, set_field, set_key; simpl;
  repeat first
    [ rewrite bf_get_set_same by field_side
    | rewrite bf_get_set_other by field_side ].

Section Fields.

Context {P : Params}.
Hypothesis HP : params_ok P.

Lemma flag_of_bit (b : bool) : negb ((if b then 1 else 0) =? 0) = b.
Proof. destruct b; reflexivity. Qed.

(** Lines 116-122 leave in the slot what they assign. *)
Lemma set_fields_spec (self : Engine_t) (slot : ttSlot) (depth score alpha beta : Z) :
  let s := set_fields self slot depth score alpha beta in
  key s = key slot /\
  slot_score s = bf_wrap f_score score /\
  slot_depth s = bf_wrap f_depth depth /\
  slot_date s = bf_wrap f_date (tt_now (tt self)) /\
  slot_isUpperBound s = (score <=? alpha) /\
  slot_isLowerBound s = (score >=? beta) /\
  slot_isHardBound s = false /\
  slot_isWinLossScore s = false.
Proof.
  destruct HP as [HL _ _ _ _ _ _]. layout_facts HL.
  unfold set_fields, slot_score, slot_depth, slot_date, slot_isUpperBound,
    slot_isLowerBound, slot_isHardBound, slot_isWinLossScore, flag.
  read_fields.
  rewrite ?bf_wrap_bit, ?(bf_wrap_bit _ false), ?(bf_wrap_bit _ true) by assumption.
  rewrite !flag_of_bit. simpl. tauto.
Qed.

End Fields.

(** ** Access to the table *)

Lemma slot_get_Some (l : list ttSlot) (ix : Z) (s : ttSlot) :
  0 <= ix -> l !! Z.to_nat ix = Some s -> slot_get l ix = Ok s.
Proof.
  intros Hix Hs. unfold slot_get.
  destruct (Z.ltb_spec ix 0); [lia |]. rewrite Hs. reflexivity.
Qed.

Lemma slot_get_inv (l : list ttSlot) (ix : Z) (s : ttSlot) :
  slot_get l ix = Ok s -> 0 <= ix /\ l !! Z.to_nat ix = Some s.
Proof.
  unfold slot_get. destruct (Z.ltb_spec ix 0); [discriminate |].
  destruct (l !! Z.to_nat ix); [| discriminate].
  intros [= ->]. split; [lia | reflexivity].
Qed.

Lemma slot_put_ok (l : list ttSlot) (ix : Z) (s : ttSlot) :
  0 <= ix < Z.of_nat (length l) ->
  slot_put l ix s = Ok (<[Z.to_nat ix := s]> l).
Proof.
  intros Hix. unfold slot_put.
  destruct (Z.leb_spec 0 ix); [| lia].
  destruct (Z.ltb_spec ix (Z.of_nat (length l))); [| lia]. reflexivity.
Qed.

Lemma lookup_in_range (l : list ttSlot) (ix : Z) :
  0 <= ix < Z.of_nat (length l) -> exists s, l !! Z.to_nat ix = Some s.
Proof.
  intros Hix. apply (lookup_lt_is_Some_2 l (Z.to_nat ix)). lia.
Qed.

(** The bits kept by a non-negative mask lie between 0 and the mask. *)
Lemma land_mask_range (a m : Z) : 0 <= m -> 0 <= Z.land a m <= m.
Proof.
  intros Hm. apply Z.ldiff_le; [exact Hm |].
  apply Z.bits_inj'. intros i Hi.
  rewrite Z.ldiff_spec, Z.land_spec, Z.bits_0.
  destruct (Z.testbit a i), (Z.testbit m i); reflexivity.
Qed.

(** ** prio *)

Section Prio.

Context {P : Params}.
Hypothesis HP : params_ok P.

(** With the bounds of [params_ok] the arithmetic of [prio] does not
    overflow: the priority is [depth - age * 2^ttDepthBits]. *)
Lemma slot_prio_value (now : Z) (s : ttSlot) :
  slot_prio now s =
    slot_depth s - ((now - slot_date s) mod 2 ^ ttDateBits) * 2 ^ ttDepthBits /\
  - 2 ^ 30 < slot_prio now s < 2 ^ 30.
Proof.
  destruct HP as [HL Hdate Hdepth Hsum Hwd _ _].
  destruct HL as [Hok _ _ Hdu _ _ _ _ _].
  unfold fields in Hok. apply Forall_cons in Hok as [_ Hok].
  apply Forall_cons in Hok as [(_ & Hw & _) _].
  unfold slot_prio, ones. rewrite Z.land_ones by exact Hdate.
  set (age := (now - slot_date s) mod 2 ^ ttDateBits).
  assert (Hage : 0 <= age < 2 ^ ttDateBits)
    by (apply Z.mod_pos_bound; apply Z.pow_pos_nonneg; lia).
  assert (Hd : 0 <= slot_depth s < 2 ^ bf_width f_depth)
    by (apply bf_wrap_unsigned_range; [exact Hdu | lia]).
  assert (Hpd : 2 ^ ttDateBits <= 2 ^ 30) by (apply Z.pow_le_mono_r; lia).
  assert (Hpw : 2 ^ bf_width f_depth <= 2 ^ 30) by (apply Z.pow_le_mono_r; lia).
  assert (Hprod : 0 <= age * 2 ^ ttDepthBits < 2 ^ 30).
  { assert (H0 : 0 < 2 ^ ttDepthBits) by (apply Z.pow_pos_nonneg; lia).
    split; [nia |].
    apply Z.lt_le_trans with (2 ^ ttDateBits * 2 ^ ttDepthBits); [nia |].
    rewrite <- Z.pow_add_r by lia. apply Z.pow_le_mono_r; lia. }
  change (2 ^ 30) with 1073741824 in *.
  rewrite (to_int_small age) by (change (2 ^ 31) with 2147483648; lia).
  rewrite (to_int_small (- age)) by (change (2 ^ 31) with 2147483648; lia).
  rewrite Z.shiftl_mul_pow2 by exact Hdepth.
  rewrite (to_int_small (- age * 2 ^ ttDepthBits))
    by (change (2 ^ 31) with 2147483648; lia).
  rewrite to_int_small by (change (2 ^ 31) with 2147483648; lia).
  lia.
Qed.

Lemma slot_prio_below_maxInt (now : Z) (s : ttSlot) : slot_prio now s < maxInt.
Proof.
  destruct (slot_prio_value now s) as [_ H].
  unfold maxInt. change (2 ^ 30) with 1073741824 in H.
  change (2 ^ 31) with 2147483648. lia.
Qed.

End Prio.

(** ** ttWrite: the choice of the slot *)

Section Write.

Context {P : Params}.
Hypothesis HP : params_ok P.

Lemma bucket_index (bucket j : Z) :
  0 <= bucket -> bucket + bucketLen <= 2 ^ 31 -> 0 <= j < bucketLen ->
  to_size_t (bucket + j) = bucket + j /\ to_int (bucket + j) = bucket + j.
Proof.
  unfold bucketLen. intros Hb Hhi Hj.
  change (2 ^ 31) with 2147483648 in Hhi. split.
  - apply to_size_t_small. change (2 ^ 64) with 18446744073709551616. lia.
  - apply to_int_small. change (2 ^ 31) with 2147483648. lia.
Qed.

Lemma bucket_slot_exists (t : ttable) (bucket j : Z) :
  bucket_ok t bucket -> 0 <= j < bucketLen ->
  exists s, bucket_slot t bucket j = Some s.
Proof.
  intros (Hb & Hlen & _) Hj. unfold bucket_slot.
  apply lookup_in_range. lia.
Qed.

(** The loop of lines 161-171 ends on the chosen place. *)
Lemma ttWrite_scan_chooses (self : Engine_t) (hash bucket : Z) :
  bucket_ok (tt self) bucket ->
  forall (n : nat) (j i iPrio : Z),
    0 <= j -> j + Z.of_nat n = bucketLen ->
    (forall j', 0 <= j' < j -> ~ matches (tt self) hash bucket j') ->
    (j = 0 /\ i = -1 /\ iPrio = maxInt) \/
      (0 <= i < j /\ best_below (tt self) bucket i iPrio j) ->
    exists r, ttWrite_scan self hash bucket n j i iPrio = Ok r /\
              chosen (tt self) hash bucket r.
Proof.
  intros Hbucket. pose proof Hbucket as (Hb & Hlen & Hint).
  induction n as [| n IH]; intros j i iPrio Hj Hn Hnone Hinv.
  - simpl. exists i. split; [reflexivity |].
    destruct Hinv as [(-> & _) | (Hi & si & Hsi & Hp & Hbest)].
    + unfold bucketLen in Hn. lia.
    + right. split.
      * intros j' Hj'. apply Hnone. lia.
      * split; [lia |]. exists si. split; [exact Hsi |].
        intros j' sj Hj' Hsj. rewrite Hp. apply (Hbest j' sj); [lia | exact Hsj].
  - assert (Hjr : 0 <= j < bucketLen) by lia.
    destruct (bucket_slot_exists (tt self) bucket j Hbucket Hjr) as [s Hs].
    destruct (bucket_index bucket j Hb Hint Hjr) as [Hsz Hin].
    simpl. rewrite Hsz, Hin.
    unfold bucket_slot in Hs.
    rewrite (slot_get_Some _ _ s) by (lia || exact Hs). simpl.
    destruct (Z.eqb_spec (Z.lxor (key s) (data s)) hash) as [Heq | Hne].
    + exists j. split; [reflexivity |]. left.
      split; [exact Hjr |]. split; [| exact Hnone].
      exists s. split; [exact Hs | exact Heq].
    + unfold prio. rewrite (slot_get_Some _ _ s) by (lia || exact Hs). simpl.
      assert (Hnone' : forall j', 0 <= j' < j + 1 -> ~ matches (tt self) hash bucket j').
      { intros j' Hj' (s' & Hs' & Hm).
        destruct (Z.eq_dec j' j) as [-> | Hjj].
        - unfold bucket_slot in Hs'. rewrite Hs in Hs'.
          injection Hs' as <-. apply Hne. exact Hm.
        - apply (Hnone j'); [lia |]. exists s'. split; assumption. }
      pose proof (slot_prio_below_maxInt HP (tt_now (tt self)) s) as Hmax.
      destruct (Z.ltb_spec (slot_prio (tt_now (tt self)) s) iPrio) as [Hlt | Hge].
      * apply IH; [lia | lia | exact Hnone' |]. right. split; [lia |].
        exists s. split; [exact Hs |]. split; [reflexivity |].
        intros j' sj Hj' Hsj.
        destruct (Z.eq_dec j' j) as [-> | Hjj].
        -- unfold bucket_slot in Hsj. rewrite Hs in Hsj. injection Hsj as <-. lia.
        -- destruct Hinv as [(-> & _) | (Hi & si & Hsi & Hp & Hbest)]; [lia |].
           destruct (Hbest j' sj) as [Hle _]; [lia | exact Hsj |]. lia.
      * apply IH; [lia | lia | exact Hnone' |]. right.
        destruct Hinv as [(_ & _ & ->) | (Hi & si & Hsi & Hp & Hbest)]; [lia |].
        split; [lia |]. exists si. split; [exact Hsi |]. split; [exact Hp |].
        intros j' sj Hj' Hsj.
        destruct (Z.eq_dec j' j) as [-> | Hjj].
        -- unfold bucket_slot in Hsj. rewrite Hs in Hsj. injection Hsj as <-. lia.
        -- apply Hbest; [lia | exact Hsj].
Qed.

(** The place chosen in a bucket is unique. *)
Lemma chosen_unique (t : ttable) (hash bucket i i' : Z) :
  chosen t hash bucket i -> chosen t hash bucket i' -> i = i'.
Proof.
  intros [(Hi & Hm & Hfirst) | (Hnone & Hi & si & Hsi & Hmin)]
         [(Hi' & Hm' & Hfirst') | (Hnone' & Hi' & si' & Hsi' & Hmin')].
  - destruct (Z.lt_trichotomy i i') as [Hlt | [Heq | Hgt]]; [| exact Heq |].
    + exfalso. apply (Hfirst' i); [lia | exact Hm].
    + exfalso. apply (Hfirst i'); [lia | exact Hm'].
  - exfalso. apply (Hnone' i); [exact Hi | exact Hm].
  - exfalso. apply (Hnone i'); [exact Hi' | exact Hm'].
  - destruct (Z.lt_trichotomy i i') as [Hlt | [Heq | Hgt]]; [| exact Heq |].
    + destruct (Hmin' i si Hi Hsi) as [_ Hs]. destruct (Hmin i' si' Hi' Hsi') as [Hl _].
      specialize (Hs Hlt). lia.
    + destruct (Hmin i' si' Hi' Hsi') as [_ Hs]. destruct (Hmin' i si Hi Hsi) as [Hl _].
      specialize (Hs Hgt). lia.
Qed.

(** Once the fields are prepared, ttWrite stores the sealed slot at the
    chosen place of the bucket of its key and returns [score]. *)
Lemma ttWrite_stores (self : Engine_t) (slot s : ttSlot) (depth score alpha beta : Z) :
  tt_buckets_ok (tt self) -> tt_int_indexed (tt self) ->
  ttWrite_slot self slot depth score alpha beta = Next s ->
  let bucket := Z.land (key s) (tt_mask (tt self)) in
  exists i,
    chosen (tt self) (key s) bucket i /\
    ttWrite self slot depth score alpha beta =
      Ok (score, with_slots self (<[Z.to_nat (bucket + i) := sealed s]> (tt_slots (tt self)))).
Proof.
  intros (Hmask & Hlen & _) Hint Hslot bucket.
  pose proof (land_mask_range (key s) (tt_mask (tt self)) Hmask) as Hb.
  fold bucket in Hb. unfold tt_int_indexed in Hint.
  assert (Hbucket : bucket_ok (tt self) bucket) by (unfold bucket_ok; lia).
  destruct (ttWrite_scan_chooses self (key s) bucket Hbucket
              (Z.to_nat bucketLen) 0 (-1) maxInt) as (i & Hscan & Hchosen).
  - lia.
  - reflexivity.
  - intros j' Hj'. lia.
  - left. auto.
  - exists i. split; [exact Hchosen |].
    assert (Hi : 0 <= i < bucketLen)
      by (destruct Hchosen as [(H & _) | (_ & H & _)]; exact H).
    unfold ttWrite. rewrite Hslot. fold bucket. rewrite Hscan. simpl.
    destruct (Z.geb_spec i 0); [| lia]. simpl.
    destruct (bucket_index bucket i) as [-> _]; [lia | lia | exact Hi |].
    rewrite slot_put_ok by lia. reflexivity.
Qed.

End Write.

(** ** ttRead: hit and miss *)

Section Read.

Context {P : Params}.

(** The loop of lines 193-203, entered at place [j]: it returns the first
    slot from [j] on that verifies to [hash], or the empty slot. *)
Lemma ttRead_scan_spec (self : Engine_t) (hash bucket : Z) :
  0 <= bucket ->
  bucket + bucketLen <= Z.of_nat (length (tt_slots (tt self))) ->
  bucket + bucketLen <= 2 ^ 64 ->
  forall (n : nat) (j : Z),
    0 <= j -> j + Z.of_nat n = bucketLen ->
    (forall i s, j <= i < bucketLen ->
       bucket_slot (tt self) bucket i = Some s -> verified_key s = hash ->
       (forall j', j <= j' < i -> ~ matches (tt self) hash bucket j') ->
       ttRead_scan self hash bucket n j = Ok (ttRead_found self (TtSlot hash (data s)))) /\
    ((forall j', j <= j' < bucketLen -> ~ matches (tt self) hash bucket j') ->
     ttRead_scan self hash bucket n j = Ok (TtSlot hash 0)).
Proof.
  intros Hb Hlen Hhi.
  induction n as [| n IH]; intros j Hj Hn.
  - split.
    + intros i s Hi. lia.
    + intros _. reflexivity.
  - assert (Hjr : 0 <= j < bucketLen) by lia.
    destruct (lookup_in_range (tt_slots (tt self)) (bucket + j)) as [sj Hsj]; [lia |].
    assert (Hsz : to_size_t (bucket + j) = bucket + j).
    { apply to_size_t_small. unfold bucketLen in *. lia. }
    destruct (IH (j + 1)) as [IHhit IHmiss]; [lia | lia |].
    simpl. rewrite Hsz. rewrite (slot_get_Some _ _ sj) by (lia || exact Hsj). simpl.
    split.
    + intros i s Hi Hs Hv Hfirst.
      destruct (Z.eqb_spec (Z.lxor (key sj) (data sj)) hash) as [Heq | Hne].
      * destruct (Z.eq_dec i j) as [-> | Hij].
        -- unfold bucket_slot in Hs. rewrite Hsj in Hs. injection Hs as <-.
           unfold set_key. simpl. rewrite Heq. reflexivity.
        -- exfalso. apply (Hfirst j); [lia |]. exists sj. split; assumption.
      * destruct (Z.eq_dec i j) as [-> | Hij].
        -- unfold bucket_slot in Hs. rewrite Hsj in Hs. injection Hs as <-.
           exfalso. apply Hne. exact Hv.
        -- apply (IHhit i s); [lia | exact Hs | exact Hv |].
           intros j' Hj'. apply Hfirst. lia.
    + intros Hnone.
      destruct (Z.eqb_spec (Z.lxor (key sj) (data sj)) hash) as [Heq | Hne].
      * exfalso. apply (Hnone j); [lia |]. exists sj. split; assumption.
      * apply IHmiss. intros j' Hj'. apply Hnone. lia.
Qed.

Lemma ttRead_hit (self : Engine_t) (i : Z) (s : ttSlot) :
  tt_buckets_ok (tt self) ->
  first_match (tt self) (probe self) (probe_bucket self) i ->
  bucket_slot (tt self) (probe_bucket self) i = Some s ->
  ttRead self = Ok (ttRead_found self (TtSlot (probe self) (data s))).
Proof.
  intros (Hmask & Hlen & Hhi) (Hi & (s' & Hs' & Hv) & Hfirst) Hs.
  rewrite Hs in Hs'. injection Hs' as <-.
  pose proof (land_mask_range (probe self) (tt_mask (tt self)) Hmask) as Hb.
  fold (probe_bucket self) in Hb.
  destruct (ttRead_scan_spec self (probe self) (probe_bucket self)
              ltac:(lia) ltac:(lia) ltac:(lia) (Z.to_nat bucketLen) 0
              ltac:(lia) eq_refl) as [Hhit _].
  unfold ttRead. apply (Hhit i s); [lia | exact Hs | exact Hv |].
  intros j' Hj'. apply Hfirst. lia.
Qed.

Lemma ttRead_miss (self : Engine_t) :
  tt_buckets_ok (tt self) ->
  no_match (tt self) (probe self) (probe_bucket self) ->
  ttRead self = Ok (TtSlot (probe self) 0).
Proof.
  intros (Hmask & Hlen & Hhi) Hnone.
  pose proof (land_mask_range (probe self) (tt_mask (tt self)) Hmask) as Hb.
  fold (probe_bucket self) in Hb.
  destruct (ttRead_scan_spec self (probe self) (probe_bucket self)
              ltac:(lia) ltac:(lia) ltac:(lia) (Z.to_nat bucketLen) 0
              ltac:(lia) eq_refl) as [_ Hmiss].
  unfold ttRead. apply Hmiss. intros j' Hj'. apply Hnone. lia.
Qed.

End Read.

(** A signed field holds the values of the two's complement range. *)
Lemma bf_wrap_signed_range (f : bitfield) (v : Z) :
  bf_signed f = true -> 0 < bf_width f ->
  - 2 ^ (bf_width f - 1) <= bf_wrap f v < 2 ^ (bf_width f - 1).
Proof.
  intros Hs Hw. unfold bf_wrap. rewrite Hs. simpl.
  rewrite Z.land_ones by lia.
  set (w := bf_width f) in *. set (u := v mod 2 ^ w).
  assert (Hpow : 2 ^ w = 2 * 2 ^ (w - 1)).
  { replace w with (Z.succ (w - 1)) at 1 by lia. apply Z.pow_succ_r. lia. }
  assert (Hhalf : 0 < 2 ^ (w - 1)) by (apply Z.pow_pos_nonneg; lia).
  assert (Hu : 0 <= u < 2 ^ w) by (apply Z.mod_pos_bound; lia).
  pose proof (Z.testbit_spec' u (w - 1) ltac:(lia)) as Hbit.
  assert (Hq : 0 <= u / 2 ^ (w - 1) < 2).
  { split; [apply Z.div_pos; lia | apply Z.div_lt_upper_bound; lia]. }
  pose proof (Z.div_mod u (2 ^ (w - 1)) ltac:(lia)) as Hdm.
  pose proof (Z.mod_pos_bound u (2 ^ (w - 1)) Hhalf) as Hr.
  destruct (Z.testbit u (w - 1)); simpl in Hbit.
  - assert (u / 2 ^ (w - 1) = 1).
    { destruct (Z.eq_dec (u / 2 ^ (w - 1)) 0) as [H0 | H0].
      - rewrite H0 in Hbit. discriminate.
      - lia. }
    nia.
  - assert (u / 2 ^ (w - 1) = 0).
    { destruct (Z.eq_dec (u / 2 ^ (w - 1)) 1) as [H1 | H1].
      - rewrite H1 in Hbit. discriminate.
      - lia. }
    nia.
Qed.

(** ** ttWrite: the fields of the stored slot *)

Section WriteFields.

Context {P : Params}.
Hypothesis HP : params_ok P.

(** A value that fits the score field is an [int]. *)
Lemma fits_score_int (v : Z) : fits f_score v -> - 2 ^ 31 <= v < 2 ^ 31.
Proof.
  intros Hv. destruct HP as [HL _ _ _ _ Hw _].
  destruct HL as [Hok _ Hs _ _ _ _ _ _].
  unfold fields in Hok. apply Forall_cons in Hok as [(_ & Hpos & _) _].
  pose proof (bf_wrap_signed_range f_score v Hs Hpos) as Hr.
  rewrite Hv in Hr.
  assert (2 ^ (bf_width f_score - 1) <= 2 ^ 31) by (apply Z.pow_le_mono_r; lia).
  lia.
Qed.

(** Lines 128-141 keep the key, the bounds, the depth and the date. *)
Lemma correct_high_keeps (self : Engine_t) (score : Z) (s0 s1 : ttSlot) :
  correct_high self score s0 = Next s1 ->
  key s1 = key s0 /\
  slot_isUpperBound s1 = slot_isUpperBound s0 /\
  slot_isLowerBound s1 = slot_isLowerBound s0 /\
  slot_depth s1 = slot_depth s0 /\
  slot_date s1 = slot_date s0.
Proof.
  destruct HP as [HL _ _ _ _ _ _]. layout_facts HL.
  unfold correct_high, and_then.
  destruct (maxEval <? score); [| intros [= <-]; tauto].
  destruct (maxEval + 1 <? score).
  - destruct (_ && _); [discriminate |].
    destruct (_ <? maxMate); [| discriminate].
    intros [= <-].
    unfold slot_isUpperBound, slot_isLowerBound, slot_depth, slot_date, flag.
    read_fields. tauto.
  - intros [= <-].
    unfold slot_isUpperBound, slot_isLowerBound, slot_depth, slot_date, flag.
    read_fields. tauto.
Qed.

(** Lines 143-152 keep them too. *)
Lemma correct_low_keeps (self : Engine_t) (score : Z) (s0 s1 : ttSlot) :
  correct_low self score s0 = Next s1 ->
  key s1 = key s0 /\
  slot_isUpperBound s1 = slot_isUpperBound s0 /\
  slot_isLowerBound s1 = slot_isLowerBound s0 /\
  slot_depth s1 = slot_depth s0 /\
  slot_date s1 = slot_date s0.
Proof.
  destruct HP as [HL _ _ _ _ _ _]. layout_facts HL.
  unfold correct_low, and_then.
  destruct (score <? minEval); [| intros [= <-]; tauto].
  destruct (score <? minEval - 1).
  - destruct (_ && _); [discriminate |].
    destruct (_ >=? minMate); [| discriminate].
    intros [= <-].
    unfold slot_isUpperBound, slot_isLowerBound, slot_depth, slot_date, flag.
    read_fields. tauto.
  - intros [= <-].
    unfold slot_isUpperBound, slot_isLowerBound, slot_depth, slot_date, flag.
    read_fields. tauto.
Qed.

(** The slot prepared by lines 107-152 carries the key it came with, the
    bounds of the search window, the depth and the date. *)
Lemma ttWrite_slot_fields (self : Engine_t) (slot s : ttSlot)
    (depth score alpha beta : Z) :
  ttWrite_slot self slot depth score alpha beta = Next s ->
  key s = key slot /\
  slot_isUpperBound s = (score <=? alpha) /\
  slot_isLowerBound s = (score >=? beta) /\
  slot_depth s = bf_wrap f_depth depth /\
  slot_date s = bf_wrap f_date (tt_now (tt self)).
Proof.
  unfold ttWrite_slot.
  destruct (older_prevails slot score); [discriminate |].
  destruct (correct_high self score (set_fields self slot depth score alpha beta))
    as [s1 | v | e] eqn:Hhigh; simpl; try discriminate.
  intros Hlow.
  destruct (correct_high_keeps _ _ _ _ Hhigh) as (Hk1 & Hu1 & Hl1 & Hd1 & Ht1).
  destruct (correct_low_keeps _ _ _ _ Hlow) as (Hk2 & Hu2 & Hl2 & Hd2 & Ht2).
  destruct (set_fields_spec HP self slot depth score alpha beta)
    as (Hk & _ & Hd & Ht & Hu & Hl & _ & _).
  rewrite Hk2, Hu2, Hl2, Hd2, Ht2, Hk1, Hu1, Hl1, Hd1, Ht1.
  tauto.
Qed.

End WriteFields.

Section WriteScores.

Context {P : Params}.
Hypothesis HP : params_ok P.

Lemma sealed_data (s : ttSlot) : data (sealed s) = data s.
Proof. reflexivity. Qed.

Lemma sealed_verified (s : ttSlot) :
  verified_key (sealed s) = key s.
Proof.
  unfold verified_key, sealed. simpl.
  rewrite Z.lxor_assoc, Z.lxor_nilpotent, Z.lxor_0_r. reflexivity.
Qed.

(** Between [minEval] and [maxEval] no correction applies. *)
Lemma ttWrite_slot_plain (self : Engine_t) (slot : ttSlot) (depth score alpha beta : Z) :
  older_prevails slot score = false -> minEval <= score <= maxEval ->
  ttWrite_slot self slot depth score alpha beta =
    Next (set_fields self slot depth score alpha beta).
Proof.
  intros Hold Hrange. unfold ttWrite_slot, correct_high, correct_low.
  rewrite Hold.
  destruct (Z.ltb_spec maxEval score); [lia |]. simpl.
  destruct (Z.ltb_spec score minEval); [lia | reflexivity].
Qed.



End WriteScores.

Section ReadFields.

Context {P : Params}.
Hypothesis HP : params_ok P.

(** Lines 197-201 change the score of a win/loss slot and nothing else. *)
Lemma ttRead_found_spec (self : Engine_t) (local : ttSlot) :
  let r := ttRead_found self local in
  let rootDistance := to_int (plyNumber (board self) - rootPlyNumber self) in
  key r = key local /\
  slot_isUpperBound r = slot_isUpperBound local /\
  slot_isLowerBound r = slot_isLowerBound local /\
  slot_depth r = slot_depth local /\
  slot_isWinLossScore r = slot_isWinLossScore local /\
  (slot_isWinLossScore local = true ->
   slot_score r =
     bf_wrap f_score
       (to_int (slot_score local +
                (if slot_score local >=? 0 then to_int (- rootDistance)
                 else rootDistance)))) /\
  (slot_isWinLossScore local = false -> r = local).
Proof.
  pose proof (layout P HP) as HL. layout_facts HL.
  unfold ttRead_found.
  destruct (slot_isWinLossScore local) eqn:Hwl.
  - unfold slot_isUpperBound, slot_isLowerBound, slot_depth, slot_isWinLossScore,
      slot_score, flag.
    read_fields.
    repeat split; try reflexivity; try exact Hwl; try discriminate.
  - simpl.
    repeat split; try reflexivity; try discriminate; try exact Hwl.
Qed.

End ReadFields.

(** * The claims *)

(** C2. When the slot handed to ttWrite is a hard bound and the new score
    is a weaker bound in the same direction (a lower bound and
    [score <= slot.score], or an upper bound and [score >= slot.score]),
    ttWrite returns [slot.score] and leaves the engine, hence every slot
    of the table, as it was. *)
Theorem ttWrite_older_prevails {P : Params} (self : Engine_t) (slot : ttSlot)
    (depth score alpha beta : Z) :
  slot_isHardBound slot = true ->
  (slot_isLowerBound slot = true /\ score <= slot_score slot) \/
  (slot_isUpperBound slot = true /\ score >= slot_score slot) ->
  ttWrite self slot depth score alpha beta = Ok (slot_score slot, self).
Proof.
  intros Hhard Hweak.
  assert (Hold : older_prevails slot score = true).
  { unfold older_prevails. rewrite Hhard. simpl.
    destruct Hweak as [[-> Hle] | [-> Hge]].
    - simpl. destruct (Z.leb_spec score (slot_score slot)); [reflexivity | lia].
    - destruct (Z.geb_spec score (slot_score slot)); [| lia].
      simpl. apply orb_true_r. }
  unfold ttWrite, ttWrite_slot. rewrite Hold. reflexivity.
Qed.

Lemma ttWrite_older_prevails_witness :
  let slot := TtSlot 77 (2 ^ 54 + 2 ^ 53 + 100) in
  let self := blank_engine 4 0 3 0 (Board 77 0 12) 10 in
  slot_isHardBound slot = true /\
  ttWrite self slot 5 90 (-50) 50 = Ok (100, self).
Proof.
  intros slot self. split; [reflexivity |].
  change 100 with (slot_score slot).
  apply (ttWrite_older_prevails self slot 5 90 (-50) 50).
  - reflexivity.
  - left. split; [reflexivity | vm_compute; discriminate].
Defined.

(** The example parameters satisfy what the properties ask of them. *)
Lemma example_params_ok : params_ok example_params.
Proof.
  split; try (simpl; lia).
  split; try reflexivity; try (split; reflexivity).
  - unfold fields, bf_ok. simpl. repeat constructor; simpl; lia.
  - unfold fields, bf_disjoint. simpl.
    repeat split; repeat constructor; simpl; lia.
Qed.


(** Decide a closed statement on the example parameters by evaluation. *)
Ltac by_eval :=
  vm_compute;
  first [ reflexivity | discriminate
        | repeat split; first [ reflexivity | discriminate ] ].


(** The choice of the slot, in a table whose indices are [int]s, those
    that [prio] can take: a ttWrite that reaches the table
    stores into the first place of the bucket (scanning 0..bucketLen-1)
    whose [key ^ data] equals the probe hash if there is one, and
    otherwise into the place of minimum [prio], the lowest index among
    equals, where [prio = (-age << ttDepthBits) + depth] and
    [age = (now - date) mod 2^ttDateBits]; the slot written has
    [key = hash ^ data]. *)
Theorem ttWrite_chooses_slot {P : Params} (self : Engine_t) (slot s : ttSlot)
    (depth score alpha beta : Z) :
  params_ok P -> tt_buckets_ok (tt self) -> tt_int_indexed (tt self) ->
  ttWrite_slot self slot depth score alpha beta = Next s ->
  let hash := key slot in
  let bucket := Z.land hash (tt_mask (tt self)) in
  exists (i : Z) (written : ttSlot),
    ttWrite self slot depth score alpha beta =
      Ok (score, with_slots self
                   (<[Z.to_nat (bucket + i) := written]> (tt_slots (tt self)))) /\
    0 <= i < bucketLen /\
    (forall j, first_match (tt self) hash bucket j -> i = j) /\
    (no_match (tt self) hash bucket -> lowest_prio (tt self) bucket i) /\
    (first_match (tt self) hash bucket i \/ no_match (tt self) hash bucket) /\
    key written = Z.lxor hash (data written) /\
    data written = data s /\
    (forall now sl,
       let age := (now - slot_date sl) mod 2 ^ ttDateBits in
       slot_prio now sl = Z.shiftl (- age) ttDepthBits + slot_depth sl).
Proof.
  intros HP Hbuckets Hint Hs hash bucket.
  destruct (ttWrite_slot_fields HP self slot s depth score alpha beta Hs)
    as (Hkey & _).
  destruct (ttWrite_stores HP self slot s depth score alpha beta Hbuckets Hint Hs)
    as (i & Hchosen & Hw).
  rewrite Hkey in Hchosen, Hw. fold hash in Hchosen, Hw. fold bucket in Hchosen, Hw.
  exists i, (sealed s). split; [exact Hw |].
  split; [destruct Hchosen as [(H & _) | (_ & H & _)]; exact H |].
  split; [| split; [| split; [| split; [| split]]]].
  - intros j Hj. apply (chosen_unique (tt self) hash bucket); [exact Hchosen |].
    left. exact Hj.
  - intros Hnone. destruct Hchosen as [(Hi & Hm & _) | (_ & Hlow)]; [| exact Hlow].
    exfalso. apply (Hnone i Hi Hm).
  - destruct Hchosen as [Hfirst | (Hnone & _)]; [left | right]; assumption.
  - unfold sealed. simpl. rewrite Hkey. reflexivity.
  - reflexivity.
  - intros now sl age.
    destruct (slot_prio_value HP now sl) as [-> _].
    rewrite Z.shiftl_mul_pow2 by (apply (depthBits_nonneg P HP)).
    fold age. lia.
Qed.

Lemma ttWrite_chooses_slot_witness :
  let self := blank_engine 4 0 3 0 (Board 77 5 13) 10 in
  let slot := TtSlot 77 0 in
  exists (i : Z) (written : ttSlot),
    ttWrite self slot 9 120 0 100 =
      Ok (120, with_slots self (<[Z.to_nat (0 + i) := written]> (tt_slots (tt self)))) /\
    lowest_prio (tt self) 0 i /\
    key written = Z.lxor 77 (data written).
Proof.
  intros self slot.
  destruct (ttWrite_chooses_slot self slot
              (set_flag f_isWinLossScore
                 (set_flag f_isHardBound
                    (set_flag f_isLowerBound
                       (set_flag f_isUpperBound
                          (set_field f_date
                             (set_field f_depth (set_field f_score slot 120) 9) 3)
                          false) true) false) false)
              9 120 0 100
              example_params_ok ltac:(by_eval) ltac:(by_eval) eq_refl)
    as (i & written & Hw & Hi & _ & Hlow & _ & Hkey & _).
  exists i, written. split; [exact Hw |]. split; [| exact Hkey].
  apply Hlow. intros j Hj (sj & Hsj & Hv).
  unfold bucket_slot in Hsj. simpl in Hsj.
  assert (Hzero : sj = TtSlot 0 0).
  { unfold bucketLen in Hj.
    assert (Hcases : j = 0 \/ j = 1 \/ j = 2 \/ j = 3) by lia.
    destruct Hcases as [-> | [-> | [-> | ->]]]; simpl in Hsj; congruence. }
  subst sj. vm_compute in Hv. discriminate.
Defined.

(** After the store, the place written is the first of its bucket that
    verifies to the key. *)
Lemma written_is_first_match {P : Params} (t : ttable) (hash bucket i : Z) (w : ttSlot)
    (slots' : list ttSlot) :
  0 <= bucket -> bucket + bucketLen <= Z.of_nat (length (tt_slots t)) ->
  chosen t hash bucket i ->
  verified_key w = hash ->
  slots' = <[Z.to_nat (bucket + i) := w]> (tt_slots t) ->
  forall t', tt_slots t' = slots' ->
    first_match t' hash bucket i /\ bucket_slot t' bucket i = Some w.
Proof.
  intros Hb Hlen Hchosen Hv -> t' Hslots.
  assert (Hi : 0 <= i < bucketLen)
    by (destruct Hchosen as [(H & _) | (_ & H & _)]; exact H).
  assert (Hw : bucket_slot t' bucket i = Some w).
  { unfold bucket_slot. rewrite Hslots. apply list_lookup_insert_eq. lia. }
  split; [| exact Hw]. split; [exact Hi |]. split.
  - exists w. split; [exact Hw | exact Hv].
  - intros j Hj (sj & Hsj & Hm).
    unfold bucket_slot in Hsj. rewrite Hslots in Hsj.
    rewrite list_lookup_insert_ne in Hsj by lia.
    assert (Hold : matches t hash bucket j) by (exists sj; split; assumption).
    destruct Hchosen as [(_ & _ & Hfirst) | (Hnone & _)].
    + apply (Hfirst j Hj Hold).
    + apply (Hnone j); [lia | exact Hold].
Qed.

(** ttRead after ttWrite, in a table whose indices are [int]s, those
    that [prio] can take, and for every board hash: a ttWrite of a slot
    whose key is
    the probe hash, which reaches the table (the older result does not
    prevail, no DTZ store is refused), returns [score], and a later ttRead
    with the same board hash and baseHash on the table it leaves returns a
    slot whose key, after the XOR with [data], is the probe hash, whose
    [isUpperBound] is [score <= alpha] and [isLowerBound] is
    [score >= beta], whose depth is the depth written, and whose score,
    when [isWinLossScore] is set, is the stored score moved by
    [-rootDistance] when it is non-negative and [+rootDistance] when it is
    negative, with [rootDistance = plyNumber - rootPlyNumber]. *)
Theorem ttRead_after_ttWrite {P : Params} (self : Engine_t) (slot s : ttSlot)
    (depth score alpha beta : Z) :
  params_ok P -> tt_buckets_ok (tt self) -> tt_int_indexed (tt self) ->
  key slot = probe self ->
  ttWrite_slot self slot depth score alpha beta = Next s ->
  exists self',
    ttWrite self slot depth score alpha beta = Ok (score, self') /\
    forall later : Engine_t,
      tt_slots (tt later) = tt_slots (tt self') ->
      tt_mask (tt later) = tt_mask (tt self) ->
      tt_baseHash (tt later) = tt_baseHash (tt self) ->
      hash (board later) = hash (board self) ->
      exists (r stored : ttSlot),
        ttRead later = Ok r /\
        In stored (tt_slots (tt later)) /\
        Z.lxor (key stored) (data stored) = probe later /\
        key r = probe later /\
        slot_isUpperBound r = (score <=? alpha) /\
        slot_isLowerBound r = (score >=? beta) /\
        slot_depth r = bf_wrap f_depth depth /\
        (fits f_depth depth -> slot_depth r = depth) /\
        slot_isWinLossScore r = slot_isWinLossScore stored /\
        (slot_isWinLossScore r = true ->
         let rootDistance := to_int (plyNumber (board later) - rootPlyNumber later) in
         slot_score r =
           bf_wrap f_score
             (to_int (slot_score stored +
                      (if slot_score stored >=? 0 then to_int (- rootDistance)
                       else rootDistance)))) /\
        (slot_isWinLossScore r = true ->
         let rootDistance := plyNumber (board later) - rootPlyNumber later in
         let rebased := slot_score stored +
                        (if slot_score stored >=? 0 then - rootDistance
                         else rootDistance) in
         - 2 ^ 31 < rootDistance < 2 ^ 31 -> fits f_score rebased ->
         slot_score r = rebased).
Proof.
  intros HP Hbuckets Hint Hkey Hs.
  destruct (ttWrite_slot_fields HP self slot s depth score alpha beta Hs)
    as (Hks & Hu & Hl & Hd & _).
  destruct (ttWrite_stores HP self slot s depth score alpha beta Hbuckets Hint Hs)
    as (i & Hchosen & Hw).
  eexists. split; [exact Hw |].
  intros later Hslots Hmask Hbase Hhash.
  assert (Hprobe : probe later = probe self)
    by (unfold probe; rewrite Hbase, Hhash; reflexivity).
  assert (Hpb : probe_bucket later = Z.land (key s) (tt_mask (tt self)))
    by (unfold probe_bucket; rewrite Hprobe, Hmask, Hks, Hkey; reflexivity).
  pose proof Hbuckets as (Hm & Hlen & Hhi).
  pose proof (land_mask_range (key s) (tt_mask (tt self)) Hm) as Hb.
  simpl in Hslots.
  destruct (written_is_first_match (tt self) (key s)
              (Z.land (key s) (tt_mask (tt self))) i (sealed s) _
              ltac:(lia) ltac:(lia) Hchosen (sealed_verified s) eq_refl
              (tt later) Hslots) as [Hfirst Hat].
  assert (Hlater : tt_buckets_ok (tt later)).
  { unfold tt_buckets_ok. rewrite Hmask, Hslots, length_insert. auto. }
  rewrite <- Hpb in Hfirst, Hat.
  assert (Hk : key s = probe later) by (rewrite Hprobe, Hks; exact Hkey).
  rewrite Hk in Hfirst.
  rewrite (ttRead_hit later i (sealed s) Hlater Hfirst Hat).
  rewrite sealed_data.
  set (local := TtSlot (probe later) (data s)).
  destruct (ttRead_found_spec HP later local)
    as (Hrk & Hru & Hrl & Hrd & Hrw & Hrs & _).
  exists (ttRead_found later local), (sealed s).
  split; [reflexivity |].
  split; [apply (list_elem_of_In (tt_slots (tt later))), list_elem_of_lookup;
          eexists; exact Hat |].
  split; [rewrite <- Hk; apply (sealed_verified s) |].
  split; [exact Hrk |].
  split; [rewrite Hru; exact Hu |].
  split; [rewrite Hrl; exact Hl |].
  split; [rewrite Hrd; exact Hd |].
  split; [intros Hfit; rewrite Hrd; change (slot_depth local) with (slot_depth s);
          rewrite Hd; exact Hfit |].
  split; [exact Hrw |].
  change (slot_score (sealed s)) with (slot_score local).
  split.
  - intros Hwl. rewrite Hrw in Hwl. exact (Hrs Hwl).
  - intros Hwl rootDistance rebased Hrd' Hfit.
    rewrite Hrw in Hwl. rewrite (Hrs Hwl).
    fold rootDistance.
    rewrite (to_int_small rootDistance) by lia.
    rewrite (to_int_small (- rootDistance)) by lia.
    fold rebased.
    rewrite (to_int_small rebased) by (apply (fits_score_int HP); exact Hfit).
    exact Hfit.
Qed.

Lemma ttRead_after_ttWrite_witness :
  let self := blank_engine 4 0 3 0 (Board 77 5 13) 10 in
  let slot := TtSlot 77 0 in
  exists self',
    ttWrite self slot 9 31500 0 100 = Ok (31500, self') /\
    let later := Engine (Board 77 6 15)
                        (Ttable (tt_slots (tt self')) 64 0 3 0) 10 in
    exists (r stored : ttSlot),
      ttRead later = Ok r /\
      In stored (tt_slots (tt later)) /\
      key r = 77 /\
      slot_isUpperBound r = false /\
      slot_isLowerBound r = true /\
      slot_depth r = 9 /\
      (slot_isWinLossScore r = true ->
       let rebased := slot_score stored +
                      (if slot_score stored >=? 0 then - (15 - 10) else 15 - 10) in
       fits f_score rebased -> slot_score r = rebased).
Proof.
  intros self slot.
  pose (s := match ttWrite_slot self slot 9 31500 0 100 with
             | Next s => s
             | _ => slot
             end).
  destruct (ttRead_after_ttWrite self slot s 9 31500 0 100
              example_params_ok ltac:(by_eval) ltac:(by_eval) eq_refl ltac:(by_eval))
    as (self' & Hw & Hread).
  exists self'. split; [exact Hw |].
  intros later.
  destruct (Hread later eq_refl eq_refl eq_refl eq_refl)
    as (r & stored & Hr & Hin & Hv & Hk & Hu & Hl & _ & Hd & Hwl & _ & Hs).
  exists r, stored.
  split; [exact Hr |]. split; [exact Hin |].
  split; [exact Hk |]. split; [exact Hu |]. split; [exact Hl |].
  split; [apply Hd; reflexivity |].
  intros Hwin. exact (Hs Hwin ltac:(simpl; lia)).
Defined.

(** ** ttClearFast *)

(** Two keys that differ by their base hash are different probes. *)
Lemma lxor_cancel_l (h b b' : Z) : Z.lxor h b = Z.lxor h b' -> b = b'.
Proof.
  intros H. apply Z.lxor_eq.
  assert (Hx : Z.lxor (Z.lxor h b) (Z.lxor h b') = 0)
    by (rewrite H; apply Z.lxor_nilpotent).
  rewrite <- Hx.
  rewrite (Z.lxor_comm h b), Z.lxor_assoc, <- (Z.lxor_assoc h h b').
  rewrite Z.lxor_nilpotent, Z.lxor_0_l. reflexivity.
Qed.

(** C5, as it fails.  On the example parameters: a slot is written for
    board hash 77, another for the board hash that differs from 77 by the
    change of baseHash; after ttClearFast a ttRead for board hash 77 finds
    the second slot instead of returning the empty slot. *)
Lemma ttClearFast_read_counterexample :
  let e0 := blank_engine 4 0 3 0 (Board 77 5 13) 10 in
  let h2 := Z.lxor 77 (tt_baseHash (tt (ttClearFast e0))) in
  exists (e1 e2 : Engine_t) (r : ttSlot),
    ttWrite e0 (TtSlot (probe e0) 0) 9 120 0 100 = Ok (120, e1) /\
    ttWrite (Engine (Board h2 5 13) (tt e1) 10)
            (TtSlot (probe (Engine (Board h2 5 13) (tt e1) 10)) 0) 7 55 0 100
      = Ok (55, e2) /\
    let cleared := ttClearFast (Engine (Board 77 5 13) (tt e2) 10) in
    ttRead cleared = Ok r /\
    slot_depth r = 7 /\ data r <> 0 /\
    ttRead cleared <> Ok (TtSlot (probe cleared) 0).
Proof.
  intros e0 h2.
  destruct (ttWrite e0 (TtSlot (probe e0) 0) 9 120 0 100)
    as [[v1 e1] | err] eqn:H1; [| vm_compute in H1; discriminate].
  assert (Hv1 : v1 = 120) by (vm_compute in H1; congruence).
  subst v1. exists e1.
  assert (He1 : e1 = snd (match ttWrite e0 (TtSlot (probe e0) 0) 9 120 0 100 with
                          | Ok p => p
                          | Err _ => (0, e0)
                          end)) by (rewrite H1; reflexivity).
  vm_compute in He1. subst e1.
  eexists. eexists.
  split; [reflexivity |].
  split; [vm_compute; reflexivity |].
  split; [vm_compute; reflexivity |].
  split; [vm_compute; reflexivity |].
  split; vm_compute; discriminate.
Qed.

(** ** ttSetSize: the size and the mask *)

Lemma mask_of_value (k : Z) : 0 <= k -> mask_of k = 4 * 2 ^ k - 4.
Proof.
  intros Hk. unfold mask_of.
  rewrite Z.shiftl_mul_pow2 by lia. rewrite Z.ones_equiv.
  change (2 ^ 2) with 4. lia.
Qed.

Lemma size_of_value (k : Z) : size_of k = 64 * 2 ^ k.
Proof. reflexivity. Qed.

Lemma pow2_pos (k : Z) : 0 <= k -> 0 < 2 ^ k.
Proof. intros Hk. apply Z.pow_pos_nonneg; lia. Qed.

Lemma pow2_succ (k : Z) : 0 <= k -> 2 ^ (k + 1) = 2 * 2 ^ k.
Proof. intros Hk. rewrite Z.pow_add_r by lia. change (2 ^ 1) with 2. lia. Qed.

(** A size below [2^64] has fewer than [2^58] buckets. *)
Lemma size_of_bound (k : Z) : 0 <= k -> size_of k < 2 ^ 64 -> k < 58.
Proof.
  intros Hk Hs. rewrite size_of_value in Hs.
  destruct (Z.lt_ge_cases k 58) as [Hlt | Hge]; [exact Hlt | exfalso].
  assert (2 ^ 58 <= 2 ^ k) by (apply Z.pow_le_mono_r; lia).
  change (2 ^ 64) with (64 * 2 ^ 58) in Hs. lia.
Qed.

(** The largest fit is a size of the table, and the largest below the
    request. *)
Lemma largest_fit_spec (size : Z) :
  0 <= size ->
  let k := Z.log2 (Z.max size (size_of 0) / size_of 0) in
  0 <= k /\ largest_fit size = size_of k /\
  size_of k <= Z.max size (size_of 0) < size_of (k + 1).
Proof.
  intros Hsize k.
  assert (Hk : 0 <= k) by apply Z.log2_nonneg.
  split; [exact Hk |]. split; [reflexivity |].
  rewrite !size_of_value in *. fold k.
  set (m := Z.max size (64 * 2 ^ 0)) in *.
  assert (Hm : 64 <= m) by (unfold m; change (2 ^ 0) with 1; lia).
  assert (Hq : 0 < m / 64) by (apply Z.div_str_pos; lia).
  pose proof (Z.log2_spec (m / 64) Hq) as Hlog.
  assert (Hkeq : k = Z.log2 (m / 64)) by reflexivity.
  rewrite <- Hkeq in Hlog. clearbody k.
  replace (Z.succ k) with (k + 1) in Hlog by lia.
  pose proof (Z.div_mod m 64 ltac:(lia)) as Hdm.
  pose proof (Z.mod_pos_bound m 64 ltac:(lia)) as Hr.
  lia.
Qed.

(** The loop of lines 64-65 started at [2^k] buckets ends, within its
    fuel, on the largest fit. *)
Lemma ttSetSize_fit_spec (size : Z) :
  0 <= size < 2 ^ 64 ->
  forall (fuel : nat) (k : Z),
    0 <= k -> size_of k <= size -> 58 <= Z.of_nat fuel + k ->
    exists K, k <= K /\ size_of K <= size < size_of (K + 1) /\
      ttSetSize_fit fuel size (size_of k) (mask_of k) = Ok (size_of K, mask_of K).
Proof.
  intros Hsize.
  induction fuel as [| fuel IH]; intros k Hk Hle Hfuel.
  - exfalso. pose proof (size_of_bound k Hk ltac:(lia)). lia.
  - pose proof (size_of_bound k Hk ltac:(lia)) as Hk58.
    assert (Hpos : 0 < 2 ^ k) by (apply pow2_pos; exact Hk).
    assert (Hnext : size_of (k + 1) = size_of k + size_of k).
    { rewrite !size_of_value, pow2_succ by exact Hk. lia. }
    assert (Hsz : 0 < size_of k) by (rewrite size_of_value; lia).
    cbn [ttSetSize_fit].
    rewrite (to_size_t_small (size - size_of k)) by lia.
    destruct (Z.leb_spec (size_of k) (size - size_of k)) as [Hfit | Hstop].
    + rewrite (to_size_t_small (size_of k + size_of k)) by lia.
      rewrite <- Hnext.
      assert (Hmask : to_size_t (to_size_t (Z.shiftl (mask_of k) 1) + bucketLen)
                      = mask_of (k + 1)).
      { rewrite Z.shiftl_mul_pow2 by lia. change (2 ^ 1) with 2.
        rewrite !mask_of_value by lia. rewrite pow2_succ by exact Hk.
        rewrite size_of_value in *. unfold bucketLen.
        rewrite (to_size_t_small ((4 * 2 ^ k - 4) * 2)) by lia.
        rewrite to_size_t_small by lia. lia. }
      rewrite Hmask.
      destruct (IH (k + 1)) as (K & HK & Hbounds & Hrun); [lia | lia | lia |].
      exists K. split; [lia |]. split; [exact Hbounds | exact Hrun].
    + exists k. split; [lia |]. split; [lia | reflexivity].
Qed.

(** Sizes of the table are ordered as their exponents. *)
Lemma size_of_lt (j k : Z) : 0 <= j -> 0 <= k -> size_of j < size_of (k + 1) -> j <= k.
Proof.
  intros Hj Hk Hlt. rewrite !size_of_value in Hlt.
  destruct (Z.le_gt_cases j k) as [Hle | Hgt]; [exact Hle | exfalso].
  assert (2 ^ (k + 1) <= 2 ^ j) by (apply Z.pow_le_mono_r; lia). lia.
Qed.

(** Lines 61-65 compute the largest fit and its mask. *)
Lemma ttSetSize_fit_largest (size : Z) :
  0 <= size < 2 ^ 64 ->
  exists K, 0 <= K /\ largest_fit size = size_of K /\
    size_of K <= Z.max size (size_of 0) < size_of (K + 1) /\
    ttSetSize_fit 64 (Z.max size (to_size_t (bucketLen * sizeof_ttSlot)))
                  (to_size_t (bucketLen * sizeof_ttSlot)) 0
      = Ok (size_of K, mask_of K).
Proof.
  intros Hsize.
  change (to_size_t (bucketLen * sizeof_ttSlot)) with (size_of 0).
  assert (Hmax : 0 <= Z.max size (size_of 0) < 2 ^ 64).
  { rewrite size_of_value. change (64 * 2 ^ 0) with 64.
    change (2 ^ 64) with 18446744073709551616 in *. lia. }
  destruct (ttSetSize_fit_spec _ Hmax 64%nat 0) as (K & HK & Hbounds & Hrun);
    [lia | lia | lia |].
  destruct (largest_fit_spec size ltac:(lia)) as (Hk & Hfit & Hb).
  set (k := Z.log2 (Z.max size (size_of 0) / size_of 0)) in *.
  assert (K = k).
  { apply Z.le_antisymm; apply size_of_lt; lia. }
  subst K. exists k. split; [exact Hk |]. split; [exact Hfit |].
  split; [exact Hbounds |]. exact Hrun.
Qed.

Arguments size_of : simpl never.
Arguments mask_of : simpl never.

Lemma mask_of_count (k : Z) : 0 <= k -> mask_of k + bucketLen = 2 ^ (k + 2).
Proof.
  intros Hk. rewrite mask_of_value by exact Hk. unfold bucketLen.
  rewrite Z.pow_add_r by lia. change (2 ^ 2) with 4. lia.
Qed.

Lemma size_of_count (k : Z) :
  0 <= k -> size_of k = (mask_of k + bucketLen) * sizeof_ttSlot.
Proof.
  intros Hk. rewrite size_of_value, mask_of_value by exact Hk.
  unfold bucketLen. change sizeof_ttSlot with 16. lia.
Qed.

(** Line 76: halving the size. *)
Lemma size_of_halved (k : Z) : 0 < k -> Z.shiftr (size_of k) 1 = size_of (k - 1).
Proof.
  intros Hk. rewrite Z.shiftr_div_pow2 by lia. change (2 ^ 1) with 2.
  rewrite !size_of_value.
  replace (2 ^ k) with (2 * 2 ^ (k - 1))
    by (rewrite <- pow2_succ by lia; f_equal; lia).
  replace (64 * (2 * 2 ^ (k - 1))) with (64 * 2 ^ (k - 1) * 2) by lia.
  apply Z.div_mul. lia.
Qed.

(** Line 77: the mask of half as many buckets. *)
Lemma mask_of_halved (k : Z) :
  0 < k -> Z.shiftr (Z.land (mask_of k) (Z.lnot bucketLen)) 1 = mask_of (k - 1).
Proof.
  intros Hk. unfold mask_of. change bucketLen with (2 ^ 2).
  apply Z.bits_inj'. intros i Hi. bitwise.
  rewrite Z.pow2_bits_eqb by lia.
  destruct (Z.eqb_spec 2 (i + 1)); bit_cases.
Qed.

Lemma mask_of_pos (k : Z) : 0 <= k -> (0 <? mask_of k) = (0 <? k).
Proof.
  intros Hk. rewrite mask_of_value by exact Hk.
  destruct (Z.ltb_spec 0 k) as [Hpos | Hzero].
  - assert (2 ^ 1 <= 2 ^ k) by (apply Z.pow_le_mono_r; lia).
    change (2 ^ 1) with 2 in *.
    destruct (Z.ltb_spec 0 (4 * 2 ^ k - 4)); [reflexivity | lia].
  - replace k with 0 by lia. reflexivity.
Qed.

(** The slot count asked of the allocator. *)
Lemma size_of_slots (k : Z) : 0 <= k -> size_of k / sizeof_ttSlot = 2 ^ (k + 2).
Proof.
  intros Hk. rewrite size_of_count, mask_of_count by exact Hk.
  apply Z.div_mul. discriminate.
Qed.

(** Lines 74-81 end on a granted size not above the first one asked, the
    first one if that is granted, or abort; the fuel is never used up. *)
Lemma ttSetSize_realloc_spec (h : allocator) (old : list ttSlot) :
  forall (fuel : nat) (k : Z),
    0 <= k -> k <= Z.of_nat fuel ->
    match ttSetSize_realloc fuel h old (size_of k) (mask_of k) with
    | Ok (newSlots, newSize, newMask) =>
        exists k', 0 <= k' <= k /\
          newSize = size_of k' /\ newMask = mask_of k' /\
          alloc_ok h (size_of k') = true /\
          newSlots = resized (alloc_junk h) old (Z.to_nat (2 ^ (k' + 2))) /\
          (alloc_ok h (size_of k) = true -> k' = k)
    | Err e => e = Aborted /\ alloc_ok h (size_of k) = false
    end.
Proof.
  induction fuel as [| fuel IH]; intros k Hk Hfuel.
  - replace k with 0 by lia. cbn [ttSetSize_realloc]. unfold realloc.
    destruct (alloc_ok h (size_of 0)) eqn:Hok.
    + exists 0. rewrite size_of_slots by lia.
      repeat split; (lia || assumption || reflexivity).
    + rewrite mask_of_pos by lia. split; reflexivity.
  - cbn [ttSetSize_realloc]. unfold realloc.
    destruct (alloc_ok h (size_of k)) eqn:Hok.
    + exists k. rewrite size_of_slots by lia.
      repeat split; (lia || assumption || reflexivity).
    + rewrite mask_of_pos by lia.
      destruct (Z.ltb_spec 0 k) as [Hpos | Hzero]; [| split; reflexivity].
      rewrite size_of_halved, mask_of_halved by lia.
      specialize (IH (k - 1) ltac:(lia) ltac:(lia)).
      destruct (ttSetSize_realloc fuel h old (size_of (k - 1)) (mask_of (k - 1)))
        as [[[newSlots newSize] newMask] | e];
        [| split; [apply IH | reflexivity]].
      destruct IH as (k' & Hk' & Hs & Hm & Hgranted & Hslots & _).
      exists k'. repeat split; try (lia || assumption); congruence.
Qed.

(** ** ttSetSize: growing *)

(** The index mask [mask + bucketLen - 1] of a table of [2^m] slots. *)
Lemma index_mask (mask m i : Z) :
  0 <= m -> mask + bucketLen = 2 ^ m -> 2 ^ m < 2 ^ 64 ->
  Z.land i (to_size_t (to_size_t (mask + bucketLen) - 1)) = i mod 2 ^ m.
Proof.
  intros Hm Hcount Hlt.
  pose proof (pow2_pos m Hm) as Hpos.
  rewrite Hcount.
  rewrite (to_size_t_small (2 ^ m)) by lia.
  rewrite to_size_t_small by lia.
  replace (2 ^ m - 1) with (Z.ones m) by (rewrite Z.ones_equiv; lia).
  apply Z.land_ones. exact Hm.
Qed.

(** The loop of lines 88-89 fills the table with the image of its first
    [2^m] slots, [base], under the old mask. *)
Lemma ttSetSize_expand_spec (base : list ttSlot) (m oldMask N : Z) :
  0 <= m -> oldMask + bucketLen = 2 ^ m -> 2 ^ m < 2 ^ 64 ->
  Z.of_nat (length base) = 2 ^ m -> 2 ^ m <= N ->
  forall (n : nat) (i : Z) (cur : list ttSlot),
    0 <= i -> i + Z.of_nat n = N -> Z.of_nat (length cur) = N ->
    (forall j, 0 <= j < Z.max i (2 ^ m) ->
       cur !! Z.to_nat j = base !! Z.to_nat (j mod 2 ^ m)) ->
    exists res,
      ttSetSize_expand n oldMask cur i = Ok res /\
      Z.of_nat (length res) = N /\
      forall j, 0 <= j < N -> res !! Z.to_nat j = base !! Z.to_nat (j mod 2 ^ m).
Proof.
  intros Hm Hcount Hlt Hbase HN.
  pose proof (pow2_pos m Hm) as Hpos.
  induction n as [| n IH]; intros i cur Hi Hn Hlen Hinv.
  - exists cur. split; [reflexivity |]. split; [exact Hlen |].
    intros j Hj. apply Hinv. lia.
  - cbn [ttSetSize_expand].
    rewrite (index_mask oldMask m i Hm Hcount Hlt).
    pose proof (Z.mod_pos_bound i (2 ^ m) Hpos) as Hidx.
    destruct (lookup_in_range base (i mod 2 ^ m)) as [s Hs]; [lia |].
    assert (Hcur : cur !! Z.to_nat (i mod 2 ^ m) = Some s).
    { rewrite Hinv by lia. rewrite Z.mod_mod by lia. exact Hs. }
    rewrite (slot_get_Some _ _ s) by (lia || exact Hcur).
    cbn [bind]. rewrite slot_put_ok by lia. cbn [bind].
    apply IH; [lia | lia | rewrite length_insert; exact Hlen |].
    intros j Hj.
    destruct (Z.eq_dec j i) as [-> | Hne].
    + rewrite list_lookup_insert_eq by lia. symmetry. exact Hs.
    + rewrite list_lookup_insert_ne by lia. apply Hinv. lia.
Qed.

(** ** ttSetSize: shrinking *)

Lemma with_slots_same (self : Engine_t) : with_slots self (tt_slots (tt self)) = self.
Proof. destruct self as [b [sl sz mk nw bh] r]. reflexivity. Qed.

Section Shrink.

Context {P : Params}.

(** The loop of lines 69-71 over a table of [2^m0] slots, folding it onto
    its first [2^m1] slots: each of these ends up holding a slot of
    highest priority among the old slots that alias to it. *)
Lemma ttSetSize_shrink_spec (self0 : Engine_t) (m0 m1 newMask : Z) :
  let old := tt_slots (tt self0) in
  let now := tt_now (tt self0) in
  0 <= m1 <= m0 -> newMask + bucketLen = 2 ^ m1 ->
  Z.of_nat (length old) = 2 ^ m0 -> 2 ^ m0 <= 2 ^ 31 ->
  forall (n : nat) (i : Z) (cur : list ttSlot),
    0 <= i -> i + Z.of_nat n = 2 ^ m0 ->
    Z.of_nat (length cur) = 2 ^ m0 ->
    (forall j, 2 ^ m1 <= j < 2 ^ m0 -> cur !! Z.to_nat j = old !! Z.to_nat j) ->
    (forall t, 0 <= t < 2 ^ m1 ->
       exists s, cur !! Z.to_nat t = Some s /\
                 best_of_class now old (2 ^ m1) (Z.max i (2 ^ m1)) t s) ->
    exists res,
      ttSetSize_shrink n (with_slots self0 cur) newMask i = Ok (with_slots self0 res) /\
      Z.of_nat (length res) = 2 ^ m0 /\
      forall t, 0 <= t < 2 ^ m1 ->
        exists s, res !! Z.to_nat t = Some s /\
                  best_of_class now old (2 ^ m1) (2 ^ m0) t s.
Proof.
  intros old now Hm HnewMask Hold Hint.
  assert (Hp1 : 0 < 2 ^ m1) by (apply pow2_pos; lia).
  assert (Hp01 : 2 ^ m1 <= 2 ^ m0) by (apply Z.pow_le_mono_r; lia).
  assert (Hlt64 : 2 ^ m1 < 2 ^ 64).
  { change (2 ^ 31) with 2147483648 in Hint.
    change (2 ^ 64) with 18446744073709551616. lia. }
  induction n as [| n IH]; intros i cur Hi Hn Hlen Hhigh Hlow.
  - exists cur. split; [reflexivity |]. split; [exact Hlen |].
    intros t Ht. destruct (Hlow t Ht) as (s & Hs & Hbest).
    exists s. split; [exact Hs |].
    replace (2 ^ m0) with (Z.max i (2 ^ m1)) by lia. exact Hbest.
  - cbn [ttSetSize_shrink].
    rewrite (index_mask newMask m1 i ltac:(lia) HnewMask Hlt64).
    set (t := i mod 2 ^ m1).
    assert (Ht : 0 <= t < 2 ^ m1) by (apply Z.mod_pos_bound; exact Hp1).
    assert (Hi31 : i < 2 ^ 31) by lia.
    rewrite (to_int_small t), (to_int_small i)
      by (change (2 ^ 31) with 2147483648 in *; lia).
    destruct (Hlow t Ht) as (st & Hst & Hbest).
    destruct (lookup_in_range cur i) as [si Hsi]; [lia |].
    unfold prio. cbn [tt with_slots tt_slots tt_now].
    rewrite (slot_get_Some cur t st) by (lia || exact Hst).
    rewrite (slot_get_Some cur i si) by (lia || exact Hsi).
    cbn [bind]. fold now.
    destruct (Z.lt_ge_cases i (2 ^ m1)) as [Hsmall | Hbig].
    + (* below the new size the slot is compared with itself *)
      assert (Hti : t = i) by (apply Z.mod_small; lia).
      rewrite Hti in Hst. rewrite Hsi in Hst. injection Hst as <-.
      rewrite Z.ltb_irrefl. cbn [bind].
      apply IH; [lia | lia | exact Hlen | exact Hhigh |].
      intros t' Ht'. destruct (Hlow t' Ht') as (s' & Hs' & Hb').
      exists s'. split; [exact Hs' |].
      replace (Z.max (i + 1) (2 ^ m1)) with (Z.max i (2 ^ m1)) by lia. exact Hb'.
    + (* above it the slot is the old one, and aliases to place t *)
      assert (Holdi : old !! Z.to_nat i = Some si) by (rewrite <- Hhigh by lia; exact Hsi).
      replace (Z.max i (2 ^ m1)) with i in Hbest by lia.
      destruct (Z.ltb_spec (slot_prio now st) (slot_prio now si)) as [Hlt | Hge].
      * rewrite slot_put_ok by lia. cbn [bind].
        change (with_slots (with_slots self0 cur) (<[Z.to_nat t := si]> cur))
          with (with_slots self0 (<[Z.to_nat t := si]> cur)).
        apply IH; [lia | lia | rewrite length_insert; exact Hlen | |].
        -- intros j Hj. rewrite list_lookup_insert_ne by lia. apply Hhigh. exact Hj.
        -- intros t' Ht'.
           replace (Z.max (i + 1) (2 ^ m1)) with (i + 1) by lia.
           destruct (Z.eq_dec t' t) as [-> | Hne].
           ++ exists si. split; [apply list_lookup_insert_eq; lia |].
              exists i. split; [lia |]. split; [reflexivity |]. split; [exact Holdi |].
              intros j' s' Hj' Hcls Hs'.
              destruct (Z.eq_dec j' i) as [-> | Hji].
              ** rewrite Holdi in Hs'. injection Hs' as <-. lia.
              ** destruct Hbest as (j & _ & _ & _ & Hmax).
                 specialize (Hmax j' s' ltac:(lia) Hcls Hs'). lia.
           ++ destruct (Hlow t' Ht') as (s' & Hs' & Hb').
              exists s'. split; [rewrite list_lookup_insert_ne by lia; exact Hs' |].
              replace (Z.max i (2 ^ m1)) with i in Hb' by lia.
              destruct Hb' as (j & Hj & Hcls & Hsj & Hmax).
              exists j. split; [lia |]. split; [exact Hcls |]. split; [exact Hsj |].
              intros j' s'' Hj' Hcls' Hs''.
              apply (Hmax j' s''); [| exact Hcls' | exact Hs''].
              assert (j' <> i) by (intros ->; apply Hne; symmetry; exact Hcls').
              lia.
      * cbn [bind].
        apply IH; [lia | lia | exact Hlen | exact Hhigh |].
        intros t' Ht'.
        replace (Z.max (i + 1) (2 ^ m1)) with (i + 1) by lia.
        destruct (Hlow t' Ht') as (s' & Hs' & Hb').
        exists s'. split; [exact Hs' |].
        replace (Z.max i (2 ^ m1)) with i in Hb' by lia.
        destruct Hb' as (j & Hj & Hcls & Hsj & Hmax).
        exists j. split; [lia |]. split; [exact Hcls |]. split; [exact Hsj |].
        intros j' s'' Hj' Hcls' Hs''.
        destruct (Z.eq_dec j' i) as [-> | Hji].
        -- assert (Htt : t' = t) by (rewrite <- Hcls'; reflexivity).
           rewrite Htt, Hst in Hs'. injection Hs' as <-.
           rewrite Holdi in Hs''. injection Hs'' as <-. lia.
        -- apply (Hmax j' s''); [lia | exact Hcls' | exact Hs''].
Qed.

End Shrink.

(** ** ttSetSize: reallocation *)

Lemma resized_length (junk : nat -> ttSlot) (old : list ttSlot) (n : nat) :
  length (resized junk old n) = n.
Proof.
  unfold resized.
  rewrite length_app, length_take, length_fmap, length_seq. lia.
Qed.

(** The old contents survive up to the smaller of the two sizes. *)
Lemma resized_lookup_old (junk : nat -> ttSlot) (old : list ttSlot) (n j : nat) :
  (j < n)%nat -> (j < length old)%nat -> resized junk old n !! j = old !! j.
Proof.
  intros Hn Hold. unfold resized.
  rewrite lookup_app_l by (rewrite length_take; lia).
  apply lookup_take_lt. exact Hn.
Qed.

(** What a well-formed table says in terms of its number of buckets. *)
Lemma tt_wf_inv (t : ttable) :
  tt_wf t ->
  exists k0, 0 <= k0 < 58 /\ tt_mask t = mask_of k0 /\ tt_size t = size_of k0 /\
             Z.of_nat (length (tt_slots t)) = 2 ^ (k0 + 2).
Proof.
  intros (k0 & Hk0 & Hmask & Hlen & Hsize & Hlt).
  fold (mask_of k0) in Hmask.
  assert (Hs : tt_size t = size_of k0)
    by (rewrite size_of_count by exact Hk0; rewrite Hsize, Hmask; reflexivity).
  exists k0. split; [| split; [exact Hmask | split; [exact Hs |]]].
  - split; [exact Hk0 |]. apply size_of_bound; [exact Hk0 | rewrite <- Hs; exact Hlt].
  - rewrite Hlen, Hmask. apply mask_of_count. exact Hk0.
Qed.

Lemma size_of_mono (j k : Z) : 0 <= j -> 0 <= k -> (size_of j < size_of k <-> j < k).
Proof.
  intros Hj Hk. rewrite !size_of_value. split.
  - intros Hlt. destruct (Z.lt_ge_cases j k) as [H | H]; [exact H | exfalso].
    assert (2 ^ k <= 2 ^ j) by (apply Z.pow_le_mono_r; lia). lia.
  - intros Hlt.
    assert (2 ^ j < 2 ^ k) by (apply Z.pow_lt_mono_r; lia). lia.
Qed.

(** ** ttSetSize as a whole *)

Section SetSizeOutcome.

Context {P : Params}.

(** On a table of [2^k0] buckets, with [2^K] buckets the largest fit:
    ttSetSize ends on [2^k'] buckets, [k' <= K], with equality when the
    first request is granted; a grown table is the image of the old one
    under the old mask, a table shrunk to the largest fit holds in each
    slot one of highest priority among those that alias to it.  The only
    error is [xAbort], after the first request was refused. *)
Lemma ttSetSize_outcome (h : allocator) (self : Engine_t) (size : Z) :
  tt_wf (tt self) -> 0 <= size < 2 ^ 64 ->
  (largest_fit size < tt_size (tt self) -> tt_int_indexed (tt self)) ->
  exists k0 K,
    0 <= k0 /\ 0 <= K /\
    tt_size (tt self) = size_of k0 /\ tt_mask (tt self) = mask_of k0 /\
    largest_fit size = size_of K /\
    match ttSetSize h self size with
    | Ok self' =>
        exists k', 0 <= k' <= K /\
          tt_size (tt self') = size_of k' /\ tt_mask (tt self') = mask_of k' /\
          (alloc_ok h (size_of K) = true -> k' = K) /\
          Z.of_nat (length (tt_slots (tt self'))) = 2 ^ (k' + 2) /\
          board self' = board self /\ rootPlyNumber self' = rootPlyNumber self /\
          tt_now (tt self') = tt_now (tt self) /\
          tt_baseHash (tt self') = tt_baseHash (tt self) /\
          (k0 < k' ->
           forall j, 0 <= j < 2 ^ (k' + 2) ->
             tt_slots (tt self') !! Z.to_nat j =
             tt_slots (tt self) !! Z.to_nat (j mod 2 ^ (k0 + 2))) /\
          (K < k0 ->
           forall t, 0 <= t < 2 ^ (k' + 2) ->
             exists s, tt_slots (tt self') !! Z.to_nat t = Some s /\
               best_of_class (tt_now (tt self)) (tt_slots (tt self))
                             (2 ^ (K + 2)) (2 ^ (k0 + 2)) t s)
    | Err e => e = Aborted /\ alloc_ok h (size_of K) = false
    end.
Proof.
  intros Hwf Hsize Hint.
  destruct (tt_wf_inv (tt self) Hwf) as (k0 & Hk0 & Hmask & Hsz & Hlen).
  destruct (ttSetSize_fit_largest size Hsize) as (K & HK & Hfit & Hbounds & Hrun).
  assert (HK58 : K < 58).
  { apply size_of_bound; [exact HK |].
    assert (Z.max size (size_of 0) < 2 ^ 64).
    { rewrite size_of_value. change (64 * 2 ^ 0) with 64.
      change (2 ^ 64) with 18446744073709551616 in *. lia. }
    lia. }
  exists k0, K.
  split; [lia |]. split; [exact HK |]. split; [exact Hsz |].
  split; [exact Hmask |]. split; [exact Hfit |].
  set (old := tt_slots (tt self)) in *.
  set (now := tt_now (tt self)).
  assert (Hp0 : 0 < 2 ^ (k0 + 2)) by (apply pow2_pos; lia).
  (* the shrink step *)
  assert (Hshrink : exists res,
            (if size_of K <? tt_size (tt self)
             then ttSetSize_shrink (Z.to_nat (to_size_t (tt_mask (tt self) + bucketLen)))
                                   self (mask_of K) 0
             else Ok self) = Ok (with_slots self res) /\
            Z.of_nat (length res) = 2 ^ (k0 + 2) /\
            (K < k0 -> forall t, 0 <= t < 2 ^ (K + 2) ->
               exists s, res !! Z.to_nat t = Some s /\
                 best_of_class now old (2 ^ (K + 2)) (2 ^ (k0 + 2)) t s) /\
            (k0 <= K -> res = old)).
  { rewrite Hsz.
    destruct (Z.ltb_spec (size_of K) (size_of k0)) as [Hlt | Hge].
    - apply (proj1 (size_of_mono K k0 HK ltac:(lia))) in Hlt.
      assert (Hi31 : 2 ^ (k0 + 2) <= 2 ^ 31).
      { rewrite <- (mask_of_count k0), <- Hmask by lia.
        apply Hint. rewrite Hfit, Hsz.
        apply (proj2 (size_of_mono K k0 HK ltac:(lia))). exact Hlt. }
      rewrite Hmask, mask_of_count by lia.
      rewrite to_size_t_small
        by (change (2 ^ 31) with 2147483648 in Hi31;
            change (2 ^ 64) with 18446744073709551616; lia).
      destruct (ttSetSize_shrink_spec self (k0 + 2) (K + 2) (mask_of K)
                  ltac:(lia) (mask_of_count K HK) Hlen Hi31
                  (Z.to_nat (2 ^ (k0 + 2))) 0 old)
        as (res & Hrun' & Hlen' & Hbest); [lia | lia | exact Hlen | reflexivity | |].
      + intros t Ht.
        destruct (lookup_in_range old t) as [s Hs].
        { assert (2 ^ (K + 2) <= 2 ^ (k0 + 2)) by (apply Z.pow_le_mono_r; lia).
          fold old in Hlen. lia. }
        exists s. split; [exact Hs |].
        exists t. split; [lia |]. split; [apply Z.mod_small; lia |].
        split; [exact Hs |].
        intros j' s' Hj' Hcls Hs'.
        assert (j' = t) by (rewrite <- Hcls; symmetry; apply Z.mod_small; lia).
        subst j'. fold old in Hs'. rewrite Hs in Hs'. injection Hs' as <-. lia.
      + exists res. unfold old in Hrun'. rewrite with_slots_same in Hrun'.
        split; [exact Hrun' |]. split; [exact Hlen' |].
        split; [intros _; exact Hbest | lia].
    - exists old. unfold old at 1. rewrite with_slots_same.
      split; [reflexivity |]. split; [exact Hlen |].
      split; [| reflexivity].
      intros Hlt. exfalso.
      assert (size_of K < size_of k0)
        by (apply (proj2 (size_of_mono K k0 HK ltac:(lia))); exact Hlt).
      lia. }
  destruct Hshrink as (res & Hshrunk & Hreslen & Hbest & Hsame).
  unfold ttSetSize.
  change (assert (sizeof_ttSlot =? 2 * sizeof_uint64_t)) with (@Ok unit ()).
  cbn [bind]. rewrite Hrun. cbn [bind]. cbv beta iota.
  rewrite Hshrunk. cbn [bind].
  cbn [with_slots tt tt_slots tt_size tt_mask tt_now tt_baseHash board rootPlyNumber].
  pose proof (ttSetSize_realloc_spec h res 64%nat K HK ltac:(lia)) as Hre.
  destruct (ttSetSize_realloc 64 h res (size_of K) (mask_of K))
    as [[[newSlots newSize] newMask] | e].
  2: { cbn [bind]. exact Hre. }
  destruct Hre as (k' & Hk' & -> & -> & Hgranted & -> & Hfirst).
  cbn [bind]. cbv beta iota.
  set (N := 2 ^ (k' + 2)).
  assert (HN : 0 < N) by (apply pow2_pos; lia).
  assert (HN64 : N < 2 ^ 64) by (apply Z.pow_lt_mono_r; lia).
  set (fresh := resized (alloc_junk h) res (Z.to_nat N)).
  assert (Hfresh : Z.of_nat (length fresh) = N)
    by (unfold fresh; rewrite resized_length; lia).
  assert (Hmem : match res with
                 | [] => memset_bucket fresh
                 | _ :: _ => Ok fresh
                 end = Ok fresh)
    by (destruct res; [simpl in Hreslen; lia | reflexivity]).
  rewrite Hmem. cbn [bind]. rewrite Hsz.
  destruct (Z.ltb_spec (size_of k0) (size_of k')) as [Hgrow | Hstay].
  - apply (proj1 (size_of_mono k0 k' ltac:(lia) ltac:(lia))) in Hgrow.
    assert (Hres : res = old) by (apply Hsame; lia). subst res.
    rewrite mask_of_count, to_size_t_small by lia. fold N.
    assert (HoldN : 2 ^ (k0 + 2) <= N) by (apply Z.pow_le_mono_r; lia).
    destruct (ttSetSize_expand_spec old (k0 + 2) (tt_mask (tt self)) N
                ltac:(lia)
                ltac:(rewrite Hmask; apply mask_of_count; lia)
                ltac:(apply Z.pow_lt_mono_r; lia) Hlen HoldN
                (Z.to_nat N) 0 fresh)
      as (grown & Hexp & Hgl & Himage); [lia | lia | exact Hfresh | |].
    + intros j Hj. rewrite Z.mod_small by lia.
      unfold fresh. apply resized_lookup_old; lia.
    + rewrite Hexp. cbn [bind]. exists k'.
      cbn [tt tt_slots tt_size tt_mask tt_now tt_baseHash board rootPlyNumber].
      repeat split; try (lia || assumption || reflexivity).
      all: first [ intros _; exact Himage | intros Habs; lia ].
  - assert (Hle : k' <= k0).
    { destruct (Z.le_gt_cases k' k0) as [H | H]; [exact H | exfalso].
      apply (proj2 (size_of_mono k0 k' ltac:(lia) ltac:(lia))) in H. lia. }
    cbn [bind]. exists k'.
    cbn [tt tt_slots tt_size tt_mask tt_now tt_baseHash board rootPlyNumber].
    repeat split; try (lia || assumption || reflexivity).
    all: try (intros Habs; lia).
    intros HKk t Ht.
    assert (HtK : 2 ^ (k' + 2) <= 2 ^ (K + 2)) by (apply Z.pow_le_mono_r; lia).
    assert (Ht0 : 2 ^ (K + 2) <= 2 ^ (k0 + 2)) by (apply Z.pow_le_mono_r; lia).
    destruct (Hbest HKk t ltac:(lia)) as (s & Hs & Hb).
    exists s. split; [| exact Hb].
    unfold fresh. rewrite resized_lookup_old by lia. exact Hs.
Qed.

End SetSizeOutcome.

(** The first ttSetSize, on the table not yet allocated: the allocation
    of the largest fit, when granted, gives a well-formed table. *)
Lemma ttSetSize_first {P : Params} (h : allocator) (self : Engine_t) (size : Z) :
  tt_null (tt self) -> 0 <= size < 2 ^ 64 ->
  alloc_ok h (largest_fit size) = true ->
  exists K grown,
    0 <= K /\ largest_fit size = size_of K /\
    Z.of_nat (length grown) = 2 ^ (K + 2) /\
    ttSetSize h self size =
      Ok (Engine (board self)
                 (Ttable grown (size_of K) (mask_of K)
                         (tt_now (tt self)) (tt_baseHash (tt self)))
                 (rootPlyNumber self)).
Proof.
  intros (Hslots & Hsz & Hmask) Hsize Hok.
  destruct (ttSetSize_fit_largest size Hsize) as (K & HK & Hfit & Hbounds & Hrun).
  assert (HK58 : K < 58).
  { apply size_of_bound; [exact HK |].
    assert (Z.max size (size_of 0) < 2 ^ 64).
    { rewrite size_of_value. change (64 * 2 ^ 0) with 64.
      change (2 ^ 64) with 18446744073709551616 in *. lia. }
    lia. }
  rewrite Hfit in Hok.
  exists K.
  assert (Hpos : 0 < size_of K)
    by (rewrite size_of_value; pose proof (pow2_pos K HK); lia).
  set (N := 2 ^ (K + 2)).
  assert (HN : 4 <= N).
  { unfold N. rewrite Z.pow_add_r by lia. change (2 ^ 2) with 4.
    pose proof (pow2_pos K HK). lia. }
  assert (HN64 : N < 2 ^ 64) by (apply Z.pow_lt_mono_r; lia).
  set (fresh := resized (alloc_junk h) [] (Z.to_nat N)).
  assert (Hfresh : Z.of_nat (length fresh) = N)
    by (unfold fresh; rewrite resized_length; lia).
  set (zeroed := replicate (Z.to_nat bucketLen) (TtSlot 0 0)
                 ++ drop (Z.to_nat bucketLen) fresh).
  assert (Hzl : Z.of_nat (length zeroed) = N).
  { unfold zeroed. rewrite length_app, length_replicate, length_drop.
    unfold bucketLen in *. lia. }
  destruct (ttSetSize_expand_spec (replicate (Z.to_nat bucketLen) (TtSlot 0 0))
              2 0 N ltac:(lia) eq_refl ltac:(reflexivity) eq_refl
              ltac:(change (2 ^ 2) with 4; lia)
              (Z.to_nat N) 0 zeroed)
    as (grown & Hexp & Hgl & _); [lia | lia | exact Hzl | |].
  { intros j Hj. change (2 ^ 2) with 4 in *.
    rewrite Z.mod_small by lia. unfold zeroed.
    apply lookup_app_l. rewrite length_replicate. unfold bucketLen. lia. }
  exists grown. split; [exact HK |]. split; [exact Hfit |]. split; [exact Hgl |].
  unfold ttSetSize.
  change (assert (sizeof_ttSlot =? 2 * sizeof_uint64_t)) with (@Ok unit ()).
  cbn [bind]. rewrite Hrun. cbn [bind]. cbv beta iota.
  rewrite Hsz.
  destruct (Z.ltb_spec (size_of K) 0) as [Hneg | _]; [lia |].
  cbn [bind]. rewrite Hslots.
  pose proof (ttSetSize_realloc_spec h [] 64%nat K HK ltac:(lia)) as Hre.
  destruct (ttSetSize_realloc 64 h [] (size_of K) (mask_of K))
    as [[[newSlots newSize] newMask] | e]; [| destruct Hre; congruence].
  destruct Hre as (k' & Hk' & -> & -> & _ & -> & Hfirst).
  rewrite (Hfirst Hok) in *. clear Hfirst.
  cbn [bind]. cbv beta iota. fold N. fold fresh.
  unfold memset_bucket. rewrite Hfresh.
  destruct (Z.ltb_spec N bucketLen) as [Hshort | _]; [unfold bucketLen in Hshort; lia |].
  cbn [bind]. fold zeroed. rewrite ?Hsz.
  destruct (Z.ltb_spec 0 (size_of K)) as [_ | Habs]; [| lia].
  rewrite mask_of_count, to_size_t_small by lia. fold N. rewrite Hmask.
  rewrite Hexp. reflexivity.
Qed.

(** Whatever the allocator does, ttSetSize ends on no more than the
    largest fit. *)
Lemma ttSetSize_size_le {P : Params} (h : allocator) (self self' : Engine_t) (size : Z) :
  0 <= size < 2 ^ 64 -> ttSetSize h self size = Ok self' ->
  tt_size (tt self') <= largest_fit size.
Proof.
  intros Hsize. unfold ttSetSize.
  destruct (ttSetSize_fit_largest size Hsize) as (K & HK & Hfit & Hbounds & Hrun).
  assert (HK58 : K < 58).
  { apply size_of_bound; [exact HK |].
    assert (Z.max size (size_of 0) < 2 ^ 64).
    { rewrite size_of_value. change (64 * 2 ^ 0) with 64.
      change (2 ^ 64) with 18446744073709551616 in *. lia. }
    lia. }
  change (assert (sizeof_ttSlot =? 2 * sizeof_uint64_t)) with (@Ok unit ()).
  cbn [bind]. rewrite Hrun. cbn [bind]. cbv beta iota.
  destruct (if size_of K <? tt_size (tt self) then _ else _) as [shrunk | e];
    [| discriminate].
  cbn [bind].
  pose proof (ttSetSize_realloc_spec h (tt_slots (tt shrunk)) 64%nat K HK ltac:(lia))
    as Hre.
  destruct (ttSetSize_realloc 64 h (tt_slots (tt shrunk)) (size_of K) (mask_of K))
    as [[[newSlots newSize] newMask] | e]; [| discriminate].
  destruct Hre as (k' & Hk' & -> & -> & _ & _ & _).
  cbn [bind]. cbv beta iota.
  destruct (match tt_slots (tt shrunk) with [] => _ | _ :: _ => _ end) as [l1 | e];
    [| discriminate].
  cbn [bind].
  destruct (if tt_size (tt shrunk) <? size_of k' then _ else _) as [l2 | e];
    [| discriminate].
  cbn [bind]. intros [= <-]. cbn [tt tt_size]. rewrite Hfit.
  destruct (Z.eq_dec k' K) as [-> | Hne]; [lia |].
  assert (size_of k' < size_of K)
    by (apply (proj2 (size_of_mono k' K ltac:(lia) HK)); lia).
  lia.
Qed.

(** The exponent of the largest fit is determined by its bounds. *)
Lemma largest_fit_bounds (size K : Z) :
  0 <= size -> 0 <= K -> largest_fit size = size_of K ->
  size_of K <= Z.max size (size_of 0) < size_of (K + 1).
Proof.
  intros Hsize HK Hfit.
  destruct (largest_fit_spec size Hsize) as (Hk & Hfit' & Hb).
  set (k := Z.log2 (Z.max size (size_of 0) / size_of 0)) in *.
  assert (k = K).
  { destruct (Z.lt_trichotomy k K) as [Hlt | [Heq | Hgt]]; [| exact Heq |].
    - apply (proj2 (size_of_mono k K Hk HK)) in Hlt. lia.
    - apply (proj2 (size_of_mono K k HK Hk)) in Hgt. lia. }
  subst K. exact Hb.
Qed.

(** C7. For every requested byte count, when the first allocation
    succeeds ttSetSize leaves a table of [bucketLen * sizeof(struct
    ttSlot) * 2^k] bytes for the largest [k] that keeps this within
    [max(size, bucketLen * sizeof(struct ttSlot))], and a mask with
    [size == (mask + bucketLen) * sizeof(struct ttSlot)]. *)
Theorem ttSetSize_size_and_mask {P : Params} (h : allocator) (self : Engine_t) (size : Z) :
  tt_null (tt self) \/
  (tt_wf (tt self) /\
   (largest_fit size < tt_size (tt self) -> tt_int_indexed (tt self))) ->
  0 <= size < 2 ^ 64 ->
  alloc_ok h (largest_fit size) = true ->
  exists (self' : Engine_t) (k : Z),
    ttSetSize h self size = Ok self' /\
    0 <= k /\
    tt_size (tt self') = bucketLen * sizeof_ttSlot * 2 ^ k /\
    tt_size (tt self') <= Z.max size (bucketLen * sizeof_ttSlot) /\
    (forall k', 0 <= k' ->
       bucketLen * sizeof_ttSlot * 2 ^ k' <= Z.max size (bucketLen * sizeof_ttSlot) ->
       k' <= k) /\
    tt_size (tt self') = (tt_mask (tt self') + bucketLen) * sizeof_ttSlot /\
    tt_wf (tt self').
Proof.
  intros Hstate Hsize Hok.
  assert (Hmain : exists self' K,
            ttSetSize h self size = Ok self' /\ 0 <= K /\
            largest_fit size = size_of K /\
            tt_size (tt self') = size_of K /\ tt_mask (tt self') = mask_of K /\
            Z.of_nat (length (tt_slots (tt self'))) = 2 ^ (K + 2)).
  { destruct Hstate as [Hnull | [Hwf Hint]].
    - destruct (ttSetSize_first h self size Hnull Hsize Hok)
        as (K & grown & HK & Hfit & Hlen & Hrun).
      eexists. exists K. split; [exact Hrun |].
      cbn [tt tt_size tt_mask tt_slots].
      repeat split; (assumption || reflexivity).
    - destruct (ttSetSize_outcome h self size Hwf Hsize Hint)
        as (k0 & K & Hk0 & HK & _ & _ & Hfit & Hout).
      rewrite Hfit in Hok.
      destruct (ttSetSize h self size) as [self' | e];
        [| destruct Hout; congruence].
      destruct Hout as (k' & Hk' & Hs & Hm & Hfirst & Hlen & _).
      rewrite (Hfirst Hok) in *.
      exists self', K. repeat split; (assumption || reflexivity || lia). }
  destruct Hmain as (self' & K & Hrun & HK & Hfit & Hs & Hm & Hlen).
  destruct (largest_fit_bounds size K ltac:(lia) HK Hfit) as [Hlo Hhi].
  assert (HK58 : K < 58).
  { apply size_of_bound; [exact HK |].
    assert (Z.max size (size_of 0) < 2 ^ 64).
    { rewrite size_of_value. change (64 * 2 ^ 0) with 64.
      change (2 ^ 64) with 18446744073709551616 in *. lia. }
    lia. }
  change (bucketLen * sizeof_ttSlot) with (size_of 0).
  exists self', K. split; [exact Hrun |]. split; [exact HK |].
  split; [exact Hs |].
  split; [rewrite Hs; exact Hlo |].
  split; [| split].
  - intros k' Hk' Hle. change (size_of 0 * 2 ^ k') with (size_of k') in Hle.
    apply size_of_lt; [exact Hk' | exact HK | lia].
  - rewrite Hs, Hm. apply size_of_count. exact HK.
  - exists K. split; [exact HK |]. split; [exact Hm |].
    split; [rewrite Hlen, Hm; symmetry; apply mask_of_count; exact HK |].
    split; [rewrite Hs, Hm; apply size_of_count; exact HK |].
    rewrite Hs. rewrite size_of_value.
    assert (2 ^ K < 2 ^ 58) by (apply Z.pow_lt_mono_r; lia).
    change (2 ^ 64) with (64 * 2 ^ 58). lia.
Qed.

Lemma ttSetSize_size_and_mask_witness :
  let self := Engine (Board 0 0 0) (Ttable [] 0 0 0 0) 0 in
  tt_null (tt self) /\
  exists (self' : Engine_t) (k : Z),
    ttSetSize generous self 1000 = Ok self' /\
    tt_size (tt self') = bucketLen * sizeof_ttSlot * 2 ^ k /\
    tt_size (tt self') <= Z.max 1000 (bucketLen * sizeof_ttSlot) /\
    tt_size (tt self') = (tt_mask (tt self') + bucketLen) * sizeof_ttSlot.
Proof.
  intros self.
  assert (Hnull : tt_null (tt self)) by (repeat split).
  split; [exact Hnull |].
  destruct (ttSetSize_size_and_mask generous self 1000 (or_introl Hnull)
              ltac:(lia) eq_refl)
    as (self' & k & Hrun & _ & Hs & Hle & _ & Hm & _).
  exists self', k. repeat split; assumption.
Defined.

(** C8. When ttSetSize grows the table, every slot index [i] of the new
    table holds the slot the old table held at [i] modulo the old slot
    count: the new slots replicate the image of the old table under the
    old mask. *)
Theorem ttSetSize_grow_replicates {P : Params} (h : allocator)
    (self self' : Engine_t) (size : Z) :
  tt_wf (tt self) -> 0 <= size < 2 ^ 64 ->
  ttSetSize h self size = Ok self' ->
  tt_size (tt self) < tt_size (tt self') ->
  Z.of_nat (length (tt_slots (tt self'))) = tt_mask (tt self') + bucketLen /\
  forall i, 0 <= i < tt_mask (tt self') + bucketLen ->
    exists s,
      tt_slots (tt self') !! Z.to_nat i = Some s /\
      tt_slots (tt self) !! Z.to_nat (i mod (tt_mask (tt self) + bucketLen)) = Some s.
Proof.
  intros Hwf Hsize Hrun Hgrow.
  pose proof (ttSetSize_size_le h self self' size Hsize Hrun) as Hle.
  destruct (ttSetSize_outcome h self size Hwf Hsize ltac:(intros; lia))
    as (k0 & K & Hk0 & HK & Hs0 & Hm0 & Hfit & Hout).
  rewrite Hrun in Hout.
  destruct Hout as (k' & Hk' & Hs & Hm & _ & Hlen & _ & _ & _ & _ & Himage & _).
  rewrite Hs0, Hs in Hgrow.
  apply (proj1 (size_of_mono k0 k' Hk0 ltac:(lia))) in Hgrow.
  rewrite Hm, Hm0, !mask_of_count by lia.
  split; [exact Hlen |].
  intros i Hi.
  destruct (tt_wf_inv (tt self) Hwf) as (k0' & Hk0' & Hm0' & _ & Hlen0).
  assert (k0' = k0).
  { rewrite Hm0 in Hm0'.
    pose proof (mask_of_count k0 Hk0) as H1.
    pose proof (mask_of_count k0' ltac:(lia)) as H2.
    rewrite Hm0' in H1. rewrite H1 in H2.
    apply (Z.pow_inj_r 2) in H2; lia. }
  subst k0'.
  pose proof (pow2_pos (k0 + 2) ltac:(lia)) as Hp.
  pose proof (Z.mod_pos_bound i (2 ^ (k0 + 2)) Hp) as Hidx.
  destruct (lookup_in_range (tt_slots (tt self)) (i mod 2 ^ (k0 + 2))) as [s Hs'];
    [lia |].
  exists s. split; [| exact Hs'].
  rewrite (Himage Hgrow i Hi). exact Hs'.
Qed.

Lemma ttSetSize_grow_replicates_witness :
  let slots := [TtSlot 1 10; TtSlot 2 20; TtSlot 3 30; TtSlot 4 40] in
  let self := Engine (Board 0 0 0) (Ttable slots 64 0 0 0) 0 in
  exists self',
    ttSetSize (limited 200) self 1000 = Ok self' /\
    tt_size (tt self) < tt_size (tt self') /\
    forall i, 0 <= i < tt_mask (tt self') + bucketLen ->
      exists s,
        tt_slots (tt self') !! Z.to_nat i = Some s /\
        tt_slots (tt self) !! Z.to_nat (i mod (tt_mask (tt self) + bucketLen)) = Some s.
Proof.
  intros slots self.
  destruct (ttSetSize (limited 200) self 1000) as [self' | e] eqn:Hrun;
    [| vm_compute in Hrun; discriminate].
  assert (Hgrow : tt_size (tt self) < tt_size (tt self')).
  { assert (Hsz : tt_size (tt self') = 128)
      by (vm_compute in Hrun; injection Hrun as <-; reflexivity).
    rewrite Hsz. reflexivity. }
  assert (Hwf : tt_wf (tt self)).
  { exists 0. repeat split; by_eval. }
  exists self'. split; [reflexivity |]. split; [exact Hgrow |].
  exact (proj2 (ttSetSize_grow_replicates (limited 200) self self' 1000 Hwf
                  ltac:(lia) Hrun Hgrow)).
Defined.

(** C6, as it fails.  A table of 16 slots is asked to shrink to 128
    bytes, 8 slots; the allocator refuses 128 bytes and grants 64.  The
    slots were merged for 8 slots and the table is then cut to 4: its
    slot 0 is the old slot 8, of depth 2, although the old slot 4, of
    depth 9 and of higher [prio], is congruent to 0 modulo the new slot
    count. *)
Lemma ttSetSize_shrink_counterexample :
  let at_depth d := TtSlot 0 (Z.shiftl d 32) in
  let slots := [at_depth 1; at_depth 1; at_depth 1; at_depth 1;
                at_depth 9; at_depth 1; at_depth 1; at_depth 1;
                at_depth 2; at_depth 1; at_depth 1; at_depth 1;
                at_depth 1; at_depth 1; at_depth 1; at_depth 1] in
  let self := Engine (Board 0 0 0) (Ttable slots 256 12 0 0) 0 in
  exists self',
    ttSetSize (limited 64) self 128 = Ok self' /\
    tt_size (tt self') < tt_size (tt self) /\
    tt_mask (tt self') + bucketLen = 4 /\
    tt_slots (tt self') !! 0%nat = Some (at_depth 2) /\
    tt_slots (tt self) !! 4%nat = Some (at_depth 9) /\
    4 mod (tt_mask (tt self') + bucketLen) = 0 /\
    prio self 4 = Ok 9 /\
    slot_prio (tt_now (tt self)) (at_depth 2) = 2.
Proof.
  intros at_depth slots self.
  eexists. split; [vm_compute; reflexivity |].
  split; [vm_compute; reflexivity |].
  repeat split; vm_compute; reflexivity.
Qed.

(** C6, amended.  When ttSetSize shrinks a table whose indices are
    [int]s, every index [t] of the new table holds a slot of the old
    table from an index congruent to [t] modulo [m], the slot count of the
    largest fit, for which the slots are merged; no old slot of that
    class, the one at [t] included, has a higher [prio].  [m] is the new
    slot count when the allocation of the largest fit is granted, as it
    then is the size of the new table; after a refusal the new table is
    smaller than [m] slots and was not merged again. *)
Theorem ttSetSize_shrink_keeps_best {P : Params} (h : allocator)
    (self : Engine_t) (size : Z) :
  tt_wf (tt self) -> tt_int_indexed (tt self) -> 0 <= size < 2 ^ 64 ->
  largest_fit size < tt_size (tt self) ->
  (alloc_ok h (largest_fit size) = true ->
   exists self', ttSetSize h self size = Ok self') /\
  forall self', ttSetSize h self size = Ok self' ->
    let n := tt_mask (tt self) + bucketLen in
    let n' := tt_mask (tt self') + bucketLen in
    let m := largest_fit size / sizeof_ttSlot in
    n' <= m /\ m < n /\
    (alloc_ok h (largest_fit size) = true ->
     tt_size (tt self') = largest_fit size /\ n' = m) /\
    Z.of_nat (length (tt_slots (tt self'))) = n' /\
    forall t, 0 <= t < n' ->
      exists (j : Z) (s : ttSlot),
        tt_slots (tt self') !! Z.to_nat t = Some s /\
        0 <= j < n /\ j mod m = t /\
        tt_slots (tt self) !! Z.to_nat j = Some s /\
        prio self j = Ok (slot_prio (tt_now (tt self)) s) /\
        forall j', 0 <= j' < n -> j' mod m = t ->
          exists p', prio self j' = Ok p' /\ p' <= slot_prio (tt_now (tt self)) s.
Proof.
  intros Hwf Hint Hsize Hshrink.
  destruct (ttSetSize_outcome h self size Hwf Hsize (fun _ => Hint))
    as (k0 & K & Hk0 & HK & Hs0 & Hm0 & Hfit & Hout).
  rewrite Hfit in Hshrink. rewrite Hs0 in Hshrink.
  apply (proj1 (size_of_mono K k0 HK Hk0)) in Hshrink.
  split.
  { intros Hok. rewrite Hfit in Hok.
    destruct (ttSetSize h self size) as [self' | e]; [eexists; reflexivity |].
    destruct Hout; congruence. }
  intros self' Hrun. rewrite Hrun in Hout.
  destruct Hout as (k' & Hk' & Hs & Hm & Hfirst & Hlen & _ & _ & _ & _ & _ & Hbest).
  cbv zeta.
  rewrite Hfit, size_of_slots by exact HK.
  rewrite Hm, Hm0, !mask_of_count by lia.
  split; [apply Z.pow_le_mono_r; lia |].
  split; [apply Z.pow_lt_mono_r; lia |].
  split.
  { intros Hok. specialize (Hfirst Hok). subst k'. split; [exact Hs | reflexivity]. }
  split; [exact Hlen |].
  intros t Ht.
  destruct (Hbest Hshrink t Ht) as (s & Hst & j & Hj & Hcls & Hsj & Hmax).
  exists j, s. split; [exact Hst |]. split; [exact Hj |]. split; [exact Hcls |].
  split; [exact Hsj |].
  split.
  - unfold prio. rewrite (slot_get_Some _ _ s) by (lia || exact Hsj). reflexivity.
  - intros j' Hj' Hcls'.
    destruct (tt_wf_inv (tt self) Hwf) as (k0' & Hk0' & Hm0' & _ & Hlen0).
    assert (k0' = k0).
    { rewrite Hm0 in Hm0'.
      pose proof (mask_of_count k0 Hk0) as H1.
      pose proof (mask_of_count k0' ltac:(lia)) as H2.
      rewrite Hm0' in H1. rewrite H1 in H2.
      apply (Z.pow_inj_r 2) in H2; lia. }
    subst k0'.
    destruct (lookup_in_range (tt_slots (tt self)) j') as [s' Hs']; [lia |].
    exists (slot_prio (tt_now (tt self)) s'). split.
    + unfold prio. rewrite (slot_get_Some _ _ s') by (lia || exact Hs'). reflexivity.
    + apply (Hmax j' s' Hj' Hcls' Hs').
Qed.

Lemma ttSetSize_shrink_keeps_best_witness :
  let at_depth d := TtSlot 0 (Z.shiftl d 32) in
  let slots := [at_depth 1; at_depth 2; at_depth 3; at_depth 4;
                at_depth 5; at_depth 1; at_depth 7; at_depth 2] in
  let self := Engine (Board 0 0 0) (Ttable slots 128 4 0 0) 0 in
  exists self',
    ttSetSize generous self 64 = Ok self' /\
    tt_size (tt self') = 64 /\
    tt_slots (tt self') = [at_depth 5; at_depth 2; at_depth 7; at_depth 4] /\
    forall t, 0 <= t < 4 ->
      exists (j : Z) (s : ttSlot),
        tt_slots (tt self') !! Z.to_nat t = Some s /\
        0 <= j < 8 /\ j mod 4 = t /\ slots !! Z.to_nat j = Some s.
Proof.
  intros at_depth slots self.
  assert (Hwf : tt_wf (tt self)).
  { exists 1. repeat split; by_eval. }
  destruct (ttSetSize_shrink_keeps_best generous self 64 Hwf
              ltac:(by_eval) ltac:(lia) ltac:(by_eval))
    as [Hreturns Hkeeps].
  destruct (Hreturns eq_refl) as [self' Hrun].
  destruct (Hkeeps self' Hrun) as (_ & _ & Hgranted & _ & Hbest).
  destruct (Hgranted eq_refl) as [Hsz _].
  exists self'. split; [exact Hrun |]. split; [exact Hsz |].
  assert (Hc : ttSetSize generous self 64 =
               Ok (Engine (Board 0 0 0)
                          (Ttable [at_depth 5; at_depth 2; at_depth 7; at_depth 4]
                                  64 0 0 0) 0)) by by_eval.
  rewrite Hc in Hrun. injection Hrun as <-.
  split; [reflexivity |].
  intros t Ht.
  destruct (Hbest t Ht) as (j & s & Hst & Hj & Hcls & Hsj & _).
  exists j, s. split; [exact Hst |]. split; [exact Hj |].
  split; [exact Hcls | exact Hsj].
Defined.

(** * Further properties *)

(** ** Board.h: plain and special moves *)

Module MoveMore.
Import Move.

Lemma special_bit_of (c x : Z) :
  0 <= x < 2 ^ 12 ->
  Z.testbit (c * 2 ^ 12 + x) 12 = Z.odd c.
Proof.
  intros Hx.
  rewrite <- (lor_shiftl_low c 12 x) by lia.
  rewrite Z.lor_spec, Z.shiftl_spec by lia.
  replace (12 - 12) with 0 by lia. rewrite Z.bit0_odd.
  rewrite <- (Z.mod_small x (2 ^ 12)) by lia.
  rewrite Z.mod_pow2_bits_high by lia. apply orb_false_r.
Qed.

Lemma packed_range (c f t : Z) :
  0 <= c <= 7 -> 0 <= f <= 63 -> 0 <= t <= 63 ->
  0 <= c * 2 ^ 12 + (f * 2 ^ 6 + t) < 2 ^ 15.
Proof.
  intros Hc Hf Ht.
  change (2 ^ 12) with 4096. change (2 ^ 6) with 64. change (2 ^ 15) with 32768. lia.
Qed.

End MoveMore.

(** X1. For squares in 0..63 a plain move is below [2^12] and has the
    special flag clear; a special move, with any of the four promotion
    values or'd in, is below [2^15] and has the special flag set. *)
Theorem move_special_flag (f t : Z) :
  0 <= f <= 63 -> 0 <= t <= 63 ->
  0 <= Move.move f t < 2 ^ 12 /\
  Z.land (Move.move f t) Move.specialMoveFlag = 0 /\
  forall promo, In promo Move.promotionFlags ->
    0 <= Z.lor (Move.specialMove f t) promo < 2 ^ 15 /\
    Z.land (Z.lor (Move.specialMove f t) promo) Move.specialMoveFlag
      = Move.specialMoveFlag.
Proof.
  intros Hf Ht.
  assert (Hbit : forall m, Z.land m Move.specialMoveFlag
                           = if Z.testbit m 12 then Move.specialMoveFlag else 0).
  { intros m. change Move.specialMoveFlag with (2 ^ 12).
    apply Z.bits_inj'. intros i Hi. rewrite Z.land_spec, Z.pow2_bits_eqb by lia.
    destruct (Z.eqb_spec 12 i) as [<- | Hne].
    - destruct (Z.testbit m 12).
      + rewrite Z.pow2_bits_eqb by lia. reflexivity.
      + rewrite Z.bits_0. reflexivity.
    - rewrite andb_false_r. destruct (Z.testbit m 12).
      + rewrite Z.pow2_bits_eqb by lia. symmetry. apply Z.eqb_neq. exact Hne.
      + rewrite Z.bits_0. reflexivity. }
  assert (Hx : 0 <= f * 2 ^ 6 + t < 2 ^ 12)
    by (change (2 ^ 6) with 64; change (2 ^ 12) with 4096; lia).
  split; [| split].
  - rewrite MoveFacts.move_packed by assumption. exact Hx.
  - rewrite Hbit, MoveFacts.move_packed by assumption.
    replace (f * 2 ^ 6 + t) with (0 * 2 ^ 12 + (f * 2 ^ 6 + t)) by lia.
    rewrite MoveMore.special_bit_of by exact Hx. reflexivity.
  - intros promo Hin.
    assert (Hc : exists c, 0 <= c <= 7 /\ Z.odd c = true /\
              Z.lor (Move.specialMove f t) promo = c * 2 ^ 12 + (f * 2 ^ 6 + t)).
    { unfold Move.specialMove.
      rewrite <- Z.lor_assoc, (Z.lor_comm (Move.move f t)), Z.lor_assoc.
      simpl in Hin. destruct Hin as [<- | [<- | [<- | [<- | []]]]].
      - exists 1. split; [lia |]. split; [reflexivity |].
        apply (MoveFacts.flags_packed 1); assumption.
      - exists 3. split; [lia |]. split; [reflexivity |].
        apply (MoveFacts.flags_packed 3); assumption.
      - exists 5. split; [lia |]. split; [reflexivity |].
        apply (MoveFacts.flags_packed 5); assumption.
      - exists 7. split; [lia |]. split; [reflexivity |].
        apply (MoveFacts.flags_packed 7); assumption. }
    destruct Hc as (c & Hc & Hodd & ->).
    split; [apply MoveMore.packed_range; assumption |].
    rewrite Hbit, MoveMore.special_bit_of, Hodd by exact Hx. reflexivity.
Qed.

Lemma move_special_flag_witness :
  Z.land (Move.move 12 28) Move.specialMoveFlag = 0 /\
  Z.land (Z.lor (Move.specialMove 52 60) Move.rookPromotionFlags) Move.specialMoveFlag
    = Move.specialMoveFlag.
Proof.
  split.
  - apply (move_special_flag 12 28); lia.
  - apply (move_special_flag 52 60); [lia | lia |].
    unfold Move.promotionFlags. simpl. tauto.
Defined.

(** X2. The encoding is injective: two plain moves, or two special moves
    with promotion values, that are equal as integers have the same
    squares and the same promotion value; and shifting a special move
    right by [promotionBits] gives back the promotion number 0..3. *)
Theorem move_encoding_injective (f t f' t' k k' : Z) :
  0 <= f <= 63 -> 0 <= t <= 63 -> 0 <= f' <= 63 -> 0 <= t' <= 63 ->
  0 <= k <= 3 -> 0 <= k' <= 3 ->
  let promo n := to_int (Z.shiftl n Move.promotionBits) in
  (Move.move f t = Move.move f' t' -> f = f' /\ t = t') /\
  Z.shiftr (Z.lor (Move.specialMove f t) (promo k)) Move.promotionBits = k /\
  (Z.lor (Move.specialMove f t) (promo k) = Z.lor (Move.specialMove f' t') (promo k') ->
   f = f' /\ t = t' /\ k = k').
Proof.
  intros Hf Ht Hf' Ht' Hk Hk' promo.
  assert (Hpacked : forall g u n, 0 <= g <= 63 -> 0 <= u <= 63 -> 0 <= n <= 3 ->
            Z.lor (Move.specialMove g u) (promo n)
            = (2 * n + 1) * 2 ^ 12 + (g * 2 ^ 6 + u)).
  { intros g u n Hg Hu Hn. unfold Move.specialMove.
    rewrite <- Z.lor_assoc, (Z.lor_comm (Move.move g u)), Z.lor_assoc.
    assert (Hflags : Z.lor Move.specialMoveFlag (promo n) = Z.shiftl (2 * n + 1) 12).
    { assert (Hcases : n = 0 \/ n = 1 \/ n = 2 \/ n = 3) by lia.
      destruct Hcases as [-> | [-> | [-> | ->]]]; reflexivity. }
    rewrite Hflags. apply MoveFacts.flags_packed; assumption. }
  split; [| split].
  - rewrite !MoveFacts.move_packed by assumption.
    change (2 ^ 6) with 64. lia.
  - rewrite Hpacked by assumption.
    rewrite Z.shiftr_div_pow2 by (unfold Move.promotionBits, Move.boardBits; lia).
    change (2 ^ Move.promotionBits) with 8192.
    change (2 ^ 12) with 4096. change (2 ^ 6) with 64.
    symmetry. apply Z.div_unique with (4096 + f * 64 + t); lia.
  - rewrite !Hpacked by assumption.
    change (2 ^ 12) with 4096. change (2 ^ 6) with 64. lia.
Qed.

Lemma move_encoding_injective_witness :
  Z.shiftr (Z.lor (Move.specialMove 52 60) Move.knightPromotionFlags)
           Move.promotionBits = 3.
Proof.
  apply (move_encoding_injective 52 60 52 60 3 3); lia.
Defined.

(** ** Engine.h and Board.h: small macros *)

(** An [int] is its value up to a multiple of [2^32]. *)
Lemma to_int_eqm (z : Z) : exists q, to_int z = z + q * 2 ^ 32.
Proof.
  unfold to_int.
  pose proof (Z.div_mod (z + 2 ^ 31) (2 ^ 32) ltac:(lia)) as H.
  exists (- ((z + 2 ^ 31) / 2 ^ 32)). lia.
Qed.

Lemma to_int_low_bits (z n : Z) : 0 <= n <= 32 -> to_int z mod 2 ^ n = z mod 2 ^ n.
Proof.
  intros Hn. destruct (to_int_eqm z) as [q ->].
  replace (2 ^ 32) with (2 ^ (32 - n) * 2 ^ n)
    by (rewrite <- Z.pow_add_r by lia; f_equal; lia).
  rewrite Z.mul_assoc. apply Z.mod_add.
  apply Z.pow_nonzero; lia.
Qed.

(** X3. [ttDepth] recovers from [ttPrio(now, depth)] the depth, for every
    date and every depth in 0..255; and for dates below [2^23], where the
    shift does not overflow, [ttPrio] orders slots by date first and by
    depth among equal dates. *)
Theorem ttDepth_ttPrio (now depth : Z) :
  0 <= depth <= 255 ->
  ttDepth (ttPrio now depth) = depth /\
  forall now' depth', 0 <= depth' <= 255 ->
    0 <= now < 2 ^ 23 -> 0 <= now' < 2 ^ 23 ->
    (ttPrio now depth < ttPrio now' depth' <->
     now < now' \/ (now = now' /\ depth < depth')).
Proof.
  intros Hd. split.
  - unfold ttDepth, ttPrio. change 255 with (Z.ones 8).
    rewrite Z.land_ones by lia.
    rewrite to_int_low_bits by lia.
    rewrite <- Z.add_mod_idemp_l by (change (2 ^ 8) with 256; lia).
    rewrite to_int_low_bits by lia.
    rewrite Z.shiftl_mul_pow2 by lia.
    rewrite Z.mod_mul by (change (2 ^ 8) with 256; lia).
    apply Z.mod_small. change (2 ^ 8) with 256. lia.
  - intros now' depth' Hd' Hn Hn'.
    assert (Hval : forall n d, 0 <= n < 2 ^ 23 -> 0 <= d <= 255 ->
              ttPrio n d = n * 256 + d).
    { intros n d Hn0 Hd0. unfold ttPrio.
      rewrite Z.shiftl_mul_pow2 by lia. change (2 ^ 8) with 256.
      change (2 ^ 23) with 8388608 in Hn0.
      rewrite (to_int_small (n * 256)) by (change (2 ^ 31) with 2147483648; lia).
      apply to_int_small. change (2 ^ 31) with 2147483648. lia. }
    rewrite !Hval by assumption. lia.
Qed.

Lemma ttDepth_ttPrio_witness :
  ttDepth (ttPrio 300 17) = 17 /\ ttPrio 2 255 < ttPrio 3 0.
Proof.
  destruct (ttDepth_ttPrio 300 17 ltac:(lia)) as [Hround _].
  destruct (ttDepth_ttPrio 2 255 ltac:(lia)) as [_ Horder].
  split; [exact Hround |].
  apply (Horder 3 0); [lia | lia | lia |]. left. lia.
Defined.

Lemma land_one (z : Z) : Z.land z 1 = z mod 2.
Proof. change 1 with (Z.ones 1). apply Z.land_ones. lia. Qed.

(** X4. The side to move is [white] or [black], whatever the sign of
    [plyNumber], and it changes with every increment of [plyNumber], an
    increment that wraps around included. *)
Theorem sideToMove_alternates (h c p : Z) :
  (sideToMove (Board h c p) = white \/ sideToMove (Board h c p) = black) /\
  sideToMove (Board h c (to_int (p + 1))) = 1 - sideToMove (Board h c p).
Proof.
  unfold sideToMove, white, black. simpl.
  rewrite !land_one.
  change 2 with (2 ^ 1). rewrite (to_int_low_bits (p + 1) 1) by lia.
  change (2 ^ 1) with 2.
  pose proof (Z.mod_pos_bound p 2 ltac:(lia)) as Hp.
  pose proof (Z.mod_pos_bound (p + 1) 2 ltac:(lia)) as Hp1.
  pose proof (Z.div_mod p 2 ltac:(lia)) as Hd.
  pose proof (Z.div_mod (p + 1) 2 ltac:(lia)) as Hd1.
  lia.
Qed.

(** ** ttRead: what it can return *)

Section ReadMore.

Context {P : Params}.

Lemma ttRead_found_key (self : Engine_t) (local : ttSlot) :
  key (ttRead_found self local) = key local.
Proof.
  unfold ttRead_found. destruct (slot_isWinLossScore local); reflexivity.
Qed.

(** The loop of lines 193-203 returns the empty slot after a bucket
    without a match, or else the first slot that verifies. *)
Lemma ttRead_scan_sound (self : Engine_t) (hash bucket : Z) :
  0 <= bucket ->
  bucket + bucketLen <= Z.of_nat (length (tt_slots (tt self))) ->
  bucket + bucketLen <= 2 ^ 64 ->
  forall (n : nat) (j : Z),
    0 <= j -> j + Z.of_nat n = bucketLen ->
    exists r, ttRead_scan self hash bucket n j = Ok r /\
      ((r = TtSlot hash 0 /\
        forall j', j <= j' < bucketLen -> ~ matches (tt self) hash bucket j') \/
       (exists i s, j <= i < bucketLen /\
          bucket_slot (tt self) bucket i = Some s /\ verified_key s = hash /\
          (forall j', j <= j' < i -> ~ matches (tt self) hash bucket j') /\
          r = ttRead_found self (TtSlot hash (data s)))).
Proof.
  intros Hb Hlen Hhi.
  induction n as [| n IH]; intros j Hj Hn.
  - exists (TtSlot hash 0). split; [reflexivity |]. left.
    split; [reflexivity |]. intros j' Hj'. lia.
  - destruct (lookup_in_range (tt_slots (tt self)) (bucket + j)) as [sj Hsj]; [lia |].
    destruct (ttRead_scan_spec self hash bucket Hb Hlen Hhi (S n) j Hj Hn)
      as [Hhit Hmiss].
    destruct (Z.eq_dec (verified_key sj) hash) as [Heq | Hne].
    + eexists. split.
      * apply (Hhit j sj); [lia | exact Hsj | exact Heq |]. intros j' Hj'. lia.
      * right. exists j, sj. split; [lia |]. split; [exact Hsj |].
        split; [exact Heq |]. split; [intros j' Hj'; lia | reflexivity].
    + destruct (IH (j + 1) ltac:(lia) ltac:(lia)) as (r & Hr & Hcases).
      assert (Hstep : ttRead_scan self hash bucket (S n) j
                      = ttRead_scan self hash bucket n (j + 1)).
      { cbn [ttRead_scan].
        rewrite to_size_t_small by (unfold bucketLen in *; lia).
        rewrite (slot_get_Some _ _ sj) by (lia || exact Hsj). cbn [bind].
        unfold set_key. cbn [key data]. fold (verified_key sj).
        destruct (Z.eqb_spec (verified_key sj) hash); [contradiction | reflexivity]. }
      assert (Hnot : ~ matches (tt self) hash bucket j).
      { intros (s' & Hs' & Hv). unfold bucket_slot in Hs'.
        rewrite Hsj in Hs'. injection Hs' as <-. contradiction. }
      exists r. split; [rewrite Hstep; exact Hr |].
      destruct Hcases as [[-> Hnone] | (i & s & Hi & Hs & Hv & Hfirst & ->)].
      * left. split; [reflexivity |]. intros j' Hj'.
        destruct (Z.eq_dec j' j) as [-> | Hjj]; [exact Hnot | apply Hnone; lia].
      * right. exists i, s. split; [lia |]. split; [exact Hs |].
        split; [exact Hv |]. split; [| reflexivity].
        intros j' Hj'.
        destruct (Z.eq_dec j' j) as [-> | Hjj]; [exact Hnot | apply Hfirst; lia].
Qed.

(** A slot whose [data] is zero has no flag set. *)
Lemma flag_of_zero (f : bitfield) (k : Z) : flag f (TtSlot k 0) = false.
Proof.
  unfold flag, bf_get, bf_wrap. cbn [data].
  rewrite Z.shiftr_0_l, Z.land_0_l, Z.bits_0, andb_false_r. reflexivity.
Qed.

End ReadMore.

(** The two ways ttRead ends. *)
Lemma ttRead_outcome {P : Params} (self : Engine_t) :
  tt_buckets_ok (tt self) ->
  exists r, ttRead self = Ok r /\ key r = probe self /\
    ((r = TtSlot (probe self) 0 /\
      no_match (tt self) (probe self) (probe_bucket self)) \/
     (exists i s,
        first_match (tt self) (probe self) (probe_bucket self) i /\
        bucket_slot (tt self) (probe_bucket self) i = Some s /\
        Z.lxor (key s) (data s) = probe self /\
        r = ttRead_found self (TtSlot (probe self) (data s)))).
Proof.
  intros (Hmask & Hlen & Hhi).
  pose proof (land_mask_range (probe self) (tt_mask (tt self)) Hmask) as Hb.
  fold (probe_bucket self) in Hb.
  destruct (ttRead_scan_sound self (probe self) (probe_bucket self)
              ltac:(lia) ltac:(lia) ltac:(lia) (Z.to_nat bucketLen) 0
              ltac:(lia) eq_refl) as (r & Hr & Hcases).
  exists r. split; [exact Hr |].
  destruct Hcases as [[-> Hnone] | (i & s & Hi & Hs & Hv & Hfirst & ->)].
  - split; [reflexivity |]. left. split; [reflexivity |].
    intros j Hj. apply Hnone. lia.
  - split; [apply ttRead_found_key |]. right. exists i, s.
    split; [| split; [exact Hs | split; [exact Hv | reflexivity]]].
    split; [lia |]. split; [exists s; split; assumption |].
    intros j Hj. apply Hfirst. lia.
Qed.

(** X5. On every table whose buckets lie in it, ttRead returns a slot
    whose key is the probe hash: either the empty slot, exactly when no
    slot of the probed bucket verifies, or the data of the first slot of
    the bucket whose [key ^ data] is the probe hash (lines 197-201
    applied).  It never returns data from a slot that does not verify. *)
Theorem ttRead_sound {P : Params} (self : Engine_t) :
  tt_buckets_ok (tt self) ->
  exists r, ttRead self = Ok r /\ key r = probe self /\
    ((r = TtSlot (probe self) 0 /\
      no_match (tt self) (probe self) (probe_bucket self)) \/
     (exists i s,
        first_match (tt self) (probe self) (probe_bucket self) i /\
        bucket_slot (tt self) (probe_bucket self) i = Some s /\
        Z.lxor (key s) (data s) = probe self /\
        r = ttRead_found self (TtSlot (probe self) (data s)))).
Proof.
  intros Hbuckets. exact (ttRead_outcome self Hbuckets).
Qed.

Lemma ttRead_sound_witness :
  let self := blank_engine 4 0 3 0 (Board 77 5 13) 10 in
  exists r, ttRead self = Ok r /\ key r = probe self.
Proof.
  intros self.
  destruct (ttRead_sound self ltac:(by_eval)) as (r & Hr & Hk & _).
  exists r. split; [exact Hr | exact Hk].
Defined.

(** A zero slot that verifies the probe reads as the empty slot does. *)
Lemma ttRead_of_zeroes {P : Params} (self : Engine_t) :
  tt_buckets_ok (tt self) -> all_zero (tt_slots (tt self)) ->
  ttRead self = Ok (TtSlot (probe self) 0).
Proof.
  intros Hbuckets Hzero.
  destruct (ttRead_outcome self Hbuckets) as (r & Hr & _ & Hcases).
  rewrite Hr. f_equal.
  destruct Hcases as [[-> _] | (i & s & _ & Hs & _ & ->)]; [reflexivity |].
  unfold bucket_slot in Hs. rewrite (Hzero _ _ Hs). cbn [data].
  unfold ttRead_found, slot_isWinLossScore. rewrite flag_of_zero. reflexivity.
Qed.

(** X6. On a table whose slots are all zero, ttRead returns the empty
    slot (the probe hash as key, data 0) for every board hash and every
    baseHash, the probe hash 0 included, which the zero slots verify. *)
Theorem ttRead_all_zero {P : Params} (self : Engine_t) :
  tt_buckets_ok (tt self) -> all_zero (tt_slots (tt self)) ->
  ttRead self = Ok (TtSlot (probe self) 0).
Proof.
  intros Hbuckets Hzero. exact (ttRead_of_zeroes self Hbuckets Hzero).
Qed.

Lemma all_zero_replicate (n : nat) : all_zero (replicate n (TtSlot 0 0)).
Proof.
  intros i s Hs. apply lookup_replicate in Hs. apply Hs.
Qed.

Lemma ttRead_all_zero_witness :
  let self := blank_engine 8 4 3 99 (Board 77 5 13) 10 in
  ttRead self = Ok (TtSlot (Z.lxor 77 99) 0).
Proof.
  intros self.
  apply (ttRead_all_zero self ltac:(by_eval) (all_zero_replicate 8)).
Defined.

(** ** ttWrite: what it leaves alone *)

Section WriteMore.

Context {P : Params}.

Lemma correct_high_key (self : Engine_t) (score : Z) (s0 s1 : ttSlot) :
  correct_high self score s0 = Next s1 -> key s1 = key s0.
Proof.
  unfold correct_high, and_then.
  destruct (maxEval <? score); [| intros [= <-]; reflexivity].
  destruct (maxEval + 1 <? score).
  - destruct (_ && _); [discriminate |].
    destruct (_ <? maxMate); [| discriminate]. intros [= <-]. reflexivity.
  - intros [= <-]. reflexivity.
Qed.

Lemma correct_low_key (self : Engine_t) (score : Z) (s0 s1 : ttSlot) :
  correct_low self score s0 = Next s1 -> key s1 = key s0.
Proof.
  unfold correct_low, and_then.
  destruct (score <? minEval); [| intros [= <-]; reflexivity].
  destruct (score <? minEval - 1).
  - destruct (_ && _); [discriminate |].
    destruct (_ >=? minMate); [| discriminate]. intros [= <-]. reflexivity.
  - intros [= <-]. reflexivity.
Qed.

(** Lines 107-152 never change the key, whatever the layout of [data]. *)
Lemma ttWrite_slot_key (self : Engine_t) (slot s : ttSlot) (depth score alpha beta : Z) :
  ttWrite_slot self slot depth score alpha beta = Next s -> key s = key slot.
Proof.
  unfold ttWrite_slot.
  destruct (older_prevails slot score); [discriminate |].
  destruct (correct_high self score (set_fields self slot depth score alpha beta))
    as [s1 | v | e] eqn:Hhigh; simpl; try discriminate.
  intros Hlow.
  rewrite (correct_low_key _ _ _ _ Hlow), (correct_high_key _ _ _ _ Hhigh).
  reflexivity.
Qed.

(** What lines 107-152 return when they return. *)
Lemma ttWrite_slot_return (self : Engine_t) (slot : ttSlot) (depth score alpha beta v : Z) :
  ttWrite_slot self slot depth score alpha beta = Return v ->
  v = score \/ v = slot_score slot.
Proof.
  unfold ttWrite_slot.
  destruct (older_prevails slot score); [intros [= <-]; right; reflexivity |].
  assert (Hhigh : forall s0 w, correct_high self score s0 = Return w -> w = score).
  { intros s0 w. unfold correct_high, and_then.
    destruct (maxEval <? score); [| discriminate].
    destruct (maxEval + 1 <? score); [| discriminate].
    destruct (_ && _); [intros [= <-]; reflexivity |].
    destruct (_ <? maxMate); discriminate. }
  assert (Hlow : forall s0 w, correct_low self score s0 = Return w -> w = score).
  { intros s0 w. unfold correct_low, and_then.
    destruct (score <? minEval); [| discriminate].
    destruct (score <? minEval - 1); [| discriminate].
    destruct (_ && _); [intros [= <-]; reflexivity |].
    destruct (_ >=? minMate); discriminate. }
  destruct (correct_high self score (set_fields self slot depth score alpha beta))
    as [s1 | w | e] eqn:Hh; simpl.
  - intros Hl. left. apply (Hlow _ _ Hl).
  - intros [= <-]. left. apply (Hhigh _ _ Hh).
  - discriminate.
Qed.

(** The loop of lines 161-171 ends on the initial [i] or on a place it
    visited. *)
Lemma ttWrite_scan_range (self : Engine_t) (hash bucket : Z) :
  forall (n : nat) (j i iPrio r : Z),
    ttWrite_scan self hash bucket n j i iPrio = Ok r ->
    r = i \/ j <= r < j + Z.of_nat n.
Proof.
  induction n as [| n IH]; intros j i iPrio r.
  - simpl. intros [= <-]. left. reflexivity.
  - cbn [ttWrite_scan].
    destruct (slot_get (tt_slots (tt self)) (to_size_t (bucket + j))) as [local | e];
      [| discriminate].
    cbn [bind].
    destruct (Z.lxor (key local) (data local) =? hash).
    + intros [= <-]. right. lia.
    + destruct (prio self (to_int (to_size_t (bucket + j)))) as [jPrio | e];
        [| discriminate].
      cbn [bind].
      destruct (jPrio <? iPrio); intros Hrun; apply IH in Hrun; lia.
Qed.

(** A ttWrite that returns has changed at most one slot, a slot of the
    bucket of the key. *)
Lemma ttWrite_changes_one (self self' : Engine_t) (slot : ttSlot)
    (depth score alpha beta v : Z) :
  tt_buckets_ok (tt self) ->
  ttWrite self slot depth score alpha beta = Ok (v, self') ->
  let bucket := Z.land (key slot) (tt_mask (tt self)) in
  (v = score \/ v = slot_score slot) /\
  exists i w, 0 <= i < bucketLen /\
    (self' = self \/
     self' = with_slots self (<[Z.to_nat (bucket + i) := w]> (tt_slots (tt self)))).
Proof.
  intros (Hmask & Hlen & Hhi) Hrun bucket.
  unfold ttWrite in Hrun.
  destruct (ttWrite_slot self slot depth score alpha beta) as [s | w | e] eqn:Hslot.
  - rewrite (ttWrite_slot_key _ _ _ _ _ _ _ Hslot) in Hrun. fold bucket in Hrun.
    destruct (ttWrite_scan self (key slot) bucket (Z.to_nat bucketLen) 0 (-1) maxInt)
      as [i | e] eqn:Hscan; [| discriminate].
    cbn [bind] in Hrun. unfold assert in Hrun.
    destruct (Z.geb_spec i 0) as [Hi | Hi]; [| discriminate].
    cbn [bind] in Hrun.
    apply ttWrite_scan_range in Hscan.
    assert (Hi4 : 0 <= i < bucketLen) by (unfold bucketLen in *; lia).
    pose proof (land_mask_range (key slot) (tt_mask (tt self)) Hmask) as Hb.
    fold bucket in Hb.
    rewrite to_size_t_small in Hrun by (unfold bucketLen in *; lia).
    rewrite slot_put_ok in Hrun by lia. cbn [bind] in Hrun.
    injection Hrun as <- <-.
    split; [left; reflexivity |].
    eexists i, _. split; [exact Hi4 |]. right. reflexivity.
  - injection Hrun as <- <-.
    split; [apply (ttWrite_slot_return _ _ _ _ _ _ _ Hslot) |].
    exists 0, slot. split; [unfold bucketLen; lia | left; reflexivity].
  - discriminate.
Qed.

End WriteMore.

Lemma tt_wf_buckets (t : ttable) : tt_wf t -> tt_buckets_ok t.
Proof.
  intros Hwf. destruct (tt_wf_inv t Hwf) as (k & Hk & Hmask & _ & Hlen).
  pose proof (mask_of_count k ltac:(lia)) as Hc.
  pose proof (mask_of_value k ltac:(lia)) as Hv.
  pose proof (pow2_pos k ltac:(lia)) as Hp.
  assert (2 ^ (k + 2) < 2 ^ 64) by (apply Z.pow_lt_mono_r; lia).
  unfold tt_buckets_ok. rewrite Hmask. lia.
Qed.

(** X7. A ttWrite that returns gives back [score] or the stored
    [slot.score]; it leaves the board, the root, the size, the mask, the
    date and the base hash as they were, keeps the number of slots, and
    changes at most one slot, which lies in the bucket of the key; a
    well-formed table stays well-formed. *)
Theorem ttWrite_frame {P : Params} (self self' : Engine_t) (slot : ttSlot)
    (depth score alpha beta v : Z) :
  tt_buckets_ok (tt self) ->
  ttWrite self slot depth score alpha beta = Ok (v, self') ->
  let bucket := Z.land (key slot) (tt_mask (tt self)) in
  (v = score \/ v = slot_score slot) /\
  same_but_slots self self' /\
  length (tt_slots (tt self')) = length (tt_slots (tt self)) /\
  (exists i, 0 <= i < bucketLen /\
     forall ix : nat, ix <> Z.to_nat (bucket + i) ->
       tt_slots (tt self') !! ix = tt_slots (tt self) !! ix) /\
  (tt_wf (tt self) -> tt_wf (tt self')).
Proof.
  intros Hbuckets Hrun bucket.
  destruct (ttWrite_changes_one self self' slot depth score alpha beta v Hbuckets Hrun)
    as (Hv & i & w & Hi & Hcases).
  fold bucket in Hcases.
  split; [exact Hv |].
  destruct Hcases as [-> | ->].
  - split; [unfold same_but_slots; symmetry; apply with_slots_same |].
    split; [reflexivity |]. split; [| tauto].
    exists i. split; [exact Hi | reflexivity].
  - split; [reflexivity |].
    cbn [with_slots tt tt_slots].
    split; [apply length_insert |]. split.
    + exists i. split; [exact Hi |]. intros ix Hix.
      apply list_lookup_insert_ne. congruence.
    + intros (k & Hk & Hm & Hl & Hs & Hlt). exists k.
      cbn [tt_mask tt_size tt_slots]. rewrite length_insert. tauto.
Qed.

Lemma ttWrite_frame_witness :
  let self := blank_engine 8 4 3 0 (Board 77 5 13) 10 in
  exists v self',
    ttWrite self (TtSlot 77 0) 9 120 0 100 = Ok (v, self') /\
    v = 120 /\
    length (tt_slots (tt self')) = 8%nat /\
    tt_slots (tt self') !! 0%nat = Some (TtSlot 0 0).
Proof.
  intros self.
  destruct (ttWrite self (TtSlot 77 0) 9 120 0 100) as [[v self'] | e] eqn:Hrun;
    [| vm_compute in Hrun; discriminate].
  destruct (ttWrite_frame self self' (TtSlot 77 0) 9 120 0 100 v
              ltac:(by_eval) Hrun) as (_ & _ & Hlen & _ & _).
  exists v, self'. split; [reflexivity |].
  split; [vm_compute in Hrun; congruence |].
  split; [exact Hlen |].
  vm_compute in Hrun. injection Hrun as _ <-. reflexivity.
Defined.

(** ** ttRead and ttWrite in different buckets *)

Section Buckets.

Context {P : Params}.

(** ttRead looks at the four slots of its bucket, the board and the root
    only. *)
Lemma ttRead_scan_congr (e1 e2 : Engine_t) (h bucket1 bucket2 : Z) :
  plyNumber (board e1) = plyNumber (board e2) ->
  rootPlyNumber e1 = rootPlyNumber e2 ->
  forall (n : nat) (i : Z),
    (forall j, i <= j < i + Z.of_nat n ->
       slot_get (tt_slots (tt e1)) (to_size_t (bucket1 + j)) =
       slot_get (tt_slots (tt e2)) (to_size_t (bucket2 + j))) ->
    ttRead_scan e1 h bucket1 n i = ttRead_scan e2 h bucket2 n i.
Proof.
  intros Hply Hroot. induction n as [| n IH]; intros i Hsame; [reflexivity |].
  cbn [ttRead_scan]. rewrite (Hsame i) by lia.
  destruct (slot_get (tt_slots (tt e2)) (to_size_t (bucket2 + i))) as [s | e];
    [| reflexivity].
  cbn [bind]. rewrite IH by (intros j Hj; apply Hsame; lia).
  unfold ttRead_found. rewrite Hply, Hroot. reflexivity.
Qed.

(** The first slot of a bucket is at a multiple of [bucketLen]. *)
Lemma bucket_aligned (x k : Z) : 0 <= k -> Z.land x (mask_of k) mod 4 = 0.
Proof.
  intros Hk. change 4 with (2 ^ 2). rewrite <- Z.land_ones by lia.
  unfold mask_of. apply Z.bits_inj'. intros n Hn.
  rewrite Z.bits_0, !Z.land_spec, Z.shiftl_spec, (Z.testbit_ones 2) by lia.
  destruct (Z.ltb_spec n 2) as [Hlt | Hge].
  - rewrite (Z.testbit_neg_r _ (n - 2)) by lia.
    rewrite Bool.andb_false_r. reflexivity.
  - rewrite !Bool.andb_false_r. reflexivity.
Qed.

Lemma slot_get_insert_ne (l : list ttSlot) (i j : Z) (w : ttSlot) :
  0 <= i -> 0 <= j -> i <> j ->
  slot_get (<[Z.to_nat i := w]> l) j = slot_get l j.
Proof.
  intros Hi Hj Hne. unfold slot_get.
  rewrite list_lookup_insert_ne by lia. reflexivity.
Qed.

End Buckets.

(** X8. A ttWrite does not disturb the other buckets: in a well-formed
    table, a position whose bucket is not the bucket of the written key
    reads after the write exactly as before it. *)
Theorem ttWrite_other_bucket {P : Params} (self self' : Engine_t) (slot : ttSlot)
    (depth score alpha beta v : Z) (b : Board_t) (root : Z) :
  tt_wf (tt self) ->
  ttWrite self slot depth score alpha beta = Ok (v, self') ->
  probe_bucket (Engine b (tt self) root) <> Z.land (key slot) (tt_mask (tt self)) ->
  ttRead (Engine b (tt self') root) = ttRead (Engine b (tt self) root).
Proof.
  intros Hwf Hrun Hother.
  pose proof (tt_wf_buckets _ Hwf) as Hbuckets.
  destruct (ttWrite_changes_one self self' slot depth score alpha beta v Hbuckets Hrun)
    as (_ & i & w & Hi & [-> | ->]); [reflexivity |].
  destruct (tt_wf_inv _ Hwf) as (k & Hk & Hmask & _).
  unfold probe_bucket, probe in Hother. cbn [board tt hash] in Hother.
  unfold ttRead. cbn [board tt with_slots tt_mask tt_baseHash].
  set (h := Z.lxor (hash b) (tt_baseHash (tt self))) in *.
  destruct Hbuckets as (Hm & Hlen & Hhi).
  pose proof (land_mask_range h (tt_mask (tt self)) Hm) as Hb1.
  pose proof (land_mask_range (key slot) (tt_mask (tt self)) Hm) as Hb2.
  rewrite Hmask in *. fold (mask_of k) in *.
  pose proof (bucket_aligned h k ltac:(lia)) as Ha1.
  pose proof (bucket_aligned (key slot) k ltac:(lia)) as Ha2.
  apply ttRead_scan_congr; [reflexivity | reflexivity |].
  intros j Hj. cbn [tt tt_slots].
  unfold bucketLen in *.
  rewrite to_size_t_small by lia.
  apply slot_get_insert_ne; try lia.
  pose proof (Z.div_mod (Z.land h (mask_of k)) 4 ltac:(lia)).
  pose proof (Z.div_mod (Z.land (key slot) (mask_of k)) 4 ltac:(lia)).
  change (Z.to_nat 4) with 4%nat in Hj.
  lia.
Qed.

Lemma ttWrite_other_bucket_witness :
  let self := blank_engine 8 4 3 0 (Board 77 5 13) 10 in
  exists v self',
    ttWrite self (TtSlot 77 0) 9 120 0 100 = Ok (v, self') /\
    ttRead (Engine (Board 3 0 0) (tt self') 10) =
    ttRead (Engine (Board 3 0 0) (tt self) 10).
Proof.
  intros self.
  destruct (ttWrite self (TtSlot 77 0) 9 120 0 100) as [[v self'] | e] eqn:Hrun;
    [| vm_compute in Hrun; discriminate].
  exists v, self'. split; [reflexivity |].
  apply (ttWrite_other_bucket self self' (TtSlot 77 0) 9 120 0 100 v (Board 3 0 0) 10).
  - exists 1. by_eval.
  - exact Hrun.
  - vm_compute. discriminate.
Defined.

(** ** The score through ttWrite and ttRead *)

Section RoundTrip.

Context {P : Params}.
Hypothesis HP : params_ok P.



End RoundTrip.



(** ** The order of priorities *)

Lemma slot_age_value {P : Params} (now : Z) (s : ttSlot) :
  params_ok P ->
  slot_age now s = (now - slot_date s) mod 2 ^ ttDateBits /\
  0 <= slot_age now s < 2 ^ ttDateBits.
Proof.
  intros HP.
  pose proof (dateBits_nonneg P HP) as Hdate.
  pose proof (depthBits_nonneg P HP) as Hdepth.
  pose proof (prio_fits_int P HP) as Hsum.
  unfold slot_age, ones. rewrite Z.land_ones by exact Hdate.
  assert (Hage : 0 <= (now - slot_date s) mod 2 ^ ttDateBits < 2 ^ ttDateBits)
    by (apply Z.mod_pos_bound; apply Z.pow_pos_nonneg; lia).
  assert (Hpd : 2 ^ ttDateBits <= 2 ^ 30) by (apply Z.pow_le_mono_r; lia).
  rewrite to_int_small by (change (2 ^ 30) with 1073741824 in Hpd;
                           change (2 ^ 31) with 2147483648; lia).
  split; [reflexivity | exact Hage].
Qed.

(** X10. When the depth field is no wider than [ttDepthBits], [prio]
    orders the slots by age first and by depth second: a younger slot has
    the higher priority whatever the depths, and of two slots of one age
    the deeper has the higher priority; a slot of the current date has its
    depth for priority, and no slot has more than its depth. *)
Theorem prio_age_then_depth {P : Params} (now : Z) (a b : ttSlot) :
  params_ok P -> bf_width f_depth <= ttDepthBits ->
  (slot_age now a < slot_age now b -> slot_prio now b < slot_prio now a) /\
  (slot_age now a = slot_age now b ->
   (slot_prio now a < slot_prio now b <-> slot_depth a < slot_depth b)) /\
  (slot_age now a = 0 -> slot_prio now a = slot_depth a) /\
  slot_prio now a <= slot_depth a.
Proof.
  intros HP Hwidth.
  destruct (slot_prio_value HP now a) as [Hpa _].
  destruct (slot_prio_value HP now b) as [Hpb _].
  destruct (slot_age_value now a HP) as [Haa Hra].
  destruct (slot_age_value now b HP) as [Hab Hrb].
  rewrite <- Haa in Hpa. rewrite <- Hab in Hpb.
  pose proof (depthBits_nonneg P HP) as Hdepth.
  destruct (layout P HP) as [Hok _ _ Hdu _ _ _ _ _].
  unfold fields in Hok. apply Forall_cons in Hok as [_ Hok].
  apply Forall_cons in Hok as [(_ & Hw & _) _].
  assert (Hda : 0 <= slot_depth a < 2 ^ bf_width f_depth)
    by (apply bf_wrap_unsigned_range; [exact Hdu | lia]).
  assert (Hdb : 0 <= slot_depth b < 2 ^ bf_width f_depth)
    by (apply bf_wrap_unsigned_range; [exact Hdu | lia]).
  assert (Hpw : 2 ^ bf_width f_depth <= 2 ^ ttDepthBits)
    by (apply Z.pow_le_mono_r; lia).
  assert (H0 : 0 < 2 ^ ttDepthBits) by (apply Z.pow_pos_nonneg; lia).
  rewrite Hpa, Hpb.
  split; [| split; [| split]].
  - intros Hlt. nia.
  - intros Heq. rewrite Heq. lia.
  - intros Hz. rewrite Hz. lia.
  - nia.
Qed.

Lemma prio_age_then_depth_witness :
  let young := set_field f_depth (set_field f_date (TtSlot 0 0) 7) 1 in
  let old := set_field f_depth (set_field f_date (TtSlot 0 0) 6) 200 in
  slot_prio 7 old < slot_prio 7 young /\ slot_prio 7 young = 1.
Proof.
  intros young old.
  destruct (prio_age_then_depth 7 young old example_params_ok ltac:(simpl; lia))
    as (Hyounger & _ & Hnow & _).
  split; [apply Hyounger; vm_compute; reflexivity |].
  rewrite Hnow; reflexivity.
Defined.

(** ** ttSetSize under any allocator *)

(** The retries of lines 74-81 end on the largest size, of those tried,
    that the allocator grants, and give up when it grants none. *)
Lemma ttSetSize_realloc_largest (h : allocator) (old : list ttSlot) :
  forall (fuel : nat) (k : Z),
    0 <= k -> k <= Z.of_nat fuel ->
    match ttSetSize_realloc fuel h old (size_of k) (mask_of k) with
    | Ok (newSlots, newSize, newMask) =>
        exists k', 0 <= k' <= k /\
          newSize = size_of k' /\ newMask = mask_of k' /\
          alloc_ok h (size_of k') = true /\
          newSlots = resized (alloc_junk h) old (Z.to_nat (2 ^ (k' + 2))) /\
          forall j, k' < j <= k -> alloc_ok h (size_of j) = false
    | Err e =>
        e = Aborted /\ forall j, 0 <= j <= k -> alloc_ok h (size_of j) = false
    end.
Proof.
  induction fuel as [| fuel IH]; intros k Hk Hfuel.
  - replace k with 0 by lia. cbn [ttSetSize_realloc]. unfold realloc.
    destruct (alloc_ok h (size_of 0)) eqn:Hok.
    + exists 0. rewrite size_of_slots by lia.
      repeat split; try (lia || assumption || reflexivity); intros j Hj; lia.
    + rewrite mask_of_pos by lia. split; [reflexivity |].
      intros j Hj. replace j with 0 by lia. exact Hok.
  - cbn [ttSetSize_realloc]. unfold realloc.
    destruct (alloc_ok h (size_of k)) eqn:Hok.
    + exists k. rewrite size_of_slots by lia.
      repeat split; try (lia || assumption || reflexivity); intros j Hj; lia.
    + rewrite mask_of_pos by lia.
      destruct (Z.ltb_spec 0 k) as [Hpos | Hzero].
      * rewrite size_of_halved, mask_of_halved by lia.
        specialize (IH (k - 1) ltac:(lia) ltac:(lia)).
        destruct (ttSetSize_realloc fuel h old (size_of (k - 1)) (mask_of (k - 1)))
          as [[[newSlots newSize] newMask] | e].
        -- destruct IH as (k' & Hk' & Hs & Hm & Hgranted & Hslots & Hrefused).
           exists k'. repeat split; try (lia || assumption).
           intros j Hj. destruct (Z.eq_dec j k) as [-> | Hne]; [exact Hok |].
           apply Hrefused. lia.
        -- destruct IH as [He Hrefused]. split; [exact He |].
           intros j Hj. destruct (Z.eq_dec j k) as [-> | Hne]; [exact Hok |].
           apply Hrefused. lia.
      * split; [reflexivity |]. intros j Hj. replace j with k by lia. exact Hok.
Qed.

Section SetSizeSteps.

Context {P : Params}.

(** The shrink loop moves slots and touches nothing else; it fails by a
    fault only. *)
Lemma ttSetSize_shrink_frame (newMask : Z) :
  forall (n : nat) (self : Engine_t) (i : Z),
    match ttSetSize_shrink n self newMask i with
    | Ok self' =>
        self' = with_slots self (tt_slots (tt self')) /\
        length (tt_slots (tt self')) = length (tt_slots (tt self))
    | Err e => e = Fault
    end.
Proof.
  induction n as [| n IH]; intros self i.
  - cbn [ttSetSize_shrink]. split; [symmetry; apply with_slots_same | reflexivity].
  - cbn [ttSetSize_shrink]. unfold prio.
    destruct (slot_get (tt_slots (tt self)) (to_int _)) as [st | e] eqn:Ht;
      [| unfold slot_get in Ht; cbn [bind];
         destruct (_ <? 0); [injection Ht as <-; reflexivity |];
         destruct (_ !! _); [discriminate | injection Ht as <-; reflexivity]].
    cbn [bind].
    destruct (slot_get (tt_slots (tt self)) (to_int i)) as [si | e] eqn:Hi;
      [| unfold slot_get in Hi; cbn [bind];
         destruct (_ <? 0); [injection Hi as <-; reflexivity |];
         destruct (_ !! _); [discriminate | injection Hi as <-; reflexivity]].
    cbn [bind].
    destruct (slot_prio (tt_now (tt self)) st <? slot_prio (tt_now (tt self)) si).
    + destruct (slot_get (tt_slots (tt self)) i) as [s | e] eqn:Hs;
        [| unfold slot_get in Hs; cbn [bind];
           destruct (_ <? 0); [injection Hs as <-; reflexivity |];
           destruct (_ !! _); [discriminate | injection Hs as <-; reflexivity]].
      cbn [bind]. unfold slot_put.
      destruct (_ && _); [| reflexivity].
      cbn [bind].
      specialize (IH (with_slots self
                        (<[Z.to_nat (Z.land i (to_size_t (to_size_t (newMask + bucketLen) - 1)))
                           := s]> (tt_slots (tt self)))) (i + 1)).
      destruct (ttSetSize_shrink n _ newMask (i + 1)) as [self' | e]; [| exact IH].
      destruct IH as [Hsame Hlen]. cbn [with_slots tt tt_slots] in Hlen.
      rewrite length_insert in Hlen. split; [| exact Hlen].
      rewrite Hsame at 1. destruct self as [b [sl sz mk nw bh] r]. reflexivity.
    + cbn [bind]. apply IH.
Qed.

(** The expand loop keeps the number of slots; it fails by a fault only. *)
Lemma ttSetSize_expand_frame (oldMask : Z) :
  forall (n : nat) (l : list ttSlot) (i : Z),
    match ttSetSize_expand n oldMask l i with
    | Ok l' => length l' = length l
    | Err e => e = Fault
    end.
Proof.
  induction n as [| n IH]; intros l i.
  - reflexivity.
  - cbn [ttSetSize_expand].
    destruct (slot_get l _) as [s | e] eqn:Hs;
      [| unfold slot_get in Hs; cbn [bind];
         destruct (_ <? 0); [injection Hs as <-; reflexivity |];
         destruct (_ !! _); [discriminate | injection Hs as <-; reflexivity]].
    cbn [bind]. unfold slot_put.
    destruct (_ && _); [| reflexivity].
    cbn [bind]. specialize (IH (<[Z.to_nat i := s]> l) (i + 1)).
    destruct (ttSetSize_expand n oldMask _ (i + 1)) as [l' | e]; [| exact IH].
    rewrite IH. apply length_insert.
Qed.

Lemma memset_bucket_frame (l : list ttSlot) :
  match memset_bucket l with
  | Ok l' => length l' = length l
  | Err e => e = Fault
  end.
Proof.
  unfold memset_bucket.
  destruct (Z.ltb_spec (Z.of_nat (length l)) bucketLen) as [Hlt | Hge]; [reflexivity |].
  rewrite length_app, length_replicate, length_drop. unfold bucketLen in *. lia.
Qed.

(** The steps of a ttSetSize that returns. *)
Lemma ttSetSize_steps (h : allocator) (self self' : Engine_t) (size : Z) :
  0 <= size < 2 ^ 64 -> ttSetSize h self size = Ok self' ->
  exists (K k' : Z) (shrunk : Engine_t) (l1 l2 : list ttSlot),
    0 <= k' <= K /\ K < 58 /\ largest_fit size = size_of K /\
    (if size_of K <? tt_size (tt self)
     then ttSetSize_shrink (Z.to_nat (to_size_t (tt_mask (tt self) + bucketLen)))
                           self (mask_of K) 0
     else Ok self) = Ok shrunk /\
    alloc_ok h (size_of k') = true /\
    (forall j, k' < j <= K -> alloc_ok h (size_of j) = false) /\
    (match tt_slots (tt shrunk) with
     | [] => memset_bucket
               (resized (alloc_junk h) (tt_slots (tt shrunk)) (Z.to_nat (2 ^ (k' + 2))))
     | _ :: _ => Ok (resized (alloc_junk h) (tt_slots (tt shrunk))
                             (Z.to_nat (2 ^ (k' + 2))))
     end) = Ok l1 /\
    (if tt_size (tt shrunk) <? size_of k'
     then ttSetSize_expand (Z.to_nat (to_size_t (mask_of k' + bucketLen)))
                           (tt_mask (tt shrunk)) l1 0
     else Ok l1) = Ok l2 /\
    self' = Engine (board shrunk)
                   (Ttable l2 (size_of k') (mask_of k')
                           (tt_now (tt shrunk)) (tt_baseHash (tt shrunk)))
                   (rootPlyNumber shrunk).
Proof.
  intros Hsize. unfold ttSetSize.
  destruct (ttSetSize_fit_largest size Hsize) as (K & HK & Hfit & Hbounds & Hrun).
  assert (HK58 : K < 58).
  { apply size_of_bound; [exact HK |].
    assert (Z.max size (size_of 0) < 2 ^ 64).
    { rewrite size_of_value. change (64 * 2 ^ 0) with 64.
      change (2 ^ 64) with 18446744073709551616 in *. lia. }
    lia. }
  change (assert (sizeof_ttSlot =? 2 * sizeof_uint64_t)) with (@Ok unit ()).
  cbn [bind]. rewrite Hrun. cbn [bind]. cbv beta iota.
  destruct (if size_of K <? tt_size (tt self) then _ else _) as [shrunk | e] eqn:Hshrunk;
    [| discriminate].
  cbn [bind].
  pose proof (ttSetSize_realloc_largest h (tt_slots (tt shrunk)) 64%nat K HK ltac:(lia))
    as Hre.
  destruct (ttSetSize_realloc 64 h (tt_slots (tt shrunk)) (size_of K) (mask_of K))
    as [[[newSlots newSize] newMask] | e]; [| discriminate].
  destruct Hre as (k' & Hk' & -> & -> & Hgranted & -> & Hrefused).
  cbn [bind]. cbv beta iota.
  destruct (match tt_slots (tt shrunk) with [] => _ | _ :: _ => _ end) as [l1 | e] eqn:Hl1;
    [| discriminate].
  cbn [bind].
  destruct (if tt_size (tt shrunk) <? size_of k' then _ else _) as [l2 | e] eqn:Hl2;
    [| discriminate].
  cbn [bind]. intros [= <-].
  exists K, k', shrunk, l1, l2.
  repeat split; try (lia || assumption || reflexivity).
Qed.

(** A ttSetSize that fails: by a fault, or given up after the allocator
    refused every size down to one bucket. *)
Lemma ttSetSize_failure (h : allocator) (self : Engine_t) (size : Z) (e : error) :
  0 <= size < 2 ^ 64 -> ttSetSize h self size = Err e ->
  e = Fault \/
  (e = Aborted /\
   forall n, 0 <= n -> size_of n <= Z.max size (size_of 0) ->
     alloc_ok h (size_of n) = false).
Proof.
  intros Hsize. unfold ttSetSize.
  destruct (ttSetSize_fit_largest size Hsize) as (K & HK & Hfit & Hbounds & Hrun).
  assert (HK58 : K < 58).
  { apply size_of_bound; [exact HK |].
    assert (Z.max size (size_of 0) < 2 ^ 64).
    { rewrite size_of_value. change (64 * 2 ^ 0) with 64.
      change (2 ^ 64) with 18446744073709551616 in *. lia. }
    lia. }
  change (assert (sizeof_ttSlot =? 2 * sizeof_uint64_t)) with (@Ok unit ()).
  cbn [bind]. rewrite Hrun. cbn [bind]. cbv beta iota.
  pose proof (ttSetSize_shrink_frame (mask_of K)
                (Z.to_nat (to_size_t (tt_mask (tt self) + bucketLen))) self 0) as Hsh.
  destruct (if size_of K <? tt_size (tt self) then _ else _) as [shrunk | e0] eqn:Hshrunk.
  2: { cbn [bind]. intros [= <-]. left.
       destruct (size_of K <? tt_size (tt self)); [| discriminate].
       rewrite Hshrunk in Hsh. exact Hsh. }
  cbn [bind]. clear Hsh.
  pose proof (ttSetSize_realloc_largest h (tt_slots (tt shrunk)) 64%nat K HK ltac:(lia))
    as Hre.
  destruct (ttSetSize_realloc 64 h (tt_slots (tt shrunk)) (size_of K) (mask_of K))
    as [[[newSlots newSize] newMask] | e0].
  2: { cbn [bind]. intros [= <-]. right. destruct Hre as [He Hrefused].
       split; [exact He |]. intros n Hn Hle. apply Hrefused.
       split; [exact Hn |]. apply size_of_lt; lia. }
  destruct Hre as (k' & Hk' & -> & -> & Hgranted & -> & Hrefused).
  cbn [bind]. cbv beta iota.
  pose proof (memset_bucket_frame
                (resized (alloc_junk h) (tt_slots (tt shrunk)) (Z.to_nat (2 ^ (k' + 2)))))
    as Hmem.
  destruct (match tt_slots (tt shrunk) with [] => _ | _ :: _ => _ end) as [l1 | e0] eqn:Hl1.
  2: { cbn [bind]. intros [= <-]. left.
       destruct (tt_slots (tt shrunk)); [| discriminate].
       rewrite Hl1 in Hmem. exact Hmem. }
  cbn [bind]. clear Hmem.
  pose proof (ttSetSize_expand_frame (tt_mask (tt shrunk))
                (Z.to_nat (to_size_t (mask_of k' + bucketLen))) l1 0) as Hex.
  destruct (if tt_size (tt shrunk) <? size_of k' then _ else _) as [l2 | e0] eqn:Hl2.
  2: { cbn [bind]. intros [= <-]. left.
       destruct (tt_size (tt shrunk) <? size_of k'); [| discriminate].
       rewrite Hl2 in Hex. exact Hex. }
  cbn [bind]. discriminate.
Qed.

End SetSizeSteps.

(** The first ttSetSize, under any allocator: a zeroed table of the size
    that was granted, or the allocation given up. *)
Lemma ttSetSize_null_outcome {P : Params} (h : allocator) (self : Engine_t) (size : Z) :
  tt_null (tt self) -> 0 <= size < 2 ^ 64 ->
  match ttSetSize h self size with
  | Ok self' =>
      exists k', 0 <= k' < 58 /\
        self' = Engine (board self)
                       (Ttable (replicate (Z.to_nat (2 ^ (k' + 2))) (TtSlot 0 0))
                               (size_of k') (mask_of k')
                               (tt_now (tt self)) (tt_baseHash (tt self)))
                       (rootPlyNumber self)
  | Err e => e = Aborted
  end.
Proof.
  intros (Hslots & Hsz & Hmask) Hsize.
  destruct (ttSetSize_fit_largest size Hsize) as (K & HK & Hfit & Hbounds & Hrun).
  assert (HK58 : K < 58).
  { apply size_of_bound; [exact HK |].
    assert (Z.max size (size_of 0) < 2 ^ 64).
    { rewrite size_of_value. change (64 * 2 ^ 0) with 64.
      change (2 ^ 64) with 18446744073709551616 in *. lia. }
    lia. }
  assert (Hpos : 0 < size_of K)
    by (rewrite size_of_value; pose proof (pow2_pos K HK); lia).
  unfold ttSetSize.
  change (assert (sizeof_ttSlot =? 2 * sizeof_uint64_t)) with (@Ok unit ()).
  cbn [bind]. rewrite Hrun. cbn [bind]. cbv beta iota.
  rewrite Hsz.
  destruct (Z.ltb_spec (size_of K) 0) as [Hneg | _]; [lia |].
  cbn [bind]. rewrite Hslots.
  pose proof (ttSetSize_realloc_spec h [] 64%nat K HK ltac:(lia)) as Hre.
  destruct (ttSetSize_realloc 64 h [] (size_of K) (mask_of K))
    as [[[newSlots newSize] newMask] | e]; [| cbn [bind]; apply Hre].
  destruct Hre as (k' & Hk' & -> & -> & _ & -> & _).
  cbn [bind]. cbv beta iota.
  assert (Hpos' : 0 < size_of k')
    by (rewrite size_of_value; pose proof (pow2_pos k' ltac:(lia)); lia).
  set (N := 2 ^ (k' + 2)).
  assert (HN : 4 <= N).
  { unfold N. rewrite Z.pow_add_r by lia. change (2 ^ 2) with 4.
    pose proof (pow2_pos k' ltac:(lia)). lia. }
  assert (HN64 : N < 2 ^ 64) by (apply Z.pow_lt_mono_r; lia).
  set (fresh := resized (alloc_junk h) [] (Z.to_nat N)).
  assert (Hfresh : Z.of_nat (length fresh) = N)
    by (unfold fresh; rewrite resized_length; lia).
  set (zeroed := replicate (Z.to_nat bucketLen) (TtSlot 0 0)
                 ++ drop (Z.to_nat bucketLen) fresh).
  assert (Hzl : Z.of_nat (length zeroed) = N).
  { unfold zeroed. rewrite length_app, length_replicate, length_drop.
    unfold bucketLen in *. lia. }
  destruct (ttSetSize_expand_spec (replicate (Z.to_nat bucketLen) (TtSlot 0 0))
              2 0 N ltac:(lia) eq_refl ltac:(reflexivity) eq_refl
              ltac:(change (2 ^ 2) with 4; lia)
              (Z.to_nat N) 0 zeroed)
    as (grown & Hexp & Hgl & Himage); [lia | lia | exact Hzl | |].
  { intros j Hj. change (2 ^ 2) with 4 in *.
    rewrite Z.mod_small by lia. unfold zeroed.
    apply lookup_app_l. rewrite length_replicate. unfold bucketLen. lia. }
  unfold memset_bucket. rewrite Hfresh.
  destruct (Z.ltb_spec N bucketLen) as [Hshort | _]; [unfold bucketLen in Hshort; lia |].
  cbn [bind]. fold zeroed. rewrite ?Hsz.
  destruct (Z.ltb_spec 0 (size_of k')) as [_ | Habs]; [| lia].
  rewrite mask_of_count, to_size_t_small by lia. fold N. rewrite Hmask.
  rewrite Hexp. cbn [bind].
  exists k'. split; [lia |].
  assert (Hzero : grown = replicate (Z.to_nat N) (TtSlot 0 0)).
  { apply list_eq. intros i.
    destruct (Nat.lt_ge_cases i (Z.to_nat N)) as [Hlt | Hge].
    - specialize (Himage (Z.of_nat i) ltac:(lia)).
      rewrite Nat2Z.id in Himage. rewrite Himage.
      assert (H4 : 2 ^ 2 = 4) by reflexivity. rewrite H4.
      pose proof (Z.mod_pos_bound (Z.of_nat i) 4 ltac:(lia)) as Hm.
      assert (Hb : Z.to_nat bucketLen = 4%nat) by reflexivity. rewrite Hb.
      rewrite !lookup_replicate_2; [reflexivity | lia | lia].
    - rewrite !lookup_ge_None_2; [reflexivity | |].
      + rewrite length_replicate. exact Hge.
      + lia. }
  rewrite Hzero. reflexivity.
Qed.

(** What a ttSetSize that returns leaves, from any table and under any
    allocator. *)
Lemma ttSetSize_result {P : Params} (h : allocator)
    (self self' : Engine_t) (size : Z) :
  0 <= size < 2 ^ 64 -> ttSetSize h self size = Ok self' ->
  tt_wf (tt self') /\
  alloc_ok h (tt_size (tt self')) = true /\
  (forall n, 0 <= n -> size_of n <= Z.max size (size_of 0) ->
     alloc_ok h (size_of n) = true -> size_of n <= tt_size (tt self')) /\
  board self' = board self /\ rootPlyNumber self' = rootPlyNumber self /\
  tt_now (tt self') = tt_now (tt self) /\
  tt_baseHash (tt self') = tt_baseHash (tt self).
Proof.
  intros Hsize Hrun.
  destruct (ttSetSize_steps h self self' size Hsize Hrun)
    as (K & k' & shrunk & l1 & l2 & Hk' & HK58 & Hfit & Hshrunk & Hgranted
        & Hrefused & Hl1 & Hl2 & ->).
  cbn [tt tt_size tt_mask tt_slots tt_now tt_baseHash board rootPlyNumber].
  assert (Hlen2 : Z.of_nat (length l2) = 2 ^ (k' + 2)).
  { assert (Hp : 0 < 2 ^ (k' + 2)) by (apply pow2_pos; lia).
    assert (Hlen1 : Z.of_nat (length l1) = 2 ^ (k' + 2)).
    { pose proof (memset_bucket_frame
                    (resized (alloc_junk h) (tt_slots (tt shrunk))
                             (Z.to_nat (2 ^ (k' + 2))))) as Hmem.
      destruct (tt_slots (tt shrunk)).
      - rewrite Hl1 in Hmem. rewrite Hmem, resized_length. lia.
      - injection Hl1 as <-. rewrite resized_length. lia. }
    pose proof (ttSetSize_expand_frame (tt_mask (tt shrunk))
                  (Z.to_nat (to_size_t (mask_of k' + bucketLen))) l1 0) as Hex.
    destruct (tt_size (tt shrunk) <? size_of k').
    - rewrite Hl2 in Hex. rewrite Hex. exact Hlen1.
    - injection Hl2 as <-. exact Hlen1. }
  assert (Hframe : shrunk = with_slots self (tt_slots (tt shrunk))).
  { pose proof (ttSetSize_shrink_frame (mask_of K)
                  (Z.to_nat (to_size_t (tt_mask (tt self) + bucketLen))) self 0) as Hsh.
    destruct (size_of K <? tt_size (tt self)).
    - rewrite Hshrunk in Hsh. apply Hsh.
    - injection Hshrunk as <-. symmetry. apply with_slots_same. }
  split.
  { exists k'. cbn [tt_mask tt_slots tt_size]. fold (mask_of k').
    split; [lia |]. split; [reflexivity |].
    split; [rewrite Hlen2, mask_of_count by lia; reflexivity |].
    split; [apply size_of_count; lia |].
    rewrite size_of_value. change 64 with (2 ^ 6). rewrite <- Z.pow_add_r by lia.
    apply Z.pow_lt_mono_r; lia. }
  split; [exact Hgranted |].
  split.
  { intros n Hn Hle Hok.
    pose proof (largest_fit_bounds size K ltac:(lia) ltac:(lia) Hfit) as Hb.
    assert (HnK : n <= K) by (apply size_of_lt; lia).
    destruct (Z.le_gt_cases n k') as [Hnk | Hnk].
    - destruct (Z.eq_dec n k') as [-> | Hne]; [lia |].
      assert (size_of n < size_of k')
        by (apply (proj2 (size_of_mono n k' Hn ltac:(lia))); lia).
      lia.
    - rewrite Hrefused in Hok by lia. discriminate. }
  rewrite Hframe. cbn [with_slots board rootPlyNumber tt tt_now tt_baseHash].
  repeat split; reflexivity.
Qed.

(** X11. Whatever the table was and whatever the allocator does, a
    ttSetSize that returns leaves a well-formed table whose size is
    [bucketLen * sizeof(struct ttSlot) * 2^n] for some [n], lies within
    the request (no more than [max(size, one bucket)]), is granted by the
    allocator and is the largest such size that the allocator grants; it
    leaves the board, the root, the date and the base hash as they
    were. *)
Theorem ttSetSize_largest_granted {P : Params} (h : allocator)
    (self self' : Engine_t) (size : Z) :
  0 <= size < 2 ^ 64 -> ttSetSize h self size = Ok self' ->
  tt_wf (tt self') /\
  (exists n, 0 <= n /\ tt_size (tt self') = size_of n) /\
  tt_size (tt self') <= Z.max size (size_of 0) /\
  alloc_ok h (tt_size (tt self')) = true /\
  (forall n, 0 <= n -> size_of n <= Z.max size (size_of 0) ->
     alloc_ok h (size_of n) = true -> size_of n <= tt_size (tt self')) /\
  board self' = board self /\ rootPlyNumber self' = rootPlyNumber self /\
  tt_now (tt self') = tt_now (tt self) /\
  tt_baseHash (tt self') = tt_baseHash (tt self).
Proof.
  intros Hsize Hrun.
  destruct (ttSetSize_result h self self' size Hsize Hrun) as (Hwf & Hrest).
  split; [exact Hwf |].
  split.
  { destruct (tt_wf_inv (tt self') Hwf) as (n & Hn & _ & Hsz & _).
    exists n. split; [lia | exact Hsz]. }
  split; [| exact Hrest].
  pose proof (ttSetSize_size_le h self self' size Hsize Hrun) as Hle.
  destruct (largest_fit_spec size ltac:(lia)) as (_ & Hfit & Hbound & _).
  rewrite Hfit in Hle. lia.
Qed.

Lemma ttSetSize_largest_granted_witness :
  let self := blank_engine 0 0 3 5 (Board 77 5 13) 10 in
  exists self',
    ttSetSize (limited 100) self 1000 = Ok self' /\
    tt_wf (tt self') /\
    alloc_ok (limited 100) (tt_size (tt self')) = true /\
    tt_baseHash (tt self') = 5.
Proof.
  intros self.
  destruct (ttSetSize (limited 100) self 1000) as [self' | e] eqn:Hrun;
    [| vm_compute in Hrun; discriminate].
  exists self'. split; [reflexivity |].
  destruct (ttSetSize_largest_granted (limited 100) self self' 1000
              ltac:(lia) Hrun) as (Hwf & _ & _ & Hok & _ & _ & _ & _ & Hbase).
  split; [exact Hwf |]. split; [exact Hok | exact Hbase].
Defined.

(** X12. From the table not yet allocated or from a well-formed table,
    ttSetSize fails in two ways only.  It gives up the allocation, after
    the allocator has refused every size within the request down to one
    bucket; or it faults, when it is to shrink a table of more than
    [2^31] slots, whose indices [prio] cannot take.  Short of both, with
    an allocator that grants one bucket, it returns. *)
Theorem ttSetSize_aborts_when_refused {P : Params} (h : allocator)
    (self : Engine_t) (size : Z) :
  tt_null (tt self) \/ tt_wf (tt self) ->
  0 <= size < 2 ^ 64 ->
  (forall e, ttSetSize h self size = Err e ->
     (e = Aborted /\
      forall n, 0 <= n -> size_of n <= Z.max size (size_of 0) ->
        alloc_ok h (size_of n) = false) \/
     (e = Fault /\
      largest_fit size < tt_size (tt self) /\
      2 ^ 31 < tt_mask (tt self) + bucketLen)) /\
  ((largest_fit size < tt_size (tt self) -> tt_int_indexed (tt self)) ->
   alloc_ok h (size_of 0) = true -> exists self', ttSetSize h self size = Ok self').
Proof.
  intros Hstate Hsize.
  assert (Hfail : forall e, ttSetSize h self size = Err e ->
            (e = Aborted /\
             forall n, 0 <= n -> size_of n <= Z.max size (size_of 0) ->
               alloc_ok h (size_of n) = false) \/
            (e = Fault /\
             largest_fit size < tt_size (tt self) /\
             2 ^ 31 < tt_mask (tt self) + bucketLen)).
  { intros e Hrun.
    destruct (ttSetSize_failure h self size e Hsize Hrun) as [Hf | Hab];
      [| left; exact Hab].
    right. split; [exact Hf |].
    destruct Hstate as [Hnull | Hwf].
    - pose proof (ttSetSize_null_outcome h self size Hnull Hsize) as Hout.
      rewrite Hrun in Hout. congruence.
    - destruct (Z.lt_ge_cases (largest_fit size) (tt_size (tt self))) as [Hshrink | Hno];
        destruct (Z.le_gt_cases (tt_mask (tt self) + bucketLen) (2 ^ 31)) as [Hint | Hbig].
      + exfalso.
        destruct (ttSetSize_outcome h self size Hwf Hsize (fun _ => Hint))
          as (k0 & K & _ & _ & _ & _ & _ & Hout).
        rewrite Hrun in Hout. destruct Hout as [He _]. congruence.
      + split; [exact Hshrink | lia].
      + exfalso.
        destruct (ttSetSize_outcome h self size Hwf Hsize (fun _ => Hint))
          as (k0 & K & _ & _ & _ & _ & _ & Hout).
        rewrite Hrun in Hout. destruct Hout as [He _]. congruence.
      + exfalso.
        destruct (ttSetSize_outcome h self size Hwf Hsize ltac:(intros Habs; lia))
          as (k0 & K & _ & _ & _ & _ & _ & Hout).
        rewrite Hrun in Hout. destruct Hout as [He _]. congruence. }
  split; [exact Hfail |].
  intros Hint Hone.
  destruct (ttSetSize h self size) as [self' | e] eqn:Hrun; [eexists; reflexivity |].
  destruct (Hfail e eq_refl) as [[_ Hall] | (_ & Hshrink & Hbig)].
  - rewrite (Hall 0) in Hone; [discriminate | lia | lia].
  - specialize (Hint Hshrink). unfold tt_int_indexed in Hint. lia.
Qed.

Lemma ttSetSize_aborts_when_refused_witness :
  let self := blank_engine 0 0 3 5 (Board 77 5 13) 10 in
  (exists self', ttSetSize (limited 64) self 1000000 = Ok self') /\
  alloc_ok (limited 63) (size_of 2) = false.
Proof.
  intros self.
  assert (Hnull : tt_null (tt self)) by by_eval.
  split.
  - apply (ttSetSize_aborts_when_refused (limited 64) self 1000000);
      [left; exact Hnull | lia | intros Habs; vm_compute in Habs; discriminate Habs
      | reflexivity].
  - destruct (proj1 (ttSetSize_aborts_when_refused (limited 63) self 1000000
                       (or_introl Hnull) ltac:(lia)) Aborted
                    ltac:(vm_compute; reflexivity))
      as [[_ Hall] | [Habs _]]; [| discriminate Habs].
    apply (Hall 2); [lia |].
    vm_compute. intros H. discriminate H.
Defined.

(** X13. The first ttSetSize hands over a table of zero slots, whatever
    the allocated memory held and whichever size the allocator granted:
    every position then reads as the empty slot. *)
Theorem ttSetSize_first_zeroed {P : Params} (h : allocator)
    (self self' : Engine_t) (size : Z) :
  tt_null (tt self) -> 0 <= size < 2 ^ 64 ->
  ttSetSize h self size = Ok self' ->
  all_zero (tt_slots (tt self')) /\
  forall (b : Board_t) (root : Z),
    ttRead (Engine b (tt self') root) =
      Ok (TtSlot (Z.lxor (hash b) (tt_baseHash (tt self))) 0).
Proof.
  intros Hnull Hsize Hrun.
  pose proof (ttSetSize_null_outcome h self size Hnull Hsize) as Hout.
  rewrite Hrun in Hout. destruct Hout as (k' & Hk' & ->).
  cbn [tt tt_slots].
  split; [apply all_zero_replicate |].
  intros b root.
  rewrite ttRead_of_zeroes; [reflexivity | | apply all_zero_replicate].
  unfold tt_buckets_ok. cbn [tt tt_mask tt_slots].
  pose proof (mask_of_count k' ltac:(lia)) as Hc.
  pose proof (mask_of_value k' ltac:(lia)) as Hv.
  pose proof (pow2_pos k' ltac:(lia)) as Hp.
  assert (2 ^ (k' + 2) < 2 ^ 64) by (apply Z.pow_lt_mono_r; lia).
  rewrite length_replicate. lia.
Qed.

Lemma ttSetSize_first_zeroed_witness :
  let self := blank_engine 0 0 3 5 (Board 77 5 13) 10 in
  let h := Allocator (fun n => n <=? 200) (fun i => TtSlot (Z.of_nat i) 99) in
  exists self',
    ttSetSize h self 1000 = Ok self' /\
    tt_slots (tt self') !! 7%nat = Some (TtSlot 0 0) /\
    ttRead (Engine (Board 7 0 0) (tt self') 0) = Ok (TtSlot (Z.lxor 7 5) 0).
Proof.
  intros self h.
  assert (Hnull : tt_null (tt self)) by by_eval.
  destruct (ttSetSize h self 1000) as [self' | e] eqn:Hrun;
    [| vm_compute in Hrun; inversion Hrun].
  destruct (ttSetSize_first_zeroed h self self' 1000 Hnull ltac:(lia) Hrun)
    as [Hzero Hread].
  exists self'. split; [reflexivity |].
  split; [| apply Hread].
  vm_compute in Hrun. injection Hrun as <-. reflexivity.
Defined.

(** ** Reading after the table has grown *)

(** The bucket of a probe in the larger table lies over its bucket in the
    smaller one. *)
Lemma bucket_of_larger (x k0 k' : Z) :
  0 <= k0 <= k' ->
  Z.land x (mask_of k') mod 2 ^ (k0 + 2) = Z.land x (mask_of k0).
Proof.
  intros Hk. rewrite <- Z.land_ones by lia. unfold mask_of.
  apply Z.bits_inj'. intros n Hn.
  rewrite !Z.land_spec, !Z.shiftl_spec, !Z.testbit_ones by lia.
  destruct (Z.testbit x n); [| reflexivity]. cbn [andb].
  bit_cases.
Qed.

(** X14. Growing loses nothing: after a ttSetSize that enlarged a
    well-formed table, every position reads exactly as it did before. *)
Theorem ttSetSize_grow_keeps_reads {P : Params} (h : allocator)
    (self self' : Engine_t) (size : Z) :
  tt_wf (tt self) -> 0 <= size < 2 ^ 64 ->
  ttSetSize h self size = Ok self' ->
  tt_size (tt self) < tt_size (tt self') ->
  forall (b : Board_t) (root : Z),
    ttRead (Engine b (tt self') root) = ttRead (Engine b (tt self) root).
Proof.
  intros Hwf Hsize Hrun Hgrow b root.
  pose proof (ttSetSize_size_le h self self' size Hsize Hrun) as Hle.
  destruct (ttSetSize_outcome h self size Hwf Hsize ltac:(lia))
    as (k0 & K & Hk0 & HK & Hsz & Hmask & Hfit & Hout).
  rewrite Hrun in Hout.
  destruct Hout as (k' & Hk' & Hsz' & Hmask' & _ & Hlen' & _ & _ & _ & Hbase & Himage & _).
  assert (Hlt : k0 < k').
  { apply (proj1 (size_of_mono k0 k' Hk0 ltac:(lia))). lia. }
  specialize (Himage Hlt).
  destruct (tt_wf_inv (tt self) Hwf) as (k0' & Hk0' & Hmask0 & _ & Hlen).
  assert (k0' = k0).
  { rewrite Hmask in Hmask0.
    pose proof (mask_of_value k0 Hk0) as H1. pose proof (mask_of_value k0' ltac:(lia)) as H2.
    assert (Hpow : 2 ^ k0 = 2 ^ k0') by lia.
    apply Z.pow_inj_r in Hpow; lia. }
  subst k0'.
  assert (HK58 : k' < 58).
  { destruct (ttSetSize_steps h self self' size Hsize Hrun)
      as (K1 & k1 & sh & l1 & l2 & Hk1 & HK1 & _ & _ & _ & _ & _ & _ & Heq).
    rewrite Heq in Hsz'. cbn [tt tt_size] in Hsz'.
    destruct (Z.lt_trichotomy k1 k') as [H | [H | H]]; [| lia |].
    - apply (proj2 (size_of_mono k1 k' ltac:(lia) ltac:(lia))) in H. lia.
    - apply (proj2 (size_of_mono k' k1 ltac:(lia) ltac:(lia))) in H. lia. }
  unfold ttRead. cbn [board tt]. rewrite Hbase, Hmask, Hmask'.
  set (x := Z.lxor (hash b) (tt_baseHash (tt self))).
  pose proof (land_mask_range x (mask_of k0) ltac:(rewrite mask_of_value by lia;
                pose proof (pow2_pos k0 Hk0); lia)) as Hb0.
  pose proof (land_mask_range x (mask_of k') ltac:(rewrite mask_of_value by lia;
                pose proof (pow2_pos k' ltac:(lia)); lia)) as Hb1.
  pose proof (mask_of_count k0 Hk0) as Hc0.
  pose proof (mask_of_count k' ltac:(lia)) as Hc1.
  assert (Hp0 : 2 ^ (k0 + 2) < 2 ^ 64) by (apply Z.pow_lt_mono_r; lia).
  assert (Hp1 : 2 ^ (k' + 2) < 2 ^ 64) by (apply Z.pow_lt_mono_r; lia).
  assert (Hpos0 : 0 < 2 ^ (k0 + 2)) by (apply pow2_pos; lia).
  apply ttRead_scan_congr; [reflexivity | reflexivity |].
  intros j Hj. cbn [tt tt_slots]. unfold bucketLen in *.
  assert (Hj4 : 0 <= j < 4) by lia.
  rewrite !to_size_t_small by lia.
  unfold slot_get.
  destruct (Z.ltb_spec (Z.land x (mask_of k') + j) 0); [lia |].
  destruct (Z.ltb_spec (Z.land x (mask_of k0) + j) 0); [lia |].
  rewrite Himage by lia.
  rewrite <- Z.add_mod_idemp_l by lia.
  rewrite bucket_of_larger by lia.
  rewrite Z.mod_small by lia. reflexivity.
Qed.

Lemma ttSetSize_grow_keeps_reads_witness :
  let self := Engine (Board 9 0 13)
                     (Ttable [TtSlot 0 0; TtSlot 12 5; TtSlot 0 0; TtSlot 0 0] 64 0 3 0) 10 in
  exists self',
    ttSetSize generous self 256 = Ok self' /\
    tt_size (tt self') = 256 /\
    ttRead (Engine (Board 9 0 13) (tt self') 10) = Ok (TtSlot 9 5).
Proof.
  intros self.
  assert (Hwf : tt_wf (tt self)) by (exists 0; by_eval).
  assert (Hold : ttRead (Engine (Board 9 0 13) (tt self) 10) = Ok (TtSlot 9 5))
    by (vm_compute; reflexivity).
  destruct (ttSetSize generous self 256) as [self' | e] eqn:Hrun;
    [| vm_compute in Hrun; inversion Hrun].
  assert (Hsize' : tt_size (tt self') = 256)
    by (vm_compute in Hrun; injection Hrun as <-; reflexivity).
  exists self'. split; [reflexivity |]. split; [exact Hsize' |].
  rewrite <- Hold.
  apply (ttSetSize_grow_keeps_reads generous self self' 256 Hwf ltac:(lia) Hrun).
  rewrite Hsize'. reflexivity.
Defined.

(** ** ttSetSize without growth and without merging *)

Lemma resized_shorter (junk : nat -> ttSlot) (old : list ttSlot) (n : nat) :
  (n <= length old)%nat -> resized junk old n = take n old.
Proof.
  intros Hn. unfold resized.
  replace (n - length old)%nat with 0%nat by lia.
  cbn [seq fmap list_fmap]. apply app_nil_r.
Qed.

(** A ttSetSize that neither merges nor grows cuts the table. *)
Lemma ttSetSize_cut {P : Params} (h : allocator)
    (self self' : Engine_t) (size : Z) :
  tt_wf (tt self) -> 0 <= size < 2 ^ 64 ->
  tt_size (tt self) <= largest_fit size ->
  ttSetSize h self size = Ok self' ->
  tt_size (tt self') <= tt_size (tt self) ->
  tt_slots (tt self') =
    take (length (tt_slots (tt self'))) (tt_slots (tt self)) /\
  (tt_size (tt self') = tt_size (tt self) -> self' = self).
Proof.
  intros Hwf Hsize Hfits Hrun Hle.
  destruct (tt_wf_inv (tt self) Hwf) as (k0 & Hk0 & Hmask & Hsz & Hlen).
  destruct (ttSetSize_steps h self self' size Hsize Hrun)
    as (K & k' & shrunk & l1 & l2 & Hk' & HK58 & Hfit & Hshrunk & _ & _
        & Hl1 & Hl2 & Heq).
  rewrite Hfit in Hfits.
  destruct (Z.ltb_spec (size_of K) (tt_size (tt self))) as [Habs | _]; [lia |].
  injection Hshrunk as <-.
  rewrite Heq in Hle. cbn [tt tt_size] in Hle.
  destruct (Z.ltb_spec (tt_size (tt self)) (size_of k')) as [Habs | _]; [lia |].
  injection Hl2 as <-.
  assert (Hkk : k' <= k0).
  { destruct (Z.le_gt_cases k' k0) as [H | H]; [exact H | exfalso].
    apply (proj2 (size_of_mono k0 k' ltac:(lia) ltac:(lia))) in H. lia. }
  assert (Hpow : 2 ^ (k' + 2) <= 2 ^ (k0 + 2)) by (apply Z.pow_le_mono_r; lia).
  assert (Hp : 0 < 2 ^ (k' + 2)) by (apply pow2_pos; lia).
  assert (Hres : l1 = take (Z.to_nat (2 ^ (k' + 2))) (tt_slots (tt self))).
  { destruct (tt_slots (tt self)) as [| s0 rest] eqn:Hold.
    - cbn [length] in Hlen. lia.
    - injection Hl1 as <-. apply resized_shorter. lia. }
  rewrite Heq. cbn [tt tt_slots tt_size].
  assert (Hl1len : length l1 = Z.to_nat (2 ^ (k' + 2))).
  { rewrite Hres, length_take. lia. }
  split.
  - rewrite Hl1len. exact Hres.
  - intros Hsame.
    assert (k' = k0).
    { destruct (Z.eq_dec k' k0) as [He | Hne]; [exact He | exfalso].
      assert (size_of k' < size_of k0)
        by (apply (proj2 (size_of_mono k' k0 ltac:(lia) ltac:(lia))); lia).
      lia. }
    subst k'. rewrite Hres, take_ge by lia.
    rewrite <- Hsz, <- Hmask.
    destruct self as [b [sl sz mk nw bh] r]. reflexivity.
Qed.

(** X15. When the request does not lie below the size of the table and
    the allocator grants no more than the table has, ttSetSize merges
    nothing: the table is cut to the granted size, the slots beyond it
    are lost, and with the granted size equal to the old one the engine
    is as it was. *)
Theorem ttSetSize_no_growth {P : Params} (h : allocator)
    (self self' : Engine_t) (size : Z) :
  tt_wf (tt self) -> 0 <= size < 2 ^ 64 ->
  tt_size (tt self) <= largest_fit size ->
  ttSetSize h self size = Ok self' ->
  tt_size (tt self') <= tt_size (tt self) ->
  tt_slots (tt self') =
    take (length (tt_slots (tt self'))) (tt_slots (tt self)) /\
  (tt_size (tt self') = tt_size (tt self) -> self' = self).
Proof.
  intros Hwf Hsize Hfits Hrun Hle.
  exact (ttSetSize_cut h self self' size Hwf Hsize Hfits Hrun Hle).
Qed.

Lemma ttSetSize_no_growth_witness :
  let table := TtSlot 0 0 :: TtSlot 12 5 :: replicate 14 (TtSlot 3 7) in
  let self := Engine (Board 9 0 13) (Ttable table 256 12 3 0) 10 in
  exists self',
    ttSetSize (limited 100) self 1000 = Ok self' /\
    tt_slots (tt self') = [TtSlot 0 0; TtSlot 12 5; TtSlot 3 7; TtSlot 3 7] /\
    ttSetSize generous self 256 = Ok self.
Proof.
  intros table self.
  assert (Hwf : tt_wf (tt self)) by (exists 2; by_eval).
  assert (Hfit : tt_size (tt self) <= largest_fit 1000)
    by (vm_compute; intros H; discriminate H).
  assert (Hfit' : tt_size (tt self) <= largest_fit 256)
    by (vm_compute; intros H; discriminate H).
  split with (x := Engine (Board 9 0 13) (Ttable (take 4 table) 64 0 3 0) 10).
  assert (Hrun : ttSetSize (limited 100) self 1000 =
                 Ok (Engine (Board 9 0 13) (Ttable (take 4 table) 64 0 3 0) 10))
    by (vm_compute; reflexivity).
  split; [exact Hrun |].
  split.
  - rewrite (proj1 (ttSetSize_no_growth (limited 100) self _ 1000 Hwf ltac:(lia)
                      Hfit Hrun ltac:(simpl; lia))).
    reflexivity.
  - destruct (ttSetSize generous self 256) as [same | e] eqn:Hsame;
      [| vm_compute in Hsame; inversion Hsame].
    f_equal.
    apply (proj2 (ttSetSize_no_growth generous self same 256 Hwf ltac:(lia)
                    Hfit' Hsame
                    ltac:(vm_compute in Hsame; injection Hsame as <-; simpl; lia))).
    vm_compute in Hsame. injection Hsame as <-. reflexivity.
Defined.

(** ** Growing and shrinking back *)

Lemma pow2_divide (a b : Z) : 0 <= a <= b -> (2 ^ a | 2 ^ b).
Proof.
  intros Hab. exists (2 ^ (b - a)). rewrite <- Z.pow_add_r by lia.
  f_equal. lia.
Qed.

Lemma mask_of_inj (j k : Z) : 0 <= j -> 0 <= k -> mask_of j = mask_of k -> j = k.
Proof.
  intros Hj Hk Heq. rewrite !mask_of_value in Heq by assumption.
  assert (Hpow : 2 ^ j = 2 ^ k) by lia.
  apply Z.pow_inj_r in Hpow; lia.
Qed.

Lemma size_of_inj (j k : Z) : 0 <= j -> 0 <= k -> size_of j = size_of k -> j = k.
Proof.
  intros Hj Hk Heq. rewrite !size_of_value in Heq.
  assert (Hpow : 2 ^ j = 2 ^ k) by lia.
  apply Z.pow_inj_r in Hpow; lia.
Qed.

(** X16. A table that was grown and is then brought back to its size is
    the table it was: of the copies that growing made, shrinking keeps
    one for each slot. *)
Theorem ttSetSize_grow_then_shrink {P : Params} (h1 h2 : allocator)
    (self self1 self2 : Engine_t) (size1 size2 : Z) :
  tt_wf (tt self) -> 0 <= size1 < 2 ^ 64 -> 0 <= size2 < 2 ^ 64 ->
  ttSetSize h1 self size1 = Ok self1 ->
  tt_size (tt self) < tt_size (tt self1) ->
  tt_int_indexed (tt self1) ->
  ttSetSize h2 self1 size2 = Ok self2 ->
  tt_size (tt self2) = tt_size (tt self) ->
  self2 = self.
Proof.
  intros Hwf Hsize1 Hsize2 Hrun1 Hgrow Hint Hrun2 Hback.
  pose proof (ttSetSize_size_le h1 self self1 size1 Hsize1 Hrun1) as Hle1.
  destruct (ttSetSize_result h1 self self1 size1 Hsize1 Hrun1) as (Hwf1 & _).
  destruct (ttSetSize_outcome h1 self size1 Hwf Hsize1 ltac:(lia))
    as (k0 & K1 & Hk0 & HK1 & Hsz & Hmask & Hfit1 & Hout1).
  rewrite Hrun1 in Hout1.
  destruct Hout1 as (k1 & Hk1 & Hsz1 & Hmask1 & _ & Hlen1 & Hb1 & Hr1 & Hn1 & Hbase1
                     & Himage & _).
  assert (Hlt : k0 < k1).
  { apply (proj1 (size_of_mono k0 k1 Hk0 ltac:(lia))). lia. }
  specialize (Himage Hlt).
  destruct (tt_wf_inv (tt self) Hwf) as (k0' & Hk0' & Hmask0 & _ & Hlen).
  assert (k0' = k0) by (apply mask_of_inj; [lia | lia | congruence]).
  subst k0'.
  destruct (ttSetSize_outcome h2 self1 size2 Hwf1 Hsize2 (fun _ => Hint))
    as (k1' & K2 & Hk1' & HK2 & Hsz1' & _ & Hfit2 & Hout2).
  assert (k1' = k1) by (apply size_of_inj; [lia | lia | congruence]).
  subst k1'.
  rewrite Hrun2 in Hout2.
  destruct Hout2 as (k2 & Hk2 & Hsz2 & Hmask2 & _ & Hlen2 & Hb2 & Hr2 & Hn2 & Hbase2
                     & _ & Hbest).
  assert (k2 = k0) by (apply size_of_inj; [lia | lia | congruence]).
  subst k2.
  assert (Hp0 : 0 < 2 ^ (k0 + 2)) by (apply pow2_pos; lia).
  assert (Hp01 : 2 ^ (k0 + 2) <= 2 ^ (k1 + 2)) by (apply Z.pow_le_mono_r; lia).
  assert (Hslots : tt_slots (tt self2) = tt_slots (tt self)).
  { apply list_eq. intros i.
    destruct (Nat.lt_ge_cases i (Z.to_nat (2 ^ (k0 + 2)))) as [Hi | Hi].
    2: { rewrite !lookup_ge_None_2 by lia. reflexivity. }
    destruct (Z.lt_ge_cases K2 k1) as [Hmerge | Hcut].
    - destruct (Hbest Hmerge (Z.of_nat i) ltac:(lia)) as (s & Hs & j & Hj & Hcls & Hjs & _).
      rewrite Nat2Z.id in Hs. rewrite Hs, <- Hjs.
      rewrite Himage by lia.
      rewrite <- (Z.mod_mod_divide j (2 ^ (K2 + 2)) (2 ^ (k0 + 2)))
        by (apply pow2_divide; lia).
      rewrite Hcls, Z.mod_small by lia.
      rewrite Nat2Z.id. reflexivity.
    - assert (Hfits : tt_size (tt self1) <= largest_fit size2).
      { rewrite Hfit2, Hsz1.
        destruct (Z.eq_dec k1 K2) as [-> | Hne]; [lia |].
        assert (size_of k1 < size_of K2)
          by (apply (proj2 (size_of_mono k1 K2 ltac:(lia) ltac:(lia))); lia).
        lia. }
      destruct (ttSetSize_cut h2 self1 self2 size2 Hwf1 Hsize2 Hfits Hrun2 ltac:(lia))
        as [Hcutoff _].
      rewrite Hcutoff, lookup_take_lt by lia.
      specialize (Himage (Z.of_nat i) ltac:(lia)).
      rewrite Nat2Z.id in Himage. rewrite Himage.
      rewrite Z.mod_small by lia. rewrite Nat2Z.id. reflexivity. }
  destruct self as [b [sl sz mk nw bh] r].
  destruct self1 as [b1 [sl1 sz1 mk1 nw1 bh1] r1].
  destruct self2 as [b2 [sl2 sz2 mk2 nw2 bh2] r2].
  cbn [board tt tt_slots tt_size tt_mask tt_now tt_baseHash rootPlyNumber] in *.
  congruence.
Qed.

Lemma ttSetSize_grow_then_shrink_witness :
  let self := Engine (Board 9 0 13)
                     (Ttable [TtSlot 0 0; TtSlot 12 5; TtSlot 0 0; TtSlot 4 4] 64 0 3 0) 10 in
  exists self1,
    ttSetSize generous self 300 = Ok self1 /\
    tt_size (tt self1) = 256 /\
    ttSetSize generous self1 100 = Ok self.
Proof.
  intros self.
  assert (Hwf : tt_wf (tt self)) by (exists 0; by_eval).
  destruct (ttSetSize generous self 300) as [self1 | e] eqn:Hrun1;
    [| vm_compute in Hrun1; inversion Hrun1].
  assert (Hsize1 : tt_size (tt self1) = 256)
    by (vm_compute in Hrun1; injection Hrun1 as <-; reflexivity).
  assert (Hint : tt_int_indexed (tt self1))
    by (vm_compute in Hrun1; injection Hrun1 as <-; vm_compute;
        intros H; discriminate H).
  exists self1. split; [reflexivity |]. split; [exact Hsize1 |].
  destruct (ttSetSize generous self1 100) as [self2 | e] eqn:Hrun2;
    [| vm_compute in Hrun1; injection Hrun1 as <-;
       vm_compute in Hrun2; inversion Hrun2].
  f_equal.
  apply (ttSetSize_grow_then_shrink generous generous self self1 self2 300 100
           Hwf ltac:(lia) ltac:(lia) Hrun1 ltac:(rewrite Hsize1; reflexivity)
           Hint Hrun2).
  vm_compute in Hrun1. injection Hrun1 as <-.
  vm_compute in Hrun2. injection Hrun2 as <-. reflexivity.
Defined.

(** ** ttCalcLoad *)

(** The loop of lines 217-219 adds to [count] the slots dated [now] among
    the [n] slots from index [i] on. *)
Lemma ttCalcLoad_count_spec {P : Params} (self : Engine_t) :
  forall (n : nat) (i count : Z),
    0 <= i -> i + Z.of_nat n <= Z.of_nat (length (tt_slots (tt self))) ->
    i + Z.of_nat n <= 10000 -> 0 <= count <= i ->
    ttCalcLoad_count self n i count =
      Ok (count + Z.of_nat (length (dated (tt_now (tt self))
                                      (take n (drop (Z.to_nat i) (tt_slots (tt self))))))).
Proof.
  induction n as [| n IH]; intros i count Hi Hlen Hmax Hcount.
  - cbn [ttCalcLoad_count]. unfold dated. rewrite take_0, filter_nil.
    cbn [length]. f_equal. lia.
  - cbn [ttCalcLoad_count].
    destruct (lookup_in_range (tt_slots (tt self)) i ltac:(lia)) as [s Hs].
    rewrite (slot_get_Some _ _ _ Hi Hs). cbn [bind].
    rewrite (to_int_small (i + 1)) by lia.
    rewrite (drop_S _ _ _ Hs). rewrite firstn_cons. unfold dated. rewrite filter_cons.
    assert (Hnext : Z.to_nat (i + 1) = S (Z.to_nat i)) by lia.
    destruct (Z.eqb_spec (slot_date s) (tt_now (tt self))) as [Heq | Hne].
    + rewrite (to_int_small (count + 1)) by lia.
      rewrite IH by lia. rewrite Hnext.
      destruct (decide (slot_date s = tt_now (tt self))) as [_ | Habs]; [| contradiction].
      unfold dated. cbn [length]. f_equal. lia.
    + rewrite IH by lia. rewrite Hnext.
      destruct (decide (slot_date s = tt_now (tt self))) as [Habs | _]; [contradiction |].
      reflexivity.
Qed.

(** X17. On a well-formed table, ttCalcLoad divides [n], the number of
    slots dated [now] among the first [m], by
    [m = min(10000, mask + bucketLen)]: [m] is at least one bucket, so
    there is no division by zero, and [0 <= n <= m]. *)
Theorem ttCalcLoad_counts {P : Params} (self : Engine_t) :
  tt_wf (tt self) ->
  exists n m,
    ttCalcLoad self = Ok (n, m) /\
    m = Z.min 10000 (tt_mask (tt self) + bucketLen) /\
    bucketLen <= m /\
    n = Z.of_nat (length (dated (tt_now (tt self))
                            (take (Z.to_nat m) (tt_slots (tt self))))) /\
    0 <= n <= m.
Proof.
  intros Hwf.
  destruct (tt_wf_inv (tt self) Hwf) as (k & Hk & Hmask & _ & Hlen).
  pose proof (mask_of_count k ltac:(lia)) as Hc.
  pose proof (mask_of_value k ltac:(lia)) as Hv.
  pose proof (pow2_pos k ltac:(lia)) as Hp.
  assert (Hp64 : 2 ^ (k + 2) < 2 ^ 64) by (apply Z.pow_lt_mono_r; lia).
  unfold ttCalcLoad. rewrite Hmask. unfold bucketLen in *.
  rewrite to_size_t_small by lia.
  set (m := Z.min 10000 (mask_of k + 4)).
  assert (Hm : 4 <= m <= 10000) by (unfold m; lia).
  rewrite (to_int_small m) by lia.
  rewrite (ttCalcLoad_count_spec self (Z.to_nat m) 0 0) by (unfold m in *; lia).
  cbn [bind]. change (Z.to_nat 0) with 0%nat. rewrite drop_0.
  eexists _, m. split; [reflexivity |].
  split; [reflexivity |]. split; [lia |]. split; [apply Z.add_0_l |].
  pose proof (length_filter (fun s => slot_date s = tt_now (tt self))
                (take (Z.to_nat m) (tt_slots (tt self)))) as Hf.
  rewrite length_take in Hf. unfold dated. lia.
Qed.

Lemma ttCalcLoad_counts_witness :
  let self := Engine (Board 9 0 13)
                     (Ttable [TtSlot 0 0; TtSlot 0 (3 * 2 ^ 40); TtSlot 0 0; TtSlot 0 (3 * 2 ^ 40)]
                             64 0 3 0) 10 in
  ttCalcLoad self = Ok (2, 4).
Proof.
  intros self.
  destruct (ttCalcLoad_counts self ltac:(exists 0; by_eval))
    as (n & m & -> & -> & _ & -> & _).
  reflexivity.
Defined.

(** ** The one failure of ttWrite *)

Section WriteFailure.

Context {P : Params}.
Hypothesis HP : params_ok P.

(** Lines 107-152 stop on the assertions of the mate range only. *)
Lemma ttWrite_slot_stop (self : Engine_t) (slot : ttSlot)
    (depth score alpha beta : Z) (e : error) :
  ttWrite_slot self slot depth score alpha beta = Stop e ->
  e = AssertFailed /\
  ((maxEval + 1 < score /\
    maxMate <= bf_wrap f_score (to_int (bf_wrap f_score score + ply self))) \/
   (score < minEval - 1 /\
    bf_wrap f_score (to_int (bf_wrap f_score score - ply self)) < minMate)).
Proof.
  intros Hs.
  pose proof (eval_ordered P HP) as Hord.
  pose proof (set_fields_spec HP self slot depth score alpha beta)
    as (Hk & Hsc & Hd & Ht & Hu & Hl & Hh & Hwl).
  set (s0 := set_fields self slot depth score alpha beta) in *.
  pose proof (layout P HP) as HL. layout_facts HL.
  assert (Hmate : forall v,
             slot_score (set_flag f_isWinLossScore (set_field f_score s0 v) true)
             = bf_wrap f_score v).
  { intros v. unfold slot_score. read_fields. reflexivity. }
  unfold ttWrite_slot in Hs.
  destruct (older_prevails slot score); [discriminate |]. fold s0 in Hs.
  unfold correct_high, correct_low in Hs.
  destruct (Z.ltb_spec maxEval score) as [Hhi | Hhi].
  - destruct (Z.ltb_spec score minEval) as [Hlo | Hlo]; [lia |].
    destruct (Z.ltb_spec (maxEval + 1) score) as [Hab | Hab]; [| discriminate].
    destruct (_ && _); [discriminate |].
    rewrite Hmate, Hsc in Hs.
    destruct (Z.ltb_spec (bf_wrap f_score (to_int (bf_wrap f_score score + ply self)))
                maxMate) as [Hok | Hbad]; [discriminate |].
    simpl in Hs. injection Hs as <-. split; [reflexivity |]. left. split; assumption.
  - simpl in Hs.
    destruct (Z.ltb_spec score minEval) as [Hlo | Hlo]; [| discriminate].
    destruct (Z.ltb_spec score (minEval - 1)) as [Hab | Hab]; [| discriminate].
    destruct (_ && _); [discriminate |].
    rewrite Hmate, Hsc in Hs.
    destruct (Z.geb_spec (bf_wrap f_score (to_int (bf_wrap f_score score - ply self)))
                minMate) as [Hok | Hbad]; [discriminate |].
    simpl in Hs. injection Hs as <-. split; [reflexivity |]. right. split; assumption.
Qed.

End WriteFailure.

(** X18. ttWrite fails in one way only.  On a table that holds its
    buckets at [int] indices it never faults and never trips
    [assert(i >= 0)]: it fails on the assertion that a win or loss
    score, moved by the distance from the root, stays within the mate
    bounds, and so never for a score from [minEval - 1] to
    [maxEval + 1]. *)
Theorem ttWrite_fails_on_mate_assert {P : Params} (self : Engine_t) (slot : ttSlot)
    (depth score alpha beta : Z) :
  params_ok P -> tt_buckets_ok (tt self) -> tt_int_indexed (tt self) ->
  (forall e, ttWrite self slot depth score alpha beta = Err e ->
     e = AssertFailed /\
     ((maxEval + 1 < score /\
       (fits f_score score -> fits f_score (score + ply self) ->
        maxMate <= score + ply self)) \/
      (score < minEval - 1 /\
       (fits f_score score -> fits f_score (score - ply self) ->
        score - ply self < minMate)))) /\
  (minEval - 1 <= score <= maxEval + 1 ->
   exists v self', ttWrite self slot depth score alpha beta = Ok (v, self')).
Proof.
  intros HP Hbuckets Hint.
  assert (Hfail : forall e, ttWrite self slot depth score alpha beta = Err e ->
            e = AssertFailed /\
            ((maxEval + 1 < score /\
              (fits f_score score -> fits f_score (score + ply self) ->
               maxMate <= score + ply self)) \/
             (score < minEval - 1 /\
              (fits f_score score -> fits f_score (score - ply self) ->
               score - ply self < minMate)))).
  { intros e Hrun.
    destruct (ttWrite_slot self slot depth score alpha beta) as [s | v | e0] eqn:Hslot.
    - destruct (ttWrite_stores HP self slot s depth score alpha beta Hbuckets Hint Hslot)
        as (i & _ & Hw).
      rewrite Hw in Hrun. discriminate Hrun.
    - unfold ttWrite in Hrun. rewrite Hslot in Hrun. discriminate Hrun.
    - unfold ttWrite in Hrun. rewrite Hslot in Hrun. injection Hrun as <-.
      destruct (ttWrite_slot_stop HP self slot depth score alpha beta e0 Hslot)
        as [He [[Hab Hbad] | [Hab Hbad]]].
      + split; [exact He |]. left. split; [exact Hab |].
        intros Hfs Hfp. rewrite Hfs in Hbad.
        rewrite (to_int_small (score + ply self)) in Hbad
          by (apply (fits_score_int HP); exact Hfp).
        rewrite Hfp in Hbad. exact Hbad.
      + split; [exact He |]. right. split; [exact Hab |].
        intros Hfs Hfp. rewrite Hfs in Hbad.
        rewrite (to_int_small (score - ply self)) in Hbad
          by (apply (fits_score_int HP); exact Hfp).
        rewrite Hfp in Hbad. exact Hbad. }
  split; [exact Hfail |].
  intros Hrange.
  destruct (ttWrite self slot depth score alpha beta) as [[v self'] | e] eqn:Hrun;
    [exists v, self'; reflexivity |].
  destruct (Hfail e eq_refl) as [_ [[Hab _] | [Hab _]]]; lia.
Qed.

Lemma ttWrite_fails_on_mate_assert_witness :
  let self := blank_engine 4 0 3 0 (Board 77 5 13) 10 in
  (exists v self', ttWrite self (TtSlot 77 0) 9 30001 0 100 = Ok (v, self')) /\
  maxMate <= 31999 + ply self.
Proof.
  intros self.
  assert (Hbuckets : tt_buckets_ok (tt self)) by by_eval.
  assert (Hint : tt_int_indexed (tt self)) by (vm_compute; intros H; discriminate H).
  split.
  - apply (ttWrite_fails_on_mate_assert self (TtSlot 77 0) 9 30001 0 100
             example_params_ok Hbuckets Hint).
    simpl. lia.
  - destruct (proj1 (ttWrite_fails_on_mate_assert self (TtSlot 77 0) 9 31999 0 100
                       example_params_ok Hbuckets Hint) AssertFailed
                    ltac:(vm_compute; reflexivity))
      as [_ [[_ Hbad] | [Hlow _]]].
    + apply Hbad; vm_compute; reflexivity.
    + simpl in Hlow. lia.
Defined.

(** ** No position twice in a bucket *)

(** Zero slots verify the hash 0 only. *)
Lemma all_zero_no_duplicates (t : ttable) :
  all_zero (tt_slots t) -> no_duplicates t.
Proof.
  intros Hzero x hash i j Hhash _ _ (s & Hs & Hv) _.
  unfold bucket_slot in Hs. rewrite (Hzero _ _ Hs) in Hv.
  unfold verified_key in Hv. cbn [key data] in Hv.
  rewrite Z.lxor_0_l in Hv. congruence.
Qed.

(** X19. ttWrite never stores a position twice in a bucket: if no
    bucket of a well-formed table holds a hash other than 0 at two
    places, which is so for the zeroed table, then none does after a
    ttWrite. *)
Theorem ttWrite_no_duplicates {P : Params} (self self' : Engine_t) (slot : ttSlot)
    (depth score alpha beta v : Z) :
  params_ok P -> tt_wf (tt self) -> tt_int_indexed (tt self) ->
  no_duplicates (tt self) ->
  ttWrite self slot depth score alpha beta = Ok (v, self') ->
  no_duplicates (tt self').
Proof.
  intros HP Hwf Hint Hinv Hrun.
  pose proof (tt_wf_buckets _ Hwf) as Hbuckets.
  destruct (ttWrite_slot self slot depth score alpha beta) as [s | w | e] eqn:Hslot.
  2: { unfold ttWrite in Hrun. rewrite Hslot in Hrun. injection Hrun as _ <-. exact Hinv. }
  2: { unfold ttWrite in Hrun. rewrite Hslot in Hrun. discriminate Hrun. }
  destruct (ttWrite_stores HP self slot s depth score alpha beta Hbuckets Hint Hslot)
    as (i & Hchosen & Hw).
  rewrite Hw in Hrun. injection Hrun as _ <-. clear Hw.
  destruct (tt_wf_inv _ Hwf) as (k & Hk & Hmask & _ & Hlen).
  set (bucket := Z.land (key s) (tt_mask (tt self))) in *.
  assert (Hi : 0 <= i < bucketLen)
    by (destruct Hchosen as [(H & _) | (_ & H & _)]; exact H).
  destruct Hbuckets as (Hm & Hlen' & Hhi).
  pose proof (land_mask_range (key s) (tt_mask (tt self)) Hm) as Hb. fold bucket in Hb.
  assert (Hal : bucket mod 4 = 0)
    by (unfold bucket; rewrite Hmask; apply (bucket_aligned (key s) k); lia).
  unfold bucketLen in *.
  (* a place other than the one written holds what it held *)
  assert (Hother : forall x hash p,
            0 <= p < 4 ->
            Z.land x (tt_mask (tt self)) + p <> bucket + i ->
            matches (tt (with_slots self
                           (<[Z.to_nat (bucket + i) := sealed s]> (tt_slots (tt self)))))
                    hash (Z.land x (tt_mask (tt self))) p ->
            matches (tt self) hash (Z.land x (tt_mask (tt self))) p).
  { intros x hash p Hp Hne (s1 & Hs1 & Hv1).
    pose proof (land_mask_range x (tt_mask (tt self)) Hm) as Hbx.
    exists s1. split; [| exact Hv1].
    unfold bucket_slot in *. cbn [with_slots tt tt_slots] in Hs1.
    rewrite list_lookup_insert_ne in Hs1 by lia. exact Hs1. }
  (* the place written verifies the key written *)
  assert (Hthere : forall hash,
            matches (tt (with_slots self
                           (<[Z.to_nat (bucket + i) := sealed s]> (tt_slots (tt self)))))
                    hash bucket i -> hash = key s).
  { intros hash (s1 & Hs1 & Hv1).
    unfold bucket_slot in Hs1. cbn [with_slots tt tt_slots] in Hs1.
    rewrite list_lookup_insert_eq in Hs1 by lia.
    injection Hs1 as <-. rewrite sealed_verified in Hv1. congruence. }
  (* a place of the bucket written that verifies the key written is the
     place written *)
  assert (Honly : forall p, 0 <= p < 4 -> key s <> 0 ->
            matches (tt self) (key s) bucket p -> p = i).
  { intros p Hp Hnz Hmatch.
    destruct Hchosen as [(_ & Hmi & _) | (Hnone & _)].
    - apply (Hinv (key s) (key s) p i Hnz Hp Hi Hmatch Hmi).
    - exfalso. apply (Hnone p Hp Hmatch). }
  intros x hash p q Hhash Hp Hq Hmp Hmq.
  unfold bucketLen in Hp, Hq.
  cbn [with_slots tt tt_mask] in Hmp, Hmq.
  set (bx := Z.land x (tt_mask (tt self))) in *.
  assert (Halx : bx mod 4 = 0)
    by (unfold bx; rewrite Hmask; apply (bucket_aligned x k); lia).
  pose proof (Z.div_mod bx 4 ltac:(lia)) as Hdx.
  pose proof (Z.div_mod bucket 4 ltac:(lia)) as Hdb.
  destruct (Z.eq_dec bx bucket) as [Hsame | Hdiff].
  - destruct (Z.eq_dec p i) as [Hpi | Hpi]; destruct (Z.eq_dec q i) as [Hqi | Hqi].
    + congruence.
    + subst p. rewrite Hsame in Hmp. apply Hthere in Hmp. subst hash.
      apply (Hother x (key s) q Hq ltac:(fold bx; lia)) in Hmq.
      fold bx in Hmq. rewrite Hsame in Hmq.
      exfalso. apply Hqi. apply (Honly q Hq Hhash Hmq).
    + subst q. rewrite Hsame in Hmq. apply Hthere in Hmq. subst hash.
      apply (Hother x (key s) p Hp ltac:(fold bx; lia)) in Hmp.
      fold bx in Hmp. rewrite Hsame in Hmp.
      exfalso. apply Hpi. apply (Honly p Hp Hhash Hmp).
    + apply (Hother x hash p Hp ltac:(fold bx; lia)) in Hmp.
      apply (Hother x hash q Hq ltac:(fold bx; lia)) in Hmq.
      apply (Hinv x hash p q Hhash Hp Hq Hmp Hmq).
  - apply (Hother x hash p Hp ltac:(fold bx; lia)) in Hmp.
    apply (Hother x hash q Hq ltac:(fold bx; lia)) in Hmq.
    apply (Hinv x hash p q Hhash Hp Hq Hmp Hmq).
Qed.

Lemma ttWrite_no_duplicates_witness :
  let self := blank_engine 8 4 3 0 (Board 77 5 13) 10 in
  exists v self',
    ttWrite self (TtSlot 77 0) 9 120 0 100 = Ok (v, self') /\
    no_duplicates (tt self').
Proof.
  intros self.
  assert (Hwf : tt_wf (tt self)) by (exists 1; by_eval).
  assert (Hint : tt_int_indexed (tt self)) by (vm_compute; intros H; discriminate H).
  destruct (ttWrite self (TtSlot 77 0) 9 120 0 100) as [[v self'] | e] eqn:Hrun;
    [| vm_compute in Hrun; inversion Hrun].
  exists v, self'. split; [reflexivity |].
  apply (ttWrite_no_duplicates self self' (TtSlot 77 0) 9 120 0 100 v
           example_params_ok Hwf Hint
           (all_zero_no_duplicates (tt self) (all_zero_replicate 8)) Hrun).
Defined.

(** ** ttClearFast renames the positions *)

(** X20. ttClearFast erases nothing: it changes the base hash and no
    slot, and a position reads afterwards whatever the position whose
    hash differs by the change of the base hash read before. *)
Theorem ttClearFast_rekeys {P : Params} (self : Engine_t) (h c p root : Z) :
  let cleared := ttClearFast self in
  let shift := Z.lxor (tt_baseHash (tt cleared)) (tt_baseHash (tt self)) in
  cleared = with_baseHash self (tt_baseHash (tt cleared)) /\
  0 <= tt_baseHash (tt cleared) < 2 ^ 64 /\
  ttRead (Engine (Board h c p) (tt cleared) root) =
  ttRead (Engine (Board (Z.lxor h shift) c p) (tt self) root).
Proof.
  intros cleared shift.
  split; [reflexivity |].
  split; [apply Z.mod_pos_bound; reflexivity |].
  unfold ttRead. cbn [board hash tt].
  assert (Hprobe : Z.lxor (Z.lxor h shift) (tt_baseHash (tt self)) =
                   Z.lxor h (tt_baseHash (tt cleared))).
  { unfold shift. rewrite !Z.lxor_assoc, Z.lxor_nilpotent, Z.lxor_0_r. reflexivity. }
  rewrite Hprobe.
  change (tt_mask (tt cleared)) with (tt_mask (tt self)).
  apply ttRead_scan_congr; reflexivity.
Qed.

(** ** ttClearFast and the slots written before *)

Lemma to_size_t_lnot (z : Z) : to_size_t (Z.lnot z) = 2 ^ 64 - 1 - to_size_t z.
Proof.
  unfold to_size_t, Z.lnot.
  pose proof (Z.div_mod z (2 ^ 64) ltac:(lia)) as Hd.
  pose proof (Z.mod_pos_bound z (2 ^ 64) ltac:(lia)) as Hr.
  symmetry. apply (Z.mod_unique _ _ (- (z / 2 ^ 64) - 1)); lia.
Qed.

Lemma written_under_zero (base : Z) (hs : list Z) (l : list ttSlot) :
  all_zero l -> written_under base hs l.
Proof.
  intros Hzero i s Hs. left. rewrite (Hzero i s Hs). reflexivity.
Qed.

Lemma written_under_more (base h : Z) (hs : list Z) (l : list ttSlot) :
  written_under base hs l -> written_under base (h :: hs) l.
Proof.
  intros Hw i s Hs. destruct (Hw i s Hs) as [H0 | (h' & Hin & Hv)]; [left; exact H0 |].
  right. exists h'. split; [right; exact Hin | exact Hv].
Qed.

(** The slot that a ttWrite puts into the table verifies the key it was
    given. *)
Lemma ttWrite_stored_key {P : Params} (self self' : Engine_t) (slot : ttSlot)
    (depth score alpha beta v : Z) :
  tt_buckets_ok (tt self) ->
  ttWrite self slot depth score alpha beta = Ok (v, self') ->
  self' = self \/
  exists (ix : nat) (w : ttSlot),
    verified_key w = key slot /\
    self' = with_slots self (<[ix := w]> (tt_slots (tt self))).
Proof.
  intros Hbuckets Hrun. unfold ttWrite in Hrun.
  destruct (ttWrite_slot self slot depth score alpha beta) as [s | w | e] eqn:Hslot.
  - destruct (ttWrite_scan self (key s) (Z.land (key s) (tt_mask (tt self)))
                (Z.to_nat bucketLen) 0 (-1) maxInt) as [i | e]; [| discriminate].
    cbn [bind] in Hrun. destruct (assert (i >=? 0)); [| discriminate].
    cbn [bind] in Hrun. unfold slot_put in Hrun.
    destruct (_ && _); [| discriminate]. cbn [bind] in Hrun.
    injection Hrun as _ <-. right.
    eexists _, (set_key s (Z.lxor (key s) (data s))). split; [| reflexivity].
    unfold verified_key, set_key. cbn [key data].
    rewrite Z.lxor_assoc, Z.lxor_nilpotent, Z.lxor_0_r.
    apply (ttWrite_slot_key _ _ _ _ _ _ _ Hslot).
  - injection Hrun as _ <-. left. reflexivity.
  - discriminate.
Qed.

(** Writing for the board hash [h] under [base] keeps the table written
    under [base]. *)
Lemma ttWrite_written_under {P : Params} (self self' : Engine_t) (slot : ttSlot)
    (depth score alpha beta v h : Z) (hs : list Z) :
  tt_buckets_ok (tt self) ->
  written_under (tt_baseHash (tt self)) hs (tt_slots (tt self)) ->
  key slot = Z.lxor h (tt_baseHash (tt self)) ->
  ttWrite self slot depth score alpha beta = Ok (v, self') ->
  tt_baseHash (tt self') = tt_baseHash (tt self) /\
  written_under (tt_baseHash (tt self)) (h :: hs) (tt_slots (tt self')).
Proof.
  intros Hbuckets Hw Hkey Hrun.
  destruct (ttWrite_stored_key self self' slot depth score alpha beta v Hbuckets Hrun)
    as [-> | (ix & w & Hv & ->)].
  - split; [reflexivity | apply written_under_more; exact Hw].
  - split; [reflexivity |]. cbn [with_slots tt tt_slots].
    intros i s Hs.
    destruct (Nat.eq_dec i ix) as [-> | Hne].
    + destruct (Nat.lt_ge_cases ix (length (tt_slots (tt self)))) as [Hlt | Hge].
      * rewrite list_lookup_insert_eq in Hs by exact Hlt. injection Hs as <-.
        right. exists h. split; [left; reflexivity | congruence].
      * rewrite lookup_ge_None_2 in Hs by (rewrite length_insert; exact Hge).
        discriminate.
    + rewrite list_lookup_insert_ne in Hs by congruence.
      apply (written_under_more _ h hs _ Hw i s Hs).
Qed.

(** A probe that no slot holding data verifies reads as the empty slot. *)
Lemma ttRead_unwritten {P : Params} (self : Engine_t) :
  tt_buckets_ok (tt self) ->
  (forall i s, tt_slots (tt self) !! i = Some s ->
     data s = 0 \/ verified_key s <> probe self) ->
  ttRead self = Ok (TtSlot (probe self) 0).
Proof.
  intros Hbuckets Hnone.
  destruct (ttRead_outcome self Hbuckets) as (r & Hr & _ & Hcases).
  rewrite Hr. f_equal.
  destruct Hcases as [[-> _] | (i & s & _ & Hs & Hv & ->)]; [reflexivity |].
  unfold bucket_slot in Hs.
  destruct (Hnone _ _ Hs) as [H0 | Hne]; [| contradiction].
  rewrite H0. unfold ttRead_found, slot_isWinLossScore.
  rewrite flag_of_zero. reflexivity.
Qed.

(** C5, amended.  The table holding what was written for the board
    hashes [hs] under the old baseHash: after ttClearFast, whose new
    baseHash is [~xorshift64star(~baseHash)], a ttRead for the board hash
    [h] returns the empty slot, the new probe hash as key and data 0,
    provided that nothing was written for the board hash
    [h ^ old ^ new], whose old probe is the new probe of [h].  For [h]
    itself that is so exactly when the baseHash has changed, and the
    baseHash stays as it is exactly when [~baseHash] is a fixed point of
    xorshift64star: the clear then changes nothing and every read is as
    before. *)
Theorem ttClearFast_then_ttRead {P : Params} (self : Engine_t) (hs : list Z) :
  tt_buckets_ok (tt self) ->
  written_under (tt_baseHash (tt self)) hs (tt_slots (tt self)) ->
  let cleared := ttClearFast self in
  let old := tt_baseHash (tt self) in
  let new := tt_baseHash (tt cleared) in
  let h := hash (board self) in
  new = to_size_t (Z.lnot (xorshift64star (to_size_t (Z.lnot old)))) /\
  probe cleared = Z.lxor h new /\
  ((forall h', In h' hs -> h' <> Z.lxor h (Z.lxor old new)) ->
   ttRead cleared = Ok (TtSlot (probe cleared) 0)) /\
  (h = Z.lxor h (Z.lxor old new) <-> new = old) /\
  (0 <= old < 2 ^ 64 ->
   (new = old <->
    to_size_t (xorshift64star (to_size_t (Z.lnot old))) = to_size_t (Z.lnot old))) /\
  (new = old -> cleared = self /\ ttRead cleared = ttRead self).
Proof.
  intros Hbuckets Hw cleared old new h.
  split; [reflexivity |]. split; [reflexivity |].
  split; [| split; [| split]].
  - intros Hfree. apply ttRead_unwritten; [exact Hbuckets |].
    intros i s Hs. change (tt_slots (tt cleared)) with (tt_slots (tt self)) in Hs.
    destruct (Hw i s Hs) as [H0 | (h' & Hin & Hv)]; [left; exact H0 |].
    right. intros Heq. apply (Hfree h' Hin).
    change (probe cleared) with (Z.lxor h new) in Heq.
    fold old in Hv. rewrite Hv in Heq.
    rewrite (Z.lxor_comm old new), <- Z.lxor_assoc, <- Heq.
    rewrite Z.lxor_assoc, Z.lxor_nilpotent, Z.lxor_0_r. reflexivity.
  - split.
    + intros Heq. symmetry. apply Z.lxor_eq.
      apply (lxor_cancel_l h). rewrite Z.lxor_0_r. symmetry. exact Heq.
    + intros ->. rewrite Z.lxor_nilpotent, Z.lxor_0_r. reflexivity.
  - intros Hold. unfold new, cleared, ttClearFast, with_baseHash.
    cbn [tt tt_baseHash]. fold old.
    set (x := xorshift64star (to_size_t (Z.lnot old))).
    rewrite (to_size_t_lnot x), (to_size_t_lnot old).
    rewrite (to_size_t_small old) by exact Hold.
    lia.
  - intros Hsame.
    assert (Hc : cleared = self).
    { assert (Hc : cleared = with_baseHash self new) by reflexivity.
      rewrite Hc, Hsame. unfold old, with_baseHash.
      destruct self as [b [sl sz mk nw bh] r]. reflexivity. }
    split; [exact Hc | rewrite Hc; reflexivity].
Qed.

Lemma ttClearFast_then_ttRead_witness :
  let self := blank_engine 8 4 3 0 (Board 77 5 13) 10 in
  exists (v : Z) (written : Engine_t) (r : ttSlot),
    ttWrite self (TtSlot 77 0) 9 120 0 100 = Ok (v, written) /\
    ttRead written = Ok r /\ data r <> 0 /\
    ttRead (ttClearFast written) = Ok (TtSlot (probe (ttClearFast written)) 0).
Proof.
  intros self.
  assert (Hbuckets : tt_buckets_ok (tt self)) by by_eval.
  assert (Hzero : written_under (tt_baseHash (tt self)) [] (tt_slots (tt self)))
    by (apply written_under_zero, all_zero_replicate).
  destruct (ttWrite self (TtSlot 77 0) 9 120 0 100) as [[v written] | e] eqn:Hrun;
    [| vm_compute in Hrun; inversion Hrun].
  destruct (ttWrite_written_under self written (TtSlot 77 0) 9 120 0 100 v 77 []
              Hbuckets Hzero eq_refl Hrun) as [Hbase Hw].
  rewrite <- Hbase in Hw.
  assert (Hb1 : tt_buckets_ok (tt written))
    by (vm_compute in Hrun; injection Hrun as _ <-; by_eval).
  assert (Hread : exists r, ttRead written = Ok r /\ data r <> 0).
  { vm_compute in Hrun. injection Hrun as _ <-.
    eexists. split; [vm_compute; reflexivity |].
    vm_compute. intros H. discriminate H. }
  destruct Hread as (r & Hr & Hdata).
  exists v, written, r. split; [reflexivity |]. split; [exact Hr |].
  split; [exact Hdata |].
  destruct (ttClearFast_then_ttRead written [77] Hb1 Hw) as (_ & _ & Hmiss & _).
  apply Hmiss. intros h' [<- | []].
  vm_compute in Hrun. injection Hrun as _ <-.
  vm_compute. intros H. discriminate H.
Defined.

(** The fixed point, on the example parameters: xorshift64star maps 0 to
    0, so that with every bit of baseHash set ttClearFast changes nothing,
    and a slot written before is read after it. *)
Lemma ttClearFast_fixed_point_example :
  let self := blank_engine 8 4 3 (2 ^ 64 - 1) (Board 77 5 13) 10 in
  ttClearFast self = self /\
  exists (written : Engine_t) (r : ttSlot),
    ttWrite self (TtSlot (probe self) 0) 9 120 0 100 = Ok (120, written) /\
    ttRead (ttClearFast written) = Ok r /\ slot_depth r = 9.
Proof.
  intros self. split; [vm_compute; reflexivity |].
  eexists. eexists. split; [vm_compute; reflexivity |].
  split; vm_compute; reflexivity.
Qed.

(** ** Buckets beyond the reach of [int] *)

(** [prio] takes its index as an [int]; ttWrite and the shrink loop of
    ttSetSize hand it a [size_t].  What follows is what the code does with
    a table of more than [2^31] slots, which ttSetSize builds as any
    other. *)

Section PastInt.

Context {P : Params}.
Hypothesis HP : params_ok P.

(** The index that [prio] receives for a place of a bucket at
    [low + q * 2^32]. *)
Lemma to_int_aliased (low q j : Z) :
  0 <= low -> low + bucketLen <= 2 ^ 31 -> 0 <= j < bucketLen ->
  to_int (low + q * 2 ^ 32 + j) = low + j.
Proof.
  unfold bucketLen. intros Hlow Hhi Hj.
  destruct (to_int_eqm (low + q * 2 ^ 32 + j)) as [k Hk].
  pose proof (to_int_range (low + q * 2 ^ 32 + j)) as Hr.
  change (2 ^ 31) with 2147483648 in *. change (2 ^ 32) with 4294967296 in *.
  lia.
Qed.

(** The index that [prio] receives in the upper half of the [unsigned]
    range. *)
Lemma to_int_negative (ix : Z) : 2 ^ 31 <= ix < 2 ^ 32 -> to_int ix < 0.
Proof.
  intros Hix. destruct (to_int_eqm ix) as [k Hk].
  pose proof (to_int_range ix) as Hr.
  change (2 ^ 31) with 2147483648 in *. change (2 ^ 32) with 4294967296 in *.
  lia.
Qed.

(** The loop of lines 161-171 on a bucket that [prio] takes for the
    bucket at [low]: it looks for the key in the bucket and for the
    minimum in the other. *)
Lemma ttWrite_scan_aliased (self : Engine_t) (hash bucket low : Z) :
  0 <= bucket -> bucket + bucketLen <= Z.of_nat (length (tt_slots (tt self))) ->
  bucket + bucketLen <= 2 ^ 64 ->
  bucket_ok (tt self) low ->
  (forall j, 0 <= j < bucketLen -> to_int (bucket + j) = low + j) ->
  forall (n : nat) (j i iPrio : Z),
    0 <= j -> j + Z.of_nat n = bucketLen ->
    (forall j', 0 <= j' < j -> ~ matches (tt self) hash bucket j') ->
    (j = 0 /\ i = -1 /\ iPrio = maxInt) \/
      (0 <= i < j /\ best_below (tt self) low i iPrio j) ->
    exists r, ttWrite_scan self hash bucket n j i iPrio = Ok r /\
              (first_match (tt self) hash bucket r \/
               (no_match (tt self) hash bucket /\ lowest_prio (tt self) low r)).
Proof.
  intros Hb Hlen Hhi Hlow Halias. pose proof Hlow as (Hl0 & Hllen & Hlint).
  induction n as [| n IH]; intros j i iPrio Hj Hn Hnone Hinv.
  - simpl. exists i. split; [reflexivity |].
    destruct Hinv as [(-> & _) | (Hi & si & Hsi & Hp & Hbest)].
    + unfold bucketLen in Hn. lia.
    + right. split.
      * intros j' Hj'. apply Hnone. lia.
      * split; [lia |]. exists si. split; [exact Hsi |].
        intros j' sj Hj' Hsj. rewrite Hp. apply (Hbest j' sj); [lia | exact Hsj].
  - assert (Hjr : 0 <= j < bucketLen) by lia.
    destruct (lookup_in_range (tt_slots (tt self)) (bucket + j)) as [s Hs];
      [unfold bucketLen in *; lia |].
    destruct (bucket_slot_exists (tt self) low j Hlow Hjr) as [s' Hs'].
    cbn [ttWrite_scan].
    rewrite (to_size_t_small (bucket + j)) by (unfold bucketLen in *; lia).
    rewrite (Halias j Hjr).
    rewrite (slot_get_Some _ _ s) by (lia || exact Hs). cbn [bind].
    destruct (Z.eqb_spec (Z.lxor (key s) (data s)) hash) as [Heq | Hne].
    + exists j. split; [reflexivity |]. left.
      split; [exact Hjr |]. split; [| exact Hnone].
      exists s. split; [exact Hs | exact Heq].
    + unfold prio. unfold bucket_slot in Hs'.
      rewrite (slot_get_Some _ _ s') by (lia || exact Hs'). cbn [bind].
      assert (Hnone' : forall j', 0 <= j' < j + 1 -> ~ matches (tt self) hash bucket j').
      { intros j' Hj' (s0 & Hs0 & Hm).
        destruct (Z.eq_dec j' j) as [-> | Hjj].
        - unfold bucket_slot in Hs0. rewrite Hs in Hs0.
          injection Hs0 as <-. apply Hne. exact Hm.
        - apply (Hnone j'); [lia |]. exists s0. split; assumption. }
      pose proof (slot_prio_below_maxInt HP (tt_now (tt self)) s') as Hmax.
      destruct (Z.ltb_spec (slot_prio (tt_now (tt self)) s') iPrio) as [Hlt | Hge].
      * apply IH; [lia | lia | exact Hnone' |]. right. split; [lia |].
        exists s'. split; [exact Hs' |]. split; [reflexivity |].
        intros j' sj Hj' Hsj.
        destruct (Z.eq_dec j' j) as [-> | Hjj].
        -- unfold bucket_slot in Hsj. rewrite Hs' in Hsj. injection Hsj as <-. lia.
        -- destruct Hinv as [(-> & _) | (Hi & si & Hsi & Hp & Hbest)]; [lia |].
           destruct (Hbest j' sj) as [Hle _]; [lia | exact Hsj |]. lia.
      * apply IH; [lia | lia | exact Hnone' |]. right.
        destruct Hinv as [(_ & _ & ->) | (Hi & si & Hsi & Hp & Hbest)]; [lia |].
        split; [lia |]. exists si. split; [exact Hsi |]. split; [exact Hp |].
        intros j' sj Hj' Hsj.
        destruct (Z.eq_dec j' j) as [-> | Hjj].
        -- unfold bucket_slot in Hsj. rewrite Hs' in Hsj. injection Hsj as <-. lia.
        -- apply Hbest; [lia | exact Hsj].
Qed.

(** ttWrite on such a bucket: the key is looked for in the bucket, the
    place of minimum [prio] in the bucket at [low]. *)
Lemma ttWrite_stores_aliased (self : Engine_t) (slot s : ttSlot)
    (depth score alpha beta low q : Z) :
  tt_buckets_ok (tt self) ->
  ttWrite_slot self slot depth score alpha beta = Next s ->
  let bucket := Z.land (key slot) (tt_mask (tt self)) in
  0 <= q -> bucket = low + q * 2 ^ 32 -> 0 <= low -> low + bucketLen <= 2 ^ 31 ->
  exists i, 0 <= i < bucketLen /\
    (first_match (tt self) (key slot) bucket i \/
     (no_match (tt self) (key slot) bucket /\ lowest_prio (tt self) low i)) /\
    ttWrite self slot depth score alpha beta =
      Ok (score, with_slots self
                   (<[Z.to_nat (bucket + i) := sealed s]> (tt_slots (tt self)))).
Proof.
  intros (Hmask & Hlen & Hhi) Hslot bucket Hq Hbucket Hlow Hint.
  pose proof (land_mask_range (key slot) (tt_mask (tt self)) Hmask) as Hb.
  fold bucket in Hb.
  assert (Hq32 : 0 <= q * 2 ^ 32) by (change (2 ^ 32) with 4294967296; lia).
  assert (Hlowok : bucket_ok (tt self) low)
    by (unfold bucket_ok, bucketLen in *; lia).
  assert (Halias : forall j, 0 <= j < bucketLen -> to_int (bucket + j) = low + j)
    by (intros j Hj; rewrite Hbucket; apply to_int_aliased; assumption).
  destruct (ttWrite_scan_aliased self (key slot) bucket low
              ltac:(lia) ltac:(lia) ltac:(lia) Hlowok Halias
              (Z.to_nat bucketLen) 0 (-1) maxInt ltac:(lia) ltac:(unfold bucketLen; lia)
              ltac:(intros j' Hj'; lia) ltac:(left; auto))
    as (i & Hscan & Hchoice).
  assert (Hi : 0 <= i < bucketLen)
    by (destruct Hchoice as [(H & _) | (_ & H & _)]; exact H).
  exists i. split; [exact Hi |]. split; [exact Hchoice |].
  pose proof (ttWrite_slot_key _ _ _ _ _ _ _ Hslot) as Hk.
  rewrite <- Hk in Hscan.
  unfold ttWrite. rewrite Hslot.
  replace (Z.land (key s) (tt_mask (tt self))) with bucket
    by (unfold bucket; rewrite Hk; reflexivity).
  rewrite Hscan. cbn [bind]. unfold assert.
  destruct (Z.geb_spec i 0) as [_ | Hneg]; [| lia]. cbn [bind].
  rewrite to_size_t_small by (unfold bucketLen in *; lia).
  rewrite slot_put_ok by (unfold bucketLen in *; lia). cbn [bind].
  reflexivity.
Qed.

End PastInt.

(** C1, as the code breaks it.  On a table of more than [2^31] slots, a
    ttWrite whose bucket lies at an index from [2^31] up to [2^32], and
    whose first slot does not hold the key, faults: [prio] is called with
    the index of that slot, which as an [int] is negative.  The slot is
    not stored and no ttRead can return it. *)
Theorem ttWrite_faults_past_int {P : Params} (self : Engine_t) (slot s first : ttSlot)
    (depth score alpha beta : Z) :
  ttWrite_slot self slot depth score alpha beta = Next s ->
  let bucket := Z.land (key slot) (tt_mask (tt self)) in
  2 ^ 31 <= bucket < 2 ^ 32 ->
  tt_slots (tt self) !! Z.to_nat bucket = Some first ->
  verified_key first <> key slot ->
  ttWrite self slot depth score alpha beta = Err Fault.
Proof.
  intros Hslot bucket Hrange Hfirst Hkey.
  unfold ttWrite. rewrite Hslot.
  rewrite (ttWrite_slot_key _ _ _ _ _ _ _ Hslot). fold bucket.
  assert (H4 : Z.to_nat bucketLen = 4%nat) by reflexivity. rewrite H4.
  cbn [ttWrite_scan]. rewrite Z.add_0_r.
  rewrite (to_size_t_small bucket)
    by (change (2 ^ 31) with 2147483648 in Hrange;
        change (2 ^ 32) with 4294967296 in Hrange;
        change (2 ^ 64) with 18446744073709551616; lia).
  rewrite (slot_get_Some _ _ first)
    by (exact Hfirst || (change (2 ^ 31) with 2147483648 in Hrange; lia)).
  cbn [bind].
  destruct (Z.eqb_spec (Z.lxor (key first) (data first)) (key slot)) as [Heq | _];
    [contradiction |].
  unfold prio, slot_get.
  pose proof (to_int_negative bucket Hrange) as Hneg.
  destruct (Z.ltb_spec (to_int bucket) 0) as [_ | Habs]; [| lia].
  reflexivity.
Qed.

(** C4, as the code breaks it.  On a table of more than [2^32] slots, for
    a bucket at an index [low + q * 2^32] that does not hold the key,
    ttWrite stores into the place where another bucket, the one at
    [low], has its minimum [prio]: [prio] is called with an index that as
    an [int] is [low + j]. *)
Theorem ttWrite_ranks_aliased_bucket {P : Params} (self : Engine_t) (slot s : ttSlot)
    (depth score alpha beta low q : Z) :
  params_ok P -> tt_buckets_ok (tt self) ->
  ttWrite_slot self slot depth score alpha beta = Next s ->
  let bucket := Z.land (key slot) (tt_mask (tt self)) in
  0 < q -> bucket = low + q * 2 ^ 32 -> 0 <= low -> low + bucketLen <= 2 ^ 31 ->
  no_match (tt self) (key slot) bucket ->
  exists i,
    lowest_prio (tt self) low i /\
    ttWrite self slot depth score alpha beta =
      Ok (score, with_slots self
                   (<[Z.to_nat (bucket + i) := sealed s]> (tt_slots (tt self)))).
Proof.
  intros HP Hbuckets Hslot bucket Hq Hbucket Hlow Hint Hnone.
  destruct (ttWrite_stores_aliased HP self slot s depth score alpha beta low q
              Hbuckets Hslot ltac:(lia) Hbucket Hlow Hint)
    as (i & Hi & [(_ & Hm & _) | (_ & Hmin)] & Hw).
  - exfalso. apply (Hnone i Hi Hm).
  - exists i. split; [exact Hmin | exact Hw].
Qed.

(** The table that the first ttSetSize builds when its allocation is
    granted at once. *)
Lemma ttSetSize_zeroed_table {P : Params} (h : allocator) (self : Engine_t) (size K : Z) :
  tt_null (tt self) -> 0 <= size < 2 ^ 64 ->
  0 <= K -> largest_fit size = size_of K -> alloc_ok h (size_of K) = true ->
  ttSetSize h self size =
    Ok (Engine (board self)
               (Ttable (replicate (Z.to_nat (2 ^ (K + 2))) (TtSlot 0 0))
                       (size_of K) (mask_of K)
                       (tt_now (tt self)) (tt_baseHash (tt self)))
               (rootPlyNumber self)).
Proof.
  intros Hnull Hsize HK Hfit Hok.
  destruct (ttSetSize_first h self size Hnull Hsize ltac:(rewrite Hfit; exact Hok))
    as (K' & grown & HK' & Hfit' & _ & Hrun).
  assert (K' = K) by (apply size_of_inj; [exact HK' | exact HK | congruence]).
  subst K'.
  pose proof (ttSetSize_null_outcome h self size Hnull Hsize) as Hout.
  rewrite Hrun in Hout. destruct Hout as (k' & Hk' & Heq).
  injection Heq as Hgrown Hsz _.
  assert (k' = K) by (apply size_of_inj; [lia | exact HK | congruence]).
  subst k'. rewrite Hrun, Hgrown. reflexivity.
Qed.

Lemma ttWrite_faults_past_int_witness :
  let null := blank_engine 0 0 0 0 (Board 0 1 0) 0 in
  exists big : Engine_t,
    ttSetSize generous null (2 ^ 36) = Ok big /\
    tt_wf (tt big) /\
    ttWrite big (TtSlot (2 ^ 31) 0) 9 120 0 100 = Err Fault.
Proof.
  intros null.
  assert (Hnull : tt_null (tt null)) by by_eval.
  assert (Hfit : largest_fit (2 ^ 36) = size_of 30) by (vm_compute; reflexivity).
  assert (Hbucket : Z.land (2 ^ 31) (mask_of 30) = 2 ^ 31) by (vm_compute; reflexivity).
  assert (Hcount : 2 ^ (30 + 2) = mask_of 30 + bucketLen) by (vm_compute; reflexivity).
  eexists. split; [| split].
  - apply (ttSetSize_zeroed_table generous null (2 ^ 36) 30 Hnull);
      [split; [discriminate | reflexivity] | discriminate | exact Hfit | reflexivity].
  - exists 30. cbn [tt tt_mask tt_slots tt_size].
    split; [discriminate |]. split; [reflexivity |].
    split; [rewrite length_replicate, Z2Nat.id by discriminate; exact Hcount |].
    split; reflexivity.
  - eapply (ttWrite_faults_past_int _ (TtSlot (2 ^ 31) 0) _ (TtSlot 0 0) 9 120 0 100).
    + apply ttWrite_slot_plain;
        [reflexivity | split; discriminate].
    + cbn [key tt tt_mask]. rewrite Hbucket. split; [discriminate | reflexivity].
    + cbn [key tt tt_mask tt_slots]. rewrite Hbucket.
      apply lookup_replicate_2. apply Z2Nat.inj_lt; [discriminate | discriminate | reflexivity].
    + vm_compute. intros H. discriminate H.
Defined.

Lemma bucket_slot_eq (t : ttable) (bucket j : Z) :
  bucket_slot t bucket j = tt_slots t !! Z.to_nat (bucket + j).
Proof. reflexivity. Qed.

(** A table of zero slots but one, and what its places hold. *)
Lemma lookup_one_written (N ix x : Z) (w : ttSlot) :
  0 <= ix < N -> 0 <= x < N ->
  <[Z.to_nat ix := w]> (replicate (Z.to_nat N) (TtSlot 0 0)) !! Z.to_nat x =
    Some (if Z.eq_dec x ix then w else TtSlot 0 0).
Proof.
  intros Hix Hx.
  assert (HxN : (Z.to_nat x < Z.to_nat N)%nat) by (apply Z2Nat.inj_lt; lia).
  assert (HiN : (Z.to_nat ix < Z.to_nat N)%nat) by (apply Z2Nat.inj_lt; lia).
  destruct (Z.eq_dec x ix) as [-> | Hne].
  - apply list_lookup_insert_eq. rewrite length_replicate. exact HiN.
  - rewrite list_lookup_insert_ne.
    + apply lookup_replicate_2. exact HxN.
    + intros Heq. apply Hne. symmetry. apply Z2Nat.inj; [lia | lia | exact Heq].
Qed.

Lemma ttWrite_ranks_aliased_bucket_witness :
  let null := blank_engine 0 0 0 0 (Board 0 1 0) 0 in
  exists (big filled : Engine_t) (w : ttSlot),
    ttSetSize generous null (2 ^ 37) = Ok big /\
    ttWrite big (TtSlot 8 0) 5 0 0 0 = Ok (0, filled) /\
    tt_wf (tt filled) /\
    no_match (tt filled) (2 ^ 32 + 8) (2 ^ 32 + 8) /\
    lowest_prio (tt filled) (2 ^ 32 + 8) 0 /\
    ttWrite filled (TtSlot (2 ^ 32 + 8) 0) 0 0 0 0 =
      Ok (0, with_slots filled
               (<[Z.to_nat (2 ^ 32 + 8 + 1) := w]> (tt_slots (tt filled)))).
Proof.
  intros null.
  assert (Hnull : tt_null (tt null)) by by_eval.
  assert (Hfit : largest_fit (2 ^ 37) = size_of 31) by (vm_compute; reflexivity).
  assert (Hcount : 2 ^ (31 + 2) = mask_of 31 + bucketLen) by (vm_compute; reflexivity).
  assert (HN : 2 ^ (31 + 2) = 8589934592) by reflexivity.
  assert (H32 : 2 ^ 32 = 4294967296) by reflexivity.
  assert (Hmask : mask_of 31 = 8589934588) by (vm_compute; reflexivity).
  assert (Hb1 : Z.land 8 (mask_of 31) = 8) by (vm_compute; reflexivity).
  assert (Hb2 : Z.land (2 ^ 32 + 8) (mask_of 31) = 2 ^ 32 + 8) by (vm_compute; reflexivity).
  set (zeros := replicate (Z.to_nat (2 ^ (31 + 2))) (TtSlot 0 0)).
  set (big := Engine (Board 0 1 0)
                     (Ttable zeros (size_of 31) (mask_of 31) 0 0) 0).
  assert (Hbig : ttSetSize generous null (2 ^ 37) = Ok big)
    by (apply (ttSetSize_zeroed_table generous null (2 ^ 37) 31 Hnull);
        [split; [discriminate | reflexivity] | discriminate | exact Hfit | reflexivity]).
  assert (Hzlen : Z.of_nat (length zeros) = 2 ^ (31 + 2))
    by (unfold zeros; rewrite length_replicate; apply Z2Nat.id; discriminate).
  assert (Hbslots : tt_slots (tt big) = zeros) by reflexivity.
  assert (Hbmask : tt_mask (tt big) = mask_of 31) by reflexivity.
  assert (Hbnow : tt_now (tt big) = 0) by reflexivity.
  assert (Hbok : tt_buckets_ok (tt big)).
  { unfold tt_buckets_ok. rewrite Hbslots, Hbmask, Hzlen, HN, Hmask. unfold bucketLen.
    split; [discriminate |]. split; discriminate. }
  (* the first write: the slot for key 8, at place 0 of its bucket *)
  set (s1 := set_fields big (TtSlot 8 0) 5 0 0 0).
  assert (Hs1 : ttWrite_slot big (TtSlot 8 0) 5 0 0 0 = Next s1)
    by (apply ttWrite_slot_plain; [reflexivity | split; discriminate]).
  assert (Hbk1 : Z.land (key (TtSlot 8 0)) (tt_mask (tt big)) = 8)
    by (rewrite Hbmask; exact Hb1).
  destruct (ttWrite_stores_aliased example_params_ok big (TtSlot 8 0) s1 5 0 0 0 8 0
              Hbok Hs1 ltac:(discriminate) Hbk1
              ltac:(discriminate) ltac:(discriminate))
    as (i1 & Hi1 & Hchoice1 & Hw1).
  rewrite Hbk1 in Hchoice1, Hw1. rewrite Hbslots in Hw1.
  assert (Hzero_at : forall x, 0 <= x < 2 ^ (31 + 2) ->
            zeros !! Z.to_nat x = Some (TtSlot 0 0)).
  { intros x Hx. apply lookup_replicate_2. apply Z2Nat.inj_lt; lia. }
  assert (Hp0 : slot_prio 0 (TtSlot 0 0) = 0) by (vm_compute; reflexivity).
  assert (Hi10 : i1 = 0).
  { unfold bucketLen in Hi1.
    destruct Hchoice1 as [(_ & (s & Hs & Hv) & _) | (_ & _ & si & Hsi & Hmin)].
    - exfalso. rewrite bucket_slot_eq, Hbslots in Hs.
      rewrite Hzero_at in Hs by (rewrite HN; lia).
      injection Hs as <-. vm_compute in Hv. discriminate Hv.
    - rewrite bucket_slot_eq, Hbslots in Hsi.
      rewrite Hzero_at in Hsi by (rewrite HN; lia). injection Hsi as <-.
      destruct (Z.eq_dec i1 0) as [He | Hne]; [exact He | exfalso].
      destruct (Hmin 0 (TtSlot 0 0) ltac:(unfold bucketLen; lia)
                  ltac:(rewrite bucket_slot_eq, Hbslots; apply Hzero_at; rewrite HN; lia))
        as [_ Hlt].
      specialize (Hlt ltac:(lia)). lia. }
  subst i1. clear Hchoice1.
  set (filled := with_slots big (<[Z.to_nat (8 + 0) := sealed s1]> zeros)) in *.
  assert (Hfslots : tt_slots (tt filled) = <[Z.to_nat (8 + 0) := sealed s1]> zeros)
    by reflexivity.
  assert (Hfmask : tt_mask (tt filled) = mask_of 31) by reflexivity.
  assert (Hfnow : tt_now (tt filled) = 0) by reflexivity.
  assert (Hfsize : tt_size (tt filled) = size_of 31) by reflexivity.
  assert (Hat : forall x, 0 <= x < 2 ^ (31 + 2) ->
            tt_slots (tt filled) !! Z.to_nat x =
              Some (if Z.eq_dec x (8 + 0) then sealed s1 else TtSlot 0 0)).
  { intros x Hx. rewrite Hfslots. unfold zeros.
    apply lookup_one_written; [rewrite HN; lia | exact Hx]. }
  assert (Hflen : Z.of_nat (length (tt_slots (tt filled))) = 2 ^ (31 + 2))
    by (rewrite Hfslots, length_insert; exact Hzlen).
  assert (Hfok : tt_buckets_ok (tt filled)).
  { unfold tt_buckets_ok. rewrite Hflen, Hfmask, HN, Hmask. unfold bucketLen.
    split; [discriminate |]. split; discriminate. }
  assert (Hp1 : slot_prio 0 (sealed s1) = 5).
  { unfold s1, set_fields. rewrite Hbnow. vm_compute. reflexivity. }
  (* the second write: key 2^32 + 8 *)
  set (s2 := set_fields filled (TtSlot (2 ^ 32 + 8) 0) 0 0 0 0).
  assert (Hs2 : ttWrite_slot filled (TtSlot (2 ^ 32 + 8) 0) 0 0 0 0 = Next s2)
    by (apply ttWrite_slot_plain; [reflexivity | split; discriminate]).
  assert (Hbk2 : Z.land (key (TtSlot (2 ^ 32 + 8) 0)) (tt_mask (tt filled)) = 2 ^ 32 + 8)
    by (rewrite Hfmask; exact Hb2).
  assert (Hnone : no_match (tt filled) (2 ^ 32 + 8) (2 ^ 32 + 8)).
  { intros j Hj (s & Hs & Hv). unfold bucketLen in Hj. rewrite bucket_slot_eq in Hs.
    rewrite Hat in Hs by (rewrite HN, H32; lia).
    destruct (Z.eq_dec (2 ^ 32 + 8 + j) (8 + 0)) as [Habs | _];
      [rewrite H32 in Habs; lia |].
    injection Hs as <-. vm_compute in Hv. discriminate Hv. }
  destruct (ttWrite_ranks_aliased_bucket filled (TtSlot (2 ^ 32 + 8) 0) s2 0 0 0 0 8 1
              example_params_ok Hfok Hs2 ltac:(reflexivity)
              ltac:(rewrite Hbk2; reflexivity)
              ltac:(discriminate) ltac:(discriminate)
              ltac:(rewrite Hbk2; exact Hnone))
    as (i2 & Hmin2 & Hw2).
  rewrite Hbk2 in Hw2.
  assert (Hi21 : i2 = 1).
  { destruct Hmin2 as (Hi2 & si & Hsi & Hmin). unfold bucketLen in Hi2.
    rewrite bucket_slot_eq in Hsi.
    rewrite Hat in Hsi by (rewrite HN; lia).
    destruct (Hmin 0 (sealed s1) ltac:(unfold bucketLen; lia)
                ltac:(rewrite bucket_slot_eq, Hat by (rewrite HN; lia); reflexivity))
      as [Hle0 Hlt0].
    destruct (Hmin 1 (TtSlot 0 0) ltac:(unfold bucketLen; lia)
                ltac:(rewrite bucket_slot_eq, Hat by (rewrite HN; lia); reflexivity))
      as [Hle1 Hlt1].
    rewrite Hfnow in Hle0, Hlt0, Hle1, Hlt1.
    rewrite Hp1 in Hle0, Hlt0. rewrite Hp0 in Hle1, Hlt1.
    destruct (Z.eq_dec (8 + i2) (8 + 0)) as [He | Hne].
    - injection Hsi as <-. rewrite Hp1 in Hle1. lia.
    - injection Hsi as <-. rewrite Hp0 in *.
      destruct (Z.eq_dec i2 1) as [H1 | Hn1]; [exact H1 | exfalso].
      specialize (Hlt1 ltac:(lia)). lia. }
  subst i2.
  exists big, filled, (sealed s2).
  split; [exact Hbig |]. split; [exact Hw1 |].
  split.
  { exists 31. rewrite Hflen, Hfmask, Hfsize.
    split; [discriminate |]. split; [reflexivity |].
    split; [exact Hcount |]. split; reflexivity. }
  split; [exact Hnone |].
  split; [| exact Hw2].
  split; [unfold bucketLen; split; [discriminate | reflexivity] |].
  exists (TtSlot 0 0).
  split.
  { rewrite bucket_slot_eq, Hat by (rewrite HN, H32; lia).
    destruct (Z.eq_dec (2 ^ 32 + 8 + 0) (8 + 0)) as [Habs | _];
      [rewrite H32 in Habs; lia | reflexivity]. }
  intros j sj Hj Hsj. unfold bucketLen in Hj.
  rewrite bucket_slot_eq, Hat in Hsj by (rewrite HN, H32; lia).
  destruct (Z.eq_dec (2 ^ 32 + 8 + j) (8 + 0)) as [Habs | _];
    [rewrite H32 in Habs; lia |].
  injection Hsj as <-. split; [lia | intros Hneg; lia].
Defined.

(** The shrink loop of lines 69-71 reaches the index [2^31], which
    [prio] takes for a negative [int]. *)
Lemma ttSetSize_shrink_errs {P : Params} (newMask : Z) :
  forall (n : nat) (self : Engine_t) (i : Z),
    0 <= i <= 2 ^ 31 -> 2 ^ 31 < i + Z.of_nat n ->
    exists e, ttSetSize_shrink n self newMask i = Err e.
Proof.
  induction n as [| n IH]; intros self i Hi Hn; [lia |].
  cbn [ttSetSize_shrink].
  destruct (prio self (to_int (Z.land i (to_size_t (to_size_t (newMask + bucketLen) - 1)))))
    as [pt | e]; [| eexists; reflexivity].
  cbn [bind].
  destruct (prio self (to_int i)) as [pi | e] eqn:Hpi; [| eexists; reflexivity].
  cbn [bind].
  destruct (Z.eq_dec i (2 ^ 31)) as [-> | Hne].
  - exfalso. unfold prio, slot_get in Hpi.
    change (to_int (2 ^ 31) <? 0) with true in Hpi. discriminate Hpi.
  - destruct (if pt <? pi then _ else _) as [self' | e]; [| eexists; reflexivity].
    cbn [bind]. apply IH; lia.
Qed.

(** X21. A table of more than [2^31] slots cannot be shrunk: whatever
    the allocator would do, ttSetSize faults in the shrink loop, which
    hands the [size_t] index of a slot to [prio], an [int], before any
    reallocation. *)
Theorem ttSetSize_shrink_faults_past_int {P : Params} (h : allocator)
    (self : Engine_t) (size : Z) :
  0 <= size < 2 ^ 64 ->
  largest_fit size < tt_size (tt self) ->
  2 ^ 31 < to_size_t (tt_mask (tt self) + bucketLen) ->
  ttSetSize h self size = Err Fault.
Proof.
  intros Hsize Hshrink Hcount.
  destruct (ttSetSize_fit_largest size Hsize) as (K & HK & Hfit & Hbounds & Hrun).
  unfold ttSetSize.
  change (assert (sizeof_ttSlot =? 2 * sizeof_uint64_t)) with (@Ok unit ()).
  cbn [bind]. rewrite Hrun. cbn [bind]. cbv beta iota.
  rewrite Hfit in Hshrink.
  destruct (Z.ltb_spec (size_of K) (tt_size (tt self))) as [_ | Habs]; [| lia].
  set (n := Z.to_nat (to_size_t (tt_mask (tt self) + bucketLen))).
  destruct (ttSetSize_shrink_errs (mask_of K) n self 0 ltac:(lia)
              ltac:(unfold n; lia)) as [e He].
  pose proof (ttSetSize_shrink_frame (mask_of K) n self 0) as Hframe.
  rewrite He in Hframe. rewrite He, Hframe. reflexivity.
Qed.

Lemma ttSetSize_shrink_faults_past_int_witness :
  let null := blank_engine 0 0 0 0 (Board 0 1 0) 0 in
  exists big : Engine_t,
    ttSetSize generous null (2 ^ 37) = Ok big /\
    ttSetSize generous big 64 = Err Fault.
Proof.
  intros null.
  assert (Hnull : tt_null (tt null)) by by_eval.
  assert (Hfit : largest_fit (2 ^ 37) = size_of 31) by (vm_compute; reflexivity).
  eexists. split.
  - apply (ttSetSize_zeroed_table generous null (2 ^ 37) 31 Hnull);
      [split; [discriminate | reflexivity] | discriminate | exact Hfit | reflexivity].
  - apply ttSetSize_shrink_faults_past_int.
    + split; [discriminate | reflexivity].
    + assert (H64 : largest_fit 64 = 64) by (vm_compute; reflexivity).
      rewrite H64. reflexivity.
    + reflexivity.
Defined.
